(** * MoneroConnectionManager: a shallow embedding and its properties

    The development follows [src/main/js/common/MoneroConnectionManager.js].
    JavaScript objects are kept in explicit stores so that reference
    identity ([===]) and in-place mutation are visible: connections live
    in an object store and are handled through references, arrays of
    connections live in an array store.  Promises are represented by the
    way they settle (fulfilled or rejected, and when). *)

From Stdlib Require Import ZArith String List Lia OrdersEx.
From stdpp Require Import prelude strings sorting.
Import ListNotations.
Local Open Scope string_scope.
Local Open Scope list_scope.
Local Open Scope Z_scope.

(** ** Exceptions and completions *)

Inductive Exn : Type :=
| MoneroError (msg : string)
| ReferenceError (msg : string)
| TypeError (msg : string)
| AggregateError
| TransportError (msg : string)
| NoReason.                       (* [reject()] called without an argument *)

(** A call either returns normally or throws. *)
Inductive Result (A : Type) : Type :=
| Return (a : A)
| Throw (e : Exn).
Arguments Return {A} a.
Arguments Throw {A} e.

Definition is_Return {A} (r : Result A) : bool :=
  match r with Return _ => true | Throw _ => false end.

(** A promise, by how it settles; [t] is the time at which it does. *)
Inductive Settled (A : Type) : Type :=
| Fulfilled (t : nat) (v : A)
| Rejected (t : nat) (e : Exn).
Arguments Fulfilled {A} t v.
Arguments Rejected {A} t e.

(** ** Connections *)

(** References into the object store (object identity). *)
Definition ref := nat.
(** References into the array store. *)
Definition aref := nat.

(** Modelled from the spec: a connection (MoneroRpcConnection.js is not
    part of the sources), as the record of what the manager reads through
    [getUri], [getUsername], [getPassword], [getPriority], [isOnline] and
    [isAuthenticated]: an address, optional credentials, an integer
    priority and two tri-state status fields ([None] is JavaScript's
    [undefined]). *)
Record MoneroRpcConnection : Type := mkConnection {
  getUri : string;
  getUsername : option string;
  getPassword : option string;
  getPriority : Z;
  isOnline : option bool;
  isAuthenticated : option bool
}.

#[global] Instance MoneroRpcConnection_inhabited : Inhabited MoneroRpcConnection :=
  populate (mkConnection "" None None 0 None None).

(** Modelled from the spec: the constructor [new MoneroRpcConnection(uri)]
    (MoneroRpcConnection.js is not part of the sources).  The spec says a
    new endpoint made from an address has default (empty) credentials and
    priority 0; its status is unknown. *)
Definition new_MoneroRpcConnection (uri : string) : MoneroRpcConnection :=
  mkConnection uri None None 0 None None.

(** Modelled from the spec: [setCredentials(user, secret)] overwrites the
    credentials with the supplied values. *)
Definition setCredentials (u p : option string) (c : MoneroRpcConnection)
  : MoneroRpcConnection :=
  mkConnection (getUri c) u p (getPriority c) (isOnline c) (isAuthenticated c).

Definition set_status (o a : option bool) (c : MoneroRpcConnection)
  : MoneroRpcConnection :=
  mkConnection (getUri c) (getUsername c) (getPassword c) (getPriority c) o a.

(** [connection.isOnline() && connection.isAuthenticated() !== false], on
    the two status values and on a connection. *)
Definition healthy (online authenticated : option bool) : bool :=
  match online, authenticated with
  | Some true, Some false => false
  | Some true, _ => true
  | _, _ => false
  end.

Definition usable (c : MoneroRpcConnection) : bool :=
  healthy (isOnline c) (isAuthenticated c).

(** ** Listeners *)

(** What a listener's [onConnectionChanged] does when it is called: it
    either throws, or returns a promise (a plain return value counts as a
    promise fulfilled at once). *)
Inductive Handler : Type :=
| Returns (p : Settled unit)
| Throws (e : Exn).

(** A listener has an identity, a handler outcome, and the changes its
    handler makes to the manager's listener list while it runs. *)
Inductive Listener : Type :=
| mkListener (lid : nat) (during : list Mutation) (outcome : Handler)
with Mutation : Type :=
| Adds (l : Listener)
| Removes (id : nat).

Definition lid (l : Listener) : nat :=
  match l with mkListener i _ _ => i end.
Definition during (l : Listener) : list Mutation :=
  match l with mkListener _ ms _ => ms end.
Definition outcome (l : Listener) : Handler :=
  match l with mkListener _ _ h => h end.

(** ** The manager and its stores *)

Record State : Type := mkState {
  objs : list MoneroRpcConnection;        (* object store *)
  arrs : list (list ref);                 (* array store *)
  _connections : aref;                    (* this._connections *)
  _currentConnection : option ref;        (* this._currentConnection *)
  _listeners : list Listener;             (* this._listeners *)
  _autoSwitch : bool;                     (* this._autoSwitch, falsy at first *)
  _timeoutInMs : Z;                       (* this._timeoutInMs *)
  notified : list (option ref);           (* arguments of the _onConnectionChanged calls so far *)
  handled : list (nat * option ref)       (* listener handlers invoked so far, with their argument *)
}.

Definition DEFAULT_TIMEOUT : Z := 5000.
Definition DEFAULT_CHECK_CONNECTION_PERIOD : Z := 10000.

(** [new MoneroConnectionManager()] in an empty world. *)
Definition constructor : State :=
  mkState [] [[]] 0%nat None [] false DEFAULT_TIMEOUT [] [].

Definition set_objs (h : list MoneroRpcConnection) (st : State) : State :=
  mkState h (arrs st) (_connections st) (_currentConnection st) (_listeners st)
          (_autoSwitch st) (_timeoutInMs st) (notified st) (handled st).
Definition set_arrs (a : list (list ref)) (st : State) : State :=
  mkState (objs st) a (_connections st) (_currentConnection st) (_listeners st)
          (_autoSwitch st) (_timeoutInMs st) (notified st) (handled st).
Definition set_currentConnection (c : option ref) (st : State) : State :=
  mkState (objs st) (arrs st) (_connections st) c (_listeners st)
          (_autoSwitch st) (_timeoutInMs st) (notified st) (handled st).
Definition set_listeners (ls : list Listener) (st : State) : State :=
  mkState (objs st) (arrs st) (_connections st) (_currentConnection st) ls
          (_autoSwitch st) (_timeoutInMs st) (notified st) (handled st).
Definition set_notified (n : list (option ref)) (st : State) : State :=
  mkState (objs st) (arrs st) (_connections st) (_currentConnection st) (_listeners st)
          (_autoSwitch st) (_timeoutInMs st) n (handled st).
Definition set_handled (n : list (nat * option ref)) (st : State) : State :=
  mkState (objs st) (arrs st) (_connections st) (_currentConnection st) (_listeners st)
          (_autoSwitch st) (_timeoutInMs st) (notified st) n.

(** Dereferencing. *)
Definition obj (st : State) (r : ref) : MoneroRpcConnection := objs st !!! r.
Definition arr (st : State) (a : aref) : list ref := arrs st !!! a.
(** The elements of [this._connections]. *)
Definition connections (st : State) : list ref := arr st (_connections st).

(** Object creation: the new object gets a reference no other object has. *)
Definition alloc (c : MoneroRpcConnection) (st : State) : State * ref :=
  (set_objs (objs st ++ [c]) st, length (objs st)).
Definition alloc_array (l : list ref) (st : State) : State * aref :=
  (set_arrs (arrs st ++ [l]) st, length (arrs st)).
(** In-place writes. *)
Definition write_obj (r : ref) (c : MoneroRpcConnection) (st : State) : State :=
  set_objs (<[r := c]> (objs st)) st.
Definition write_array (a : aref) (l : list ref) (st : State) : State :=
  set_arrs (<[a := l]> (arrs st)) st.

(** Equality of optional references, [===] on object-or-undefined. *)
Definition same_ref (a b : option ref) : bool := bool_decide (a = b).

(** ** Method bodies: state and exceptions

    A method is a function from the state to a completion and the state it
    leaves behind; a thrown exception keeps the writes made before it. *)

Definition M (A : Type) : Type := State -> Result A * State.

#[global] Instance M_ret : MRet M := fun A a st => (Return a, st).
#[global] Instance M_bind : MBind M := fun A B k m st =>
  match m st with
  | (Return a, st') => k a st'
  | (Throw e, st') => (Throw e, st')
  end.

Definition throw {A} (e : Exn) : M A := fun st => (Throw e, st).
Definition gets {A} (f : State -> A) : M A := fun st => (Return (f st), st).
Definition modify (f : State -> State) : M unit := fun st => (Return tt, f st).
(** [await p] *)
Definition await {A} (p : Settled A) : M A :=
  match p with
  | Fulfilled _ v => mret v
  | Rejected _ e => throw e
  end.

(** ** Registry operations *)

(** getConnectionByUri: the first connection of [this._connections] whose
    URI is [uri], or undefined. *)
Definition getConnectionByUri (uri : string) (st : State) : option ref :=
  List.find (fun r => String.eqb (getUri (obj st r)) uri) (connections st).

(** addConnection *)
Definition addConnection (connection : ref) : M unit :=
  fun st =>
  if existsb (fun a => String.eqb (getUri (obj st a)) (getUri (obj st connection)))
             (connections st)
  then throw (MoneroError "Connection URI already exists") st
  else modify (write_array (_connections st) (connections st ++ [connection])) st.

(** removeConnection.  The third statement of the method reads the
    identifier [connections], which is bound neither in the method (its
    names are [uri] and [connection]) nor in the module (GenUtils,
    MoneroError, MoneroRpcConnection, TaskLooper, ThreadPool,
    MoneroConnectionManager): evaluating it throws a ReferenceError, so the
    statements after it are never reached. *)
Definition removeConnection (uri : string) : M unit :=
  connection ← gets (getConnectionByUri uri);
  match connection with
  | None => throw (MoneroError (String.append "No connection exists with URI: " uri))
  | Some _ => throw (ReferenceError "connections is not defined")
  end.

(** getConnection *)
Definition getConnection (st : State) : option ref := _currentConnection st.

(** isConnected (truthiness of the returned value). *)
Definition isConnected (st : State) : bool :=
  match _currentConnection st with
  | Some r => usable (obj st r)
  | None => false
  end.

(** setAutoSwitch, setTimeout, getTimeout *)
Definition setAutoSwitch (autoSwitch : bool) : M unit :=
  modify (fun st => mkState (objs st) (arrs st) (_connections st) (_currentConnection st)
                            (_listeners st) autoSwitch (_timeoutInMs st) (notified st) (handled st)).
Definition setTimeout (timeoutInMs : Z) : M unit :=
  modify (fun st => mkState (objs st) (arrs st) (_connections st) (_currentConnection st)
                            (_listeners st) (_autoSwitch st) timeoutInMs (notified st) (handled st)).
Definition getTimeout (st : State) : Z := _timeoutInMs st.

(** ** Listeners and change notification *)

(** Modelled from the spec: [GenUtils.remove(arr, val)] (GenUtils.js is not
    part of the sources) takes [val] out of [arr] in place and tells whether
    it was there. *)
Definition GenUtils_remove (id : nat) (ls : list Listener) : list Listener :=
  filter (fun l => lid l <> id) ls.

(** addListener *)
Definition addListener (listener : Listener) : M unit :=
  modify (fun st => set_listeners (_listeners st ++ [listener]) st).

(** removeListener *)
Definition removeListener (listener : Listener) : M unit :=
  fun st =>
  if existsb (fun l => Nat.eqb (lid l) (lid listener)) (_listeners st)
  then modify (set_listeners (GenUtils_remove (lid listener) (_listeners st))) st
  else throw (MoneroError "Monero connection manager does not contain listener to remove") st.

(** The changes a running handler makes to [this._listeners]. *)
Fixpoint mutate (ms : list Mutation) (ls : list Listener) : list Listener :=
  match ms with
  | [] => ls
  | Adds l :: ms' => mutate ms' (ls ++ [l])
  | Removes id :: ms' => mutate ms' (GenUtils_remove id ls)
  end.

(** [Promise.all]: fulfilled once every promise is, rejected as soon as one
    rejects, with that promise's reason (the earlier one in the list when
    two reject at the same time). *)
Fixpoint Promise_all {A} (ps : list (Settled A)) : Settled (list A) :=
  match ps with
  | [] => Fulfilled 0%nat []
  | p :: ps' =>
    match p, Promise_all ps' with
    | Fulfilled t v, Fulfilled t' vs => Fulfilled (Nat.max t t') (v :: vs)
    | Fulfilled _ _, Rejected t' e' => Rejected t' e'
    | Rejected t e, Fulfilled _ _ => Rejected t e
    | Rejected t e, Rejected t' e' =>
      if Nat.leb t t' then Rejected t e else Rejected t' e'
    end
  end.

(** [Promise.any]: fulfilled as soon as one promise is, with that promise's
    value; rejected with an AggregateError once every promise has rejected
    (at once for an empty list). *)
Fixpoint Promise_any {A} (ps : list (Settled A)) : Settled A :=
  match ps with
  | [] => Rejected 0%nat AggregateError
  | p :: ps' =>
    match p, Promise_any ps' with
    | Fulfilled t v, Fulfilled t' v' =>
      if Nat.leb t t' then Fulfilled t v else Fulfilled t' v'
    | Fulfilled t v, Rejected _ _ => Fulfilled t v
    | Rejected _ _, Fulfilled t' v' => Fulfilled t' v'
    | Rejected t _, Rejected t' _ => Rejected (Nat.max t t') AggregateError
    end
  end.

(** The [for (let listener of this._listeners)] loop of
    _onConnectionChanged.  The array iterator reads the array afresh at
    every step: index [i] is looked up in the list as the handlers called
    so far have left it.  A handler that throws ends the loop, and the
    async method's promise rejects with what it threw; otherwise the
    method returns [Promise.all(promises)]. *)
Fixpoint dispatch (fuel i : nat) (ls : list Listener)
         (called : list nat) (promises : list (Settled unit))
  : option (list Listener * list nat * Settled (list unit)) :=
  match fuel with
  | O => None
  | S fuel' =>
    match ls !! i with
    | None => Some (ls, called, Promise_all promises)
    | Some l =>
      match outcome l with
      | Throws e => Some (mutate (during l) ls, called ++ [lid l], Rejected 0%nat e)
      | Returns p =>
        dispatch fuel' (S i) (mutate (during l) ls) (called ++ [lid l]) (promises ++ [p])
      end
    end
  end.

(** A bound on the steps of the loop: the listeners still to be visited,
    each counted with the listeners its handler adds. *)
Fixpoint lsize (l : Listener) : nat :=
  match l with
  | mkListener _ ms _ =>
    S ((fix added (ms : list Mutation) : nat :=
          match ms with
          | [] => 0%nat
          | Adds l' :: ms' => (lsize l' + added ms')%nat
          | Removes _ :: ms' => added ms'
          end) ms)
  end.

Definition pending (i : nat) (ls : list Listener) : nat :=
  sum_list_with lsize (drop i ls).

(** The listeners a handler adds, and their total size. *)
Fixpoint additions (ms : list Mutation) : list Listener :=
  match ms with
  | [] => []
  | Adds l :: ms' => l :: additions ms'
  | Removes _ :: ms' => additions ms'
  end.

Definition added_size (ms : list Mutation) : nat := sum_list_with lsize (additions ms).

(** A handler that returns a promise and takes no listener away; the same
    holds of the listeners it adds. *)
Fixpoint quiet (l : Listener) : bool :=
  match l with
  | mkListener _ ms h =>
    match h with Returns _ => true | Throws _ => false end
    && (fix all_quiet (ms : list Mutation) : bool :=
          match ms with
          | [] => true
          | Adds l' :: ms' => quiet l' && all_quiet ms'
          | Removes _ :: _ => false
          end) ms
  end.

(** The promise a handler returns, when it returns one. *)
Definition promise_of (l : Listener) : option (Settled unit) :=
  match outcome l with
  | Returns p => Some p
  | Throws _ => None
  end.

(** _onConnectionChanged: returns the promise of the notification.  The
    loop is run with as many steps as it can need ([dispatch_fuel] below),
    so the last branch is never taken. *)
Definition _onConnectionChanged (connection : option ref) : M (Settled (list unit)) :=
  fun st =>
  match dispatch (S (pending 0 (_listeners st))) 0 (_listeners st) [] [] with
  | Some (ls, called, p) =>
    (Return p,
     set_listeners ls
       (set_handled (handled st ++ ((fun i => (i, connection)) <$> called))
          (set_notified (notified st ++ [connection]) st)))
  | None => (Return (Fulfilled 0%nat []), set_notified (notified st ++ [connection]) st)
  end.

(** ** Ranking for presentation *)

(** [Array.prototype.sort(compareFn)]: a stable sort; [x] goes before [y]
    when [compareFn(x, y) <= 0] and [x] came first. *)
Fixpoint sort_insert {A} (compareFn : A -> A -> Z) (x : A) (l : list A) : list A :=
  match l with
  | [] => [x]
  | y :: l' => if compareFn x y <=? 0 then x :: l else y :: sort_insert compareFn x l'
  end.

Definition Array_sort {A} (compareFn : A -> A -> Z) (l : list A) : list A :=
  foldr (sort_insert compareFn) [] l.

(** [===] on the results of isOnline(). *)
Definition same_status (a b : option bool) : bool := bool_decide (a = b).
(** Truthiness of the result of isOnline(). *)
Definition truthy (a : option bool) : bool :=
  match a with Some true => true | _ => false end.

Section Ranking.
(** [String.prototype.localeCompare], which belongs to the host. *)
Variable localeCompare : string -> string -> Z.

(** _compareConnections *)
Definition _compareConnections (st : State) (c1 c2 : ref) : Z :=
  if same_ref (Some c1) (_currentConnection st) then -1
  else if same_ref (Some c2) (_currentConnection st) then 1
  else
    let o1 := obj st c1 in
    let o2 := obj st c2 in
    if same_status (isOnline o1) (isOnline o2) then
      if getPriority o1 =? getPriority o2
      then localeCompare (getUri o1) (getUri o2)
      else if getPriority o1 =? 0 then 1
           else if getPriority o2 =? 0 then -1
                else getPriority o1 - getPriority o2
    else if truthy (isOnline o1) then -1
         else if truthy (isOnline o2) then 1
              else if same_status (isOnline o1) None then -1
                   else 1.

(** Modelled from the spec: [GenUtils.copyArray(arr)] (GenUtils.js is not
    part of the sources) makes a new array with the elements of [arr]. *)
Definition GenUtils_copyArray (a : aref) : M aref :=
  fun st => let '(st', a') := alloc_array (arr st a) st in (Return a', st').

(** getConnections: the copy is sorted in place and returned. *)
Definition getConnections : M aref :=
  this_connections ← gets _connections;
  sortedConnections ← GenUtils_copyArray this_connections;
  modify (fun st => write_array sortedConnections
                      (Array_sort (_compareConnections st) (arr st sortedConnections)) st);;
  mret sortedConnections.
End Ranking.

(** ** Priority tiers *)

(** The [Map] from priority to the connections having it, as the list of
    its entries in insertion order.  [map_push k v m] is
    [if (!m.has(k)) m.set(k, []); m.get(k).push(v)]. *)
Fixpoint map_push (k : Z) (v : ref) (m : list (Z * list ref)) : list (Z * list ref) :=
  match m with
  | [] => [(k, [v])]
  | (k', vs) :: m' =>
    if k' =? k then (k', vs ++ [v]) :: m' else (k', vs) :: map_push k v m'
  end.

Definition map_has (k : Z) (m : list (Z * list ref)) : bool :=
  existsb (fun e => fst e =? k) m.

Definition connectionPriorities (st : State) : list (Z * list ref) :=
  fold_left (fun m c => map_push (getPriority (obj st c)) c m) (connections st) [].

(** What iterating over one element of the list returned by
    _getConnectionsInAscendingPriority yields: a connection, or (for the
    element made by [splice]) an array of connections. *)
Inductive Elem : Type :=
| Conn (r : ref)
| Nested (tier : list ref).

(** [parseInt(x)] on an integer.  The number is first written out: in
    full when it is below 1e21 in absolute value, and in exponent form
    from there on, of which parseInt reads the digits before the point or
    the exponent, that is the sign and the leading digit. *)
Fixpoint leading_digit_fuel (fuel : nat) (n : Z) : Z :=
  match fuel with
  | O => n
  | S fuel' => if n <? 10 then n else leading_digit_fuel fuel' (n / 10)
  end.

Definition leading_digit (n : Z) : Z :=
  leading_digit_fuel (Z.to_nat (Z.log2 n)) n.

Definition parseInt (x : Z) : Z :=
  if Z.abs x <? 10 ^ 21 then x else Z.sgn x * leading_digit (Z.abs x).

(** _getConnectionsInAscendingPriority.  Priorities are integers.
    [splice(0, 1)] takes the first element out of the list and returns
    the array of what it took out; that array is what [push] appends. *)
Definition _getConnectionsInAscendingPriority (st : State) : list (list Elem) :=
  let connectionPriorities := connectionPriorities st in
  let ascendingPriorities :=
    Array_sort (fun a b => parseInt (fst a) - parseInt (fst b)) connectionPriorities in
  let ascendingPrioritiesList := snd <$> ascendingPriorities in
  if map_has 0 connectionPriorities
  then (map Conn <$> drop 1 ascendingPrioritiesList)
         ++ [Nested <$> take 1 ascendingPrioritiesList]
  else map Conn <$> ascendingPrioritiesList.

(** ** Health checks *)

(** One round trip to an endpoint, as the network decides it: the check
    completes after [t], leaving the two status fields as given and
    returning [ret]; or it fails (time-out, transport error). *)
Inductive RoundTrip : Type :=
| Reply (t : nat) (online authenticated : option bool) (ret : bool)
| Failure (t : nat) (e : Exn).

(** The network: what a check of a connection with a given time-out gives. *)
Definition Network : Type := Z -> ref -> RoundTrip.

(** Modelled from the spec: [MoneroRpcConnection.checkConnection(timeout)]
    (MoneroRpcConnection.js is not part of the sources) performs one round
    trip, updates the status fields as a side effect and returns a boolean;
    the round trip and the boolean are taken from the network. *)
Definition connection_checkConnection (net : Network) (timeoutInMs : Z) (r : ref)
  : M (Settled bool) :=
  fun st =>
  match net timeoutInMs r with
  | Reply t o a ret => (Return (Fulfilled t ret), write_obj r (set_status o a (obj st r)) st)
  | Failure t e => (Return (Rejected t e), st)
  end.

(** Modelled from the spec: the boolean a check returns, as the check
    cycle uses it (when the health check of the current endpoint changes
    its health state, a change notification is fired; line 206 fires it
    when the check returns true): whether the check changed the status
    fields of the connection [c] it was run on. *)
Definition returns_changed (c : MoneroRpcConnection) (rt : RoundTrip) : Prop :=
  match rt with
  | Reply _ o a ret => ret = true <-> (o, a) <> (isOnline c, isAuthenticated c)
  | Failure _ _ => True
  end.

(** A round trip after which the endpoint is not usable. *)
Definition unhealthy (rt : RoundTrip) : Prop :=
  match rt with
  | Reply _ o a _ => healthy o a = false
  | Failure _ _ => True
  end.

(** ** Failover prober *)

(** Modelled from the spec: [GenUtils.arrayContains(arr, obj)] (GenUtils.js
    is not part of the sources): whether the connection is one of the
    excluded ones.  An excluded entry is a connection or undefined; an
    array is none of them. *)
Definition GenUtils_arrayContains (excluded : list (option ref)) (e : Elem) : bool :=
  match e with
  | Conn r => existsb (same_ref (Some r)) excluded
  | Nested _ => false
  end.

(** The promise made for one element of a tier.  For a connection it
    resolves with the connection when, after the check, it is online and
    not unauthenticated, and rejects otherwise; an array has no
    [checkConnection] method, calling it throws a TypeError inside the
    promise executor, which rejects the promise. *)
Definition probe (net : Network) (e : Elem) : M (Settled ref) :=
  match e with
  | Conn connection =>
    timeoutInMs ← gets _timeoutInMs;
    checked ← connection_checkConnection net timeoutInMs connection;
    match checked with
    | Fulfilled t _ =>
      c ← gets (fun st => obj st connection);
      if usable c then mret (Fulfilled t connection) else mret (Rejected t NoReason)
    | Rejected t err => mret (Rejected t err)
    end
  | Nested _ => mret (Rejected 0%nat (TypeError "connection.checkConnection is not a function"))
  end.

(** Modelled from the spec: [pool.submit(task)] (ThreadPool.js is not part
    of the sources).  A pool as large as the tier runs every task given to
    it at once and returns a promise for the task.  The pool passes a
    failure of the task on by the reason of the failure; a task that
    rejects without a reason ([reject()], the reason being undefined)
    leaves nothing to pass on, and the promise of [submit] is fulfilled
    with undefined ([None]).  This is the value that line 140 tests for
    with [if (firstAvailable)]. *)
Definition ThreadPool_submit {A} (task : Settled A) : Settled (option A) :=
  match task with
  | Fulfilled t v => Fulfilled t (Some v)
  | Rejected t NoReason => Fulfilled t None
  | Rejected t err => Rejected t err
  end.

(** The inner loop: one promise per connection that is not excluded.
    The status that a check writes is recorded here when the check is
    started; the program writes it when the round trip is over, which for
    a check slower than the first answer of its tier is after the tier
    has been left. *)
Fixpoint probe_tier (net : Network) (excludedConnections : option (list (option ref)))
         (prioritizedConnections : list Elem) : M (list (Settled (option ref))) :=
  match prioritizedConnections with
  | [] => mret []
  | connection :: rest =>
    if match excludedConnections with
       | Some ex => GenUtils_arrayContains ex connection
       | None => false
       end
    then probe_tier net excludedConnections rest
    else
      p ← probe net connection;
      ps ← probe_tier net excludedConnections rest;
      mret (ThreadPool_submit p :: ps)
  end.

Definition exn_message (e : Exn) : string :=
  match e with
  | MoneroError m | ReferenceError m | TypeError m | TransportError m => m
  | AggregateError => "All promises were rejected"
  | NoReason => "undefined"
  end.

(** The outer loop with its try/catch.  The first promise of the tier to
    be fulfilled decides: when it carries a connection, that connection is
    returned; when it carries undefined, the next tier is tried. *)
Fixpoint probe_tiers (net : Network) (excludedConnections : option (list (option ref)))
         (tiers : list (list Elem)) : M (option ref) :=
  match tiers with
  | [] => mret None
  | prioritizedConnections :: rest =>
    checkPromises ← probe_tier net excludedConnections prioritizedConnections;
    match Promise_any checkPromises with
    | Fulfilled _ firstAvailable =>
      match firstAvailable with
      | Some connection => mret (Some connection)
      | None => probe_tiers net excludedConnections rest
      end
    | Rejected _ err =>
      match err with
      | AggregateError => probe_tiers net excludedConnections rest
      | _ => throw (MoneroError (exn_message err))
      end
    end
  end.

(** getBestAvailableConnection *)
Definition getBestAvailableConnection (net : Network)
           (excludedConnections : option (list (option ref))) : M (option ref) :=
  tiers ← gets _getConnectionsInAscendingPriority;
  probe_tiers net excludedConnections tiers.

(** ** Selecting the current connection *)

(** The values setConnection can be given: a string, a connection, or
    undefined; [AFalsy] is a falsy value that is neither undefined nor a
    string (null, false, 0, NaN), and [AOther] is a truthy value that is
    neither a string nor a connection, which fails the
    [instanceof MoneroRpcConnection] test. *)
Inductive Arg : Type :=
| AString (uri : string)
| AConnection (r : ref)
| AUndefined
| AFalsy
| AOther.

(** [!==] on the results of getUsername() and getPassword(). *)
Definition differs (a b : option string) : bool := negb (bool_decide (a = b)).

(** setConnection, from the line [let connection = uriOrConnection] on,
    for a connection object.  The promise returned by _onConnectionChanged
    is dropped. *)
Definition setConnection_object (connection : ref) : M unit :=
  current ← gets _currentConnection;
  if same_ref current (Some connection) then mret tt
  else
    uri ← gets (fun st => getUri (obj st connection));
    prevConnection ← gets (getConnectionByUri uri);
    match prevConnection with
    | None =>
      addConnection connection;;
      modify (set_currentConnection (Some connection));;
      now_current ← gets _currentConnection;
      _onConnectionChanged now_current;;
      mret tt
    | Some prevConnection =>
      c ← gets (fun st => obj st connection);
      prev ← gets (fun st => obj st prevConnection);
      if negb (same_ref (Some prevConnection) current)
         || differs (getUsername prev) (getUsername c)
         || differs (getPassword c) (getPassword c)
      then
        modify (fun st => write_obj prevConnection
                            (setCredentials (getUsername c) (getPassword c)
                                            (obj st prevConnection)) st);;
        modify (set_currentConnection (Some prevConnection));;
        now_current ← gets _currentConnection;
        _onConnectionChanged now_current;;
        mret tt
      else mret tt
    end.

(** setConnection, from the line [let connection = uriOrConnection] on,
    for a falsy value that is neither undefined nor a string: null,
    false, 0 or NaN.  The current connection is a connection or
    undefined, so that [this._currentConnection === connection] is false
    and the branch [if (!connection)] is taken. *)
Definition setConnection_falsy : M unit :=
  modify (set_currentConnection None);;
  _onConnectionChanged None;;
  mret tt.

(** setConnection *)
Definition setConnection (uriOrConnection : Arg) : M unit :=
  match uriOrConnection with
  | AString uri =>
    connection ← gets (getConnectionByUri uri);
    match connection with
    | None =>
      fresh ← (fun st => let '(st', r) := alloc (new_MoneroRpcConnection uri) st in
                         (Return r, st'));
      setConnection_object fresh
    | Some connection => setConnection_object connection
    end
  | AConnection connection => setConnection_object connection
  | AUndefined =>
    current ← gets _currentConnection;
    if same_ref current None then mret tt
    else
      modify (set_currentConnection None);;
      _onConnectionChanged None;;
      mret tt
  | AFalsy => setConnection_falsy
  | AOther =>
    throw (MoneroError "Must provide string or MoneroRpcConnection to set connection")
  end.

(** disconnect *)
Definition disconnect : M unit := setConnection AUndefined.

(** ** The check cycle *)

(** [!connection || !connection.isOnline() || connection.isAuthenticated() === false] *)
Definition disconnected (connection : option ref) (st : State) : bool :=
  match connection with
  | None => true
  | Some r =>
    negb (truthy (isOnline (obj st r)))
    || same_status (isAuthenticated (obj st r)) (Some false)
  end.

(** The first statement of checkConnection: the current connection, if
    there is one, is checked, and the listeners are notified (and awaited)
    when the check returns true. *)
Definition check_current (net : Network) (connection : option ref) : M unit :=
  match connection with
  | Some r =>
    timeoutInMs ← gets _timeoutInMs;
    checked ← connection_checkConnection net timeoutInMs r;
    ret ← await checked;
    if ret : bool then
      notification ← _onConnectionChanged connection;
      await notification;;
      mret tt
    else mret tt
  | None => mret tt
  end.

(** The second statement of checkConnection. *)
Definition auto_switch (net : Network) (connection : option ref) : M unit :=
  autoSwitch ← gets _autoSwitch;
  is_disconnected ← gets (disconnected connection);
  if autoSwitch && is_disconnected then
    bestConnection ← getBestAvailableConnection net (Some [connection]);
    match bestConnection with
    | Some best => setConnection (AConnection best)
    | None => mret tt
    end
  else mret tt.

(** checkConnection *)
Definition checkConnection (net : Network) : M unit :=
  connection ← gets getConnection;
  check_current net connection;;
  auto_switch net connection.

(** The tasks of checkConnectionPromises, one per connection.  Inside the
    task [this] is not the manager, so the comparison with
    [this._currentConnection] never selects the connection and no
    notification comes from here; whatever the task throws is swallowed
    by its try/catch. *)
Fixpoint check_each (net : Network) (cs : list ref) : M unit :=
  match cs with
  | [] => mret tt
  | connection :: rest =>
    timeoutInMs ← gets _timeoutInMs;
    connection_checkConnection net timeoutInMs connection;;
    check_each net rest
  end.

(** checkConnections *)
Definition checkConnections (localeCompare : string -> string -> Z) (net : Network)
  : M unit :=
  sorted ← getConnections localeCompare;
  cs ← gets (fun st => arr st sorted);
  check_each net cs.

(** ** The periodic checker *)

(** Modelled from the spec: a [TaskLooper] (TaskLooper.js is not part of
    the sources) calls its task again and again, from [start(periodInMs)]
    until [stop()].  Of a looper two things are recorded: the variable
    [firstCheck] that the manager's task closes over, and the period
    given to [start]. *)
Record TaskLooper : Type := mkTaskLooper {
  firstCheck : bool;
  periodInMs : Z
}.

(** A manager together with its field [this._checkLooper]. *)
Record Checker : Type := mkChecker {
  manager : State;
  _checkLooper : option TaskLooper
}.

(** [if (!periodMs) periodMs = DEFAULT_CHECK_CONNECTION_PERIOD], where
    [None] is a missing argument and 0 is the number that is falsy. *)
Definition period_or_default (periodMs : option Z) : Z :=
  match periodMs with
  | Some p => if p =? 0 then DEFAULT_CHECK_CONNECTION_PERIOD else p
  | None => DEFAULT_CHECK_CONNECTION_PERIOD
  end.

(** startCheckingConnection *)
Definition startCheckingConnection (net : Network) (periodMs : option Z)
  : Checker -> Result unit * Checker :=
  fun m =>
  match checkConnection net (manager m) with
  | (Throw e, st) => (Throw e, mkChecker st (_checkLooper m))
  | (Return _, st) =>
    let periodMs := period_or_default periodMs in
    match _checkLooper m with
    | Some _ => (Return tt, mkChecker st (_checkLooper m))
    | None => (Return tt, mkChecker st (Some (mkTaskLooper true periodMs)))
    end
  end.

(** The task given to the looper, called once: the first call only
    clears [firstCheck]; a later call runs a check cycle and catches what
    it throws. *)
Definition check_task (net : Network) (l : TaskLooper) (st : State)
  : Result unit * (TaskLooper * State) :=
  if firstCheck l then (Return tt, (mkTaskLooper false (periodInMs l), st))
  else (Return tt, (l, snd (checkConnection net st))).

(** Modelled from the spec: one firing of the looper calls the task; a
    manager without a looper fires nothing. *)
Definition fire (net : Network) (m : Checker) : Checker :=
  match _checkLooper m with
  | Some l =>
    let '(l', st) := snd (check_task net l (manager m)) in mkChecker st (Some l')
  | None => m
  end.

(** Successive firings, each with the network as it is then. *)
Fixpoint fires (nets : list Network) (m : Checker) : Checker :=
  match nets with
  | [] => m
  | net :: rest => fires rest (fire net m)
  end.

(** stopCheckingConnection *)
Definition stopCheckingConnection (m : Checker) : Checker :=
  mkChecker (manager m) None.

(** Successive check cycles. *)
Definition check_cycles (nets : list Network) (st : State) : State :=
  fold_left (fun st net => snd (checkConnection net st)) nets st.

(** ** The operations of a manager, as one step function *)

Inductive Op : Type :=
| New (c : MoneroRpcConnection)          (* the caller makes a connection object *)
| AddListener (l : Listener)
| RemoveListener (l : Listener)
| AddConnection (r : ref)
| RemoveConnection (uri : string)
| GetConnections
| GetBestAvailableConnection (net : Network) (excluded : option (list (option ref)))
| SetConnection (a : Arg)
| CheckConnection (net : Network)
| CheckConnections (net : Network)
| SetAutoSwitch (b : bool)
| SetTimeout (t : Z)
| Disconnect.

Definition forget {A} (m : M A) : M unit := m;; mret tt.

Definition exec (localeCompare : string -> string -> Z) (op : Op) : M unit :=
  match op with
  | New c => fun st => (Return tt, fst (alloc c st))
  | AddListener l => addListener l
  | RemoveListener l => removeListener l
  | AddConnection r => addConnection r
  | RemoveConnection uri => removeConnection uri
  | GetConnections => forget (getConnections localeCompare)
  | GetBestAvailableConnection net ex => forget (getBestAvailableConnection net ex)
  | SetConnection a => setConnection a
  | CheckConnection net => checkConnection net
  | CheckConnections net => checkConnections localeCompare net
  | SetAutoSwitch b => setAutoSwitch b
  | SetTimeout t => setTimeout t
  | Disconnect => disconnect
  end.

(** The references an operation is given denote existing objects. *)
Definition arg_ok (st : State) (a : Arg) : Prop :=
  match a with
  | AConnection r => (r < length (objs st))%nat
  | _ => True
  end.

Definition op_ok (st : State) (op : Op) : Prop :=
  match op with
  | AddConnection r => (r < length (objs st))%nat
  | SetConnection a => arg_ok st a
  | _ => True
  end.

(** A sequence of operations, each run in the state the previous ones
    leave (also when one of them throws). *)
Fixpoint run (localeCompare : string -> string -> Z) (ops : list Op) (st : State)
  : State :=
  match ops with
  | [] => st
  | op :: ops' => run localeCompare ops' (snd (exec localeCompare op st))
  end.

Fixpoint ops_ok (localeCompare : string -> string -> Z) (ops : list Op) (st : State)
  : Prop :=
  match ops with
  | [] => True
  | op :: ops' => op_ok st op /\ ops_ok localeCompare ops' (snd (exec localeCompare op st))
  end.

(** ** Well-formed states and the registry invariants *)

(** Every reference the manager holds denotes an existing object, and
    [this._connections] an existing array. *)
Record wf (st : State) : Prop := mk_wf {
  wf_array : (_connections st < length (arrs st))%nat;
  wf_connections : Forall (fun r => (r < length (objs st))%nat) (connections st);
  wf_current : forall r, _currentConnection st = Some r -> (r < length (objs st))%nat
}.

(** The URIs of the registered connections, in registry order. *)
Definition uris (st : State) : list string :=
  (fun r => getUri (obj st r)) <$> connections st.

(** No two registered connections share a URI. *)
Definition unique_uris (st : State) : Prop := NoDup (uris st).

(** Whether a connection with this URI is registered. *)
Definition registered (uri : string) (st : State) : Prop := uri ∈ uris st.

(** ** Vocabulary of the statements *)

(** The state a notification leaves behind. *)
Definition after_notify (c : option ref) (st : State) : State :=
  snd (_onConnectionChanged c st).



(** The connection at this URI is already the current one. *)
Definition already_current (uri : string) (st : State) : Prop :=
  exists c, getConnectionByUri uri st = Some c /\ _currentConnection st = Some c.




(** What a comparator says about two elements: [x] may go before [y]. *)
Definition goes_before {A} (compareFn : A -> A -> Z) (x y : A) : Prop :=
  compareFn x y <= 0.

(** The order of getConnections, key by key: the current connection
    first; then online, unknown, offline; then priority 0 last; then the
    smaller priority number first; then the URI as the host compares it. *)
Definition current_rank (st : State) (c : ref) : Z :=
  if same_ref (Some c) (_currentConnection st) then 0 else 1.

Definition status_rank (o : option bool) : Z :=
  match o with
  | Some true => 0
  | None => 1
  | Some false => 2
  end.

Definition zero_last (p : Z) : Z := if p =? 0 then 1 else 0.

Definition ranked_before (localeCompare : string -> string -> Z) (st : State)
           (c1 c2 : ref) : Prop :=
  let o1 := obj st c1 in
  let o2 := obj st c2 in
  current_rank st c1 < current_rank st c2
  \/ (current_rank st c1 = current_rank st c2
      /\ (status_rank (isOnline o1) < status_rank (isOnline o2)
          \/ (status_rank (isOnline o1) = status_rank (isOnline o2)
              /\ (zero_last (getPriority o1) < zero_last (getPriority o2)
                  \/ (zero_last (getPriority o1) = zero_last (getPriority o2)
                      /\ (getPriority o1 < getPriority o2
                          \/ (getPriority o1 = getPriority o2
                              /\ localeCompare (getUri o1) (getUri o2) <= 0))))))).

(** Two states that differ at most in the status fields of connections. *)
Record status_only (st st' : State) : Prop := mk_status_only {
  so_arrs : arrs st' = arrs st;
  so_connections : _connections st' = _connections st;
  so_current : _currentConnection st' = _currentConnection st;
  so_listeners : _listeners st' = _listeners st;
  so_autoSwitch : _autoSwitch st' = _autoSwitch st;
  so_timeout : _timeoutInMs st' = _timeoutInMs st;
  so_notified : notified st' = notified st;
  so_handled : handled st' = handled st;
  so_length : length (objs st') = length (objs st);
  so_uri : forall r, getUri (obj st' r) = getUri (obj st r);
  so_username : forall r, getUsername (obj st' r) = getUsername (obj st r);
  so_password : forall r, getPassword (obj st' r) = getPassword (obj st r);
  so_priority : forall r, getPriority (obj st' r) = getPriority (obj st r)
}.

(** A method that never throws. *)
Definition returns {A} (m : M A) : Prop :=
  forall st, exists a, fst (m st) = Return a.

(** A method whose writes are related to the state before by [R]. *)
Definition writes {A} (R : State -> State -> Prop) (m : M A) : Prop :=
  forall st, R st (snd (m st)).

Definition is_rejected {A} (p : Settled A) : Prop :=
  match p with Rejected _ _ => True | Fulfilled _ _ => False end.

(** A promise of the pool that brings no connection: it is rejected, or
    fulfilled with undefined. *)
Definition no_winner {A} (p : Settled (option A)) : Prop :=
  match p with Fulfilled _ (Some _) => False | _ => True end.

(** The registry invariants together. *)
Definition Inv (st : State) : Prop := wf st /\ unique_uris st.


(** A handler that returns a promise and leaves the listener list alone. *)
Definition plain (l : Listener) : Prop :=
  during l = [] /\ exists p, outcome l = Returns p.

(** The entries of the priority map are well formed: the keys are
    distinct and not negative, and a connection filed under a key has that
    priority. *)
Definition tiers_ok (st : State) (m : list (Z * list ref)) : Prop :=
  NoDup (fst <$> m)
  /\ forall e, e ∈ m -> 0 <= e.1 /\ forall r, r ∈ e.2 -> getPriority (obj st r) = e.1.

(** ** Concrete managers used in the examples below *)

(** A manager whose registry holds the first [n] objects of the store. *)
Definition manager_of (store : list MoneroRpcConnection) (n : nat)
           (current : option ref) (ls : list Listener) : State :=
  mkState store [seq 0 n] 0%nat current ls false DEFAULT_TIMEOUT [] [].

(** A host that compares strings code unit by code unit. *)
Definition code_unit_compare (a b : string) : Z :=
  match OrdersEx.String_as_OT.compare a b with
  | Lt => -1
  | Eq => 0
  | Gt => 1
  end.

(** One registered connection, which is also the current one. *)
Definition single_connection : State :=
  manager_of [mkConnection "http://a" None None 0 None None] 1 (Some 0%nat) [].

(** A: priority 1, Z: priority 0. *)
Definition registry_A1_Z0 : State :=
  manager_of [mkConnection "A" None None 1 None None;
              mkConnection "Z" None None 0 None None] 2 None [].

(** A network on which A (object 0) cannot be reached and everything else
    answers as online and authenticated. *)
Definition only_A_down : Network :=
  fun _ r =>
    match r with
    | O => Failure 7 (TransportError "connect ECONNREFUSED")
    | _ => Reply 3 (Some true) (Some true) true
    end.

(** A: priority 1, B: priority 2, C: priority 0, all online, none current. *)
Definition registry_A1_B2_C0 : State :=
  manager_of [mkConnection "A" None None 1 (Some true) None;
              mkConnection "B" None None 2 (Some true) None;
              mkConnection "C" None None 0 (Some true) None] 3 None [].

(** The registered and current connection (object 0) has password "old";
    object 1 is a connection value with the same URI and user name and
    the password "new". *)
Definition password_change : State :=
  manager_of [mkConnection "http://a" (Some "user") (Some "old") 0 None None;
              mkConnection "http://a" (Some "user") (Some "new") 0 None None]
             1 (Some 0%nat) [].

(** The current connection (object 0) is online and authenticated. *)
Definition healthy_current : State :=
  manager_of [mkConnection "http://a" None None 0 (Some true) (Some true)] 1 (Some 0%nat) [].

(** A network on which every endpoint answers as online and
    authenticated, the check returning true. *)
Definition all_up : Network := fun _ _ => Reply 3 (Some true) (Some true) true.

(** Listener 1 adds listener 3 while it runs; listener 2 does nothing else. *)
Definition adds_during_dispatch : State :=
  manager_of [] 0 None
    [mkListener 1 [Adds (mkListener 3 [] (Returns (Fulfilled 0 tt)))]
                (Returns (Fulfilled 0 tt));
     mkListener 2 [] (Returns (Fulfilled 0 tt))].

(** Listener 1 removes itself while it runs. *)
Definition removes_during_dispatch : State :=
  manager_of [] 0 None
    [mkListener 1 [Removes 1] (Returns (Fulfilled 0 tt));
     mkListener 2 [] (Returns (Fulfilled 0 tt))].

(** Listener 1 throws; listener 2 would succeed. *)
Definition first_throws : State :=
  manager_of [] 0 None
    [mkListener 1 [] (Throws (TypeError "handler failed"));
     mkListener 2 [] (Returns (Fulfilled 0 tt))].

(** Listeners 1 and 3 reject at times 4 and 2, listener 2 fulfils at 9. *)
Definition two_reject : State :=
  manager_of [] 0 None
    [mkListener 1 [] (Returns (Rejected 4 (MoneroError "first")));
     mkListener 2 [] (Returns (Fulfilled 9 tt));
     mkListener 3 [] (Returns (Rejected 2 (MoneroError "third")))].

(** F: offline, U: status unknown; same priority, none current. *)
Definition registry_offline_unknown : State :=
  manager_of [mkConnection "F" None None 1 (Some false) None;
              mkConnection "U" None None 1 None None] 2 None [].

(** A of priority 1, B and C of priority 2, D of priority 3, E of priority
    0; none is current and no status is known. *)
Definition registry_five : State :=
  manager_of [mkConnection "A" None None 1 None None;
              mkConnection "B" None None 2 None None;
              mkConnection "C" None None 2 None None;
              mkConnection "D" None None 3 None None;
              mkConnection "E" None None 0 None None] 5 None [].

(** A network on which A (object 0) cannot be reached, B (object 1)
    answers after 9, C (object 2) after 4 and every other endpoint after
    1, all of them as online and authenticated. *)
Definition mixed_network : Network :=
  fun _ r =>
    match r with
    | 0%nat => Failure 7 (TransportError "connect ECONNREFUSED")
    | 1%nat => Reply 9 (Some true) (Some true) true
    | 2%nat => Reply 4 (Some true) (Some true) true
    | _ => Reply 1 (Some true) (Some true) true
    end.

(** A is registered; B (object 1) exists but is not registered. *)
Definition registry_A_without_B : State :=
  manager_of [mkConnection "A" None None 1 None None;
              mkConnection "B" (Some "user") (Some "secret") 2 None None] 1 None [].

(** [registry_five] with A as the current connection and auto-switch on. *)
Definition failover_ready : State :=
  snd (setAutoSwitch true (set_currentConnection (Some 0%nat) registry_five)).

(** A network on which A (object 0) answers as offline and the others
    answer as on [mixed_network]. *)
Definition A_offline : Network :=
  fun t r =>
    match r with
    | 0%nat => Reply 7 (Some false) None false
    | _ => mixed_network t r
    end.

(** The current connection (object 0) is online and authenticated, and
    the only listener throws when it is called. *)
Definition healthy_current_failing_listener : State :=
  manager_of [mkConnection "http://a" None None 0 (Some true) (Some true)] 1 (Some 0%nat)
             [mkListener 1 [] (Throws (TypeError "handler failed"))].

(** A network on which every endpoint answers as online and
    authenticated, the check returning false. *)
Definition stays_up : Network := fun _ _ => Reply 3 (Some true) (Some true) false.


(** A: priority 2, B: priority 1e21. *)
Definition registry_A2_B1e21 : State :=
  manager_of [mkConnection "A" None None 2 None None;
              mkConnection "B" None None (10 ^ 21) None None] 2 None [].

(** A network on which B (object 1) answers after 2 as offline and the
    others answer as on [mixed_network]. *)
Definition B_offline_first : Network :=
  fun t r =>
    match r with
    | 1%nat => Reply 2 (Some false) None true
    | _ => mixed_network t r
    end.

(** ** The prober, as a function of the network's answers *)

(** What a check of [r] makes of the record of [r]. *)
Definition after_check (net : Network) (t : Z) (r : ref) (c : MoneroRpcConnection)
  : MoneroRpcConnection :=
  match net t r with
  | Reply _ o a _ => set_status o a c
  | Failure _ _ => c
  end.

(** How the promise made by the task for an element of a tier settles. *)
Definition elem_promise (net : Network) (t : Z) (e : Elem) : Settled ref :=
  match e with
  | Conn r =>
    match net t r with
    | Reply tm o a _ => if healthy o a then Fulfilled tm r else Rejected tm NoReason
    | Failure tm err => Rejected tm err
    end
  | Nested _ => Rejected 0%nat (TypeError "connection.checkConnection is not a function")
  end.

(** The state a probe of an element leaves behind. *)
Definition probe_state (net : Network) (e : Elem) (st : State) : State :=
  match e with
  | Conn r =>
    match net (_timeoutInMs st) r with
    | Reply _ o a _ => write_obj r (set_status o a (obj st r)) st
    | Failure _ _ => st
    end
  | Nested _ => st
  end.

(** The test [excludedConnections && GenUtils.arrayContains(...)]. *)
Definition skips (ex : option (list (option ref))) (e : Elem) : bool :=
  match ex with
  | Some l => GenUtils_arrayContains l e
  | None => false
  end.

(** The promises the pool gives for a tier, and the connections checked
    for them. *)
Fixpoint tier_promises (net : Network) (t : Z) (ex : option (list (option ref)))
         (tier : list Elem) : list (Settled (option ref)) :=
  match tier with
  | [] => []
  | e :: rest =>
    if skips ex e then tier_promises net t ex rest
    else ThreadPool_submit (elem_promise net t e) :: tier_promises net t ex rest
  end.

Fixpoint probed (ex : option (list (option ref))) (tier : list Elem) : list ref :=
  match tier with
  | [] => []
  | e :: rest =>
    if skips ex e then probed ex rest
    else match e with
         | Conn r => r :: probed ex rest
         | Nested _ => probed ex rest
         end
  end.

(** The connection the tiers yield, and the connections checked on the
    way: the tiers up to the first one whose first answer is a
    connection. *)
Fixpoint best_of (net : Network) (t : Z) (ex : option (list (option ref)))
         (tiers : list (list Elem)) : option ref :=
  match tiers with
  | [] => None
  | tier :: rest =>
    match Promise_any (tier_promises net t ex tier) with
    | Fulfilled _ (Some b) => Some b
    | _ => best_of net t ex rest
    end
  end.

Fixpoint checked_refs (net : Network) (t : Z) (ex : option (list (option ref)))
         (tiers : list (list Elem)) : list ref :=
  match tiers with
  | [] => []
  | tier :: rest =>
    probed ex tier
    ++ match Promise_any (tier_promises net t ex tier) with
       | Fulfilled _ (Some _) => []
       | _ => checked_refs net t ex rest
       end
  end.

(** A round trip after which the endpoint is usable, and its duration. *)
Definition healthy_reply (rt : RoundTrip) : Prop :=
  match rt with
  | Reply _ o a _ => healthy o a = true
  | Failure _ _ => False
  end.

Definition reply_time (rt : RoundTrip) : nat :=
  match rt with
  | Reply t _ _ _ => t
  | Failure t _ => t
  end.

(** A round trip that is answered as unusable: the check completes and
    leaves the endpoint offline or unauthenticated, or it fails without a
    reason.  The promise the pool gives for it is fulfilled with
    undefined. *)
Definition unusable_answer (rt : RoundTrip) : Prop :=
  match rt with
  | Reply _ o a _ => healthy o a = false
  | Failure _ e => e = NoReason
  end.

(** A round trip that is answered: the promise the pool gives for its
    check is fulfilled, with the connection or with undefined. *)
Definition answered (rt : RoundTrip) : Prop :=
  healthy_reply rt \/ unusable_answer rt.

(** The current connection, if there is one, is registered. *)
Definition current_registered (st : State) : Prop :=
  forall r, _currentConnection st = Some r -> r ∈ connections st.

(** The priorities of the registered connections, in registry order. *)
Definition priorities (st : State) : list Z :=
  (fun r => getPriority (obj st r)) <$> connections st.

(** The registered connections of one priority, in registry order. *)
Definition tier_of (st : State) (p : Z) : list ref :=
  filter (fun r => getPriority (obj st r) = p) (connections st).

(** A connection the prober may pick: registered, not excluded, and of a
    priority above 0. *)
Definition eligible (ex : option (list (option ref))) (st : State) (r : ref) : Prop :=
  r ∈ connections st /\ skips ex (Conn r) = false /\ 0 < getPriority (obj st r).

(** A candidate that loses its tier: a candidate of the same priority is
    answered as unusable no later than it answers.  The tier's first
    answer is then not this connection. *)
Definition beaten (net : Network) (t : Z) (ex : option (list (option ref)))
           (st : State) (r : ref) : Prop :=
  exists r' : ref,
    eligible ex st r'
    /\ getPriority (obj st r') = getPriority (obj st r)
    /\ unusable_answer (net t r')
    /\ (reply_time (net t r') <= reply_time (net t r))%nat.

(** Every registered priority is below 1e21 in absolute value: it is
    written out in full, and parseInt reads it back. *)
Definition written_in_full (st : State) : Prop :=
  forall r, r ∈ connections st -> Z.abs (getPriority (obj st r)) < 10 ^ 21.

(** No registered connection has a negative priority. *)
Definition nonnegative (st : State) : Prop :=
  forall r, r ∈ connections st -> 0 <= getPriority (obj st r).

(** Two states with the same registry and settings, whose records differ
    at most in the status fields; the current connection, the listeners
    and the notifications may differ. *)
Record same_registry (st st' : State) : Prop := mk_same_registry {
  sr_connections : connections st' = connections st;
  sr_autoSwitch : _autoSwitch st' = _autoSwitch st;
  sr_timeout : _timeoutInMs st' = _timeoutInMs st;
  sr_length : length (objs st') = length (objs st);
  sr_uri : forall r, getUri (obj st' r) = getUri (obj st r);
  sr_username : forall r, getUsername (obj st' r) = getUsername (obj st r);
  sr_password : forall r, getPassword (obj st' r) = getPassword (obj st r);
  sr_priority : forall r, getPriority (obj st' r) = getPriority (obj st r)
}.

(** From [st] to [st'] the registry is only extended at its end, no
    object disappears, and the objects of [st] keep their URI and their
    priority. *)
Record extends (st st' : State) : Prop := mk_extends {
  ext_connections : connections st `prefix_of` connections st';
  ext_length : (length (objs st) <= length (objs st'))%nat;
  ext_uri : forall r, (r < length (objs st))%nat -> getUri (obj st' r) = getUri (obj st r);
  ext_priority :
    forall r, (r < length (objs st))%nat -> getPriority (obj st' r) = getPriority (obj st r)
}.

(** * MoneroWalletRpc: the comparators and the transfer-type decoder

    The static helpers at the end of the class MoneroWalletRpc.  Heights
    and indices are integers. *)

(** What the comparators read of a transaction: [getHeight()], which is
    undefined ([None]) for an unconfirmed transaction, and the position
    of the transaction among the transactions of its block,
    [getBlock().getTxs().indexOf(tx)]. *)
Record MoneroTxWallet : Type := mkTxWallet {
  getHeight : option Z;
  indexInBlock : Z
}.

(** _compareTxsByHeight *)
Definition _compareTxsByHeight (tx1 tx2 : MoneroTxWallet) : Z :=
  match getHeight tx1, getHeight tx2 with
  | None, None => 0
  | None, Some _ => 1
  | Some _, None => -1
  | Some h1, Some h2 =>
    let diff := h1 - h2 in
    if negb (diff =? 0) then diff
    else indexInBlock tx1 - indexInBlock tx2
  end.

(** What the comparator reads of an incoming transfer. *)
Record MoneroIncomingTransfer : Type := mkIncomingTransfer {
  getAccountIndex : Z;
  getSubaddressIndex : Z
}.

(** _compareIncomingTransfers *)
Definition _compareIncomingTransfers (t1 t2 : MoneroIncomingTransfer) : Z :=
  if getAccountIndex t1 <? getAccountIndex t2 then -1
  else if getAccountIndex t1 =? getAccountIndex t2
       then getSubaddressIndex t1 - getSubaddressIndex t2
       else 1.

(** What the comparator reads of an output: its transaction, its account
    and subaddress indices and its index. *)
Record MoneroOutputWallet : Type := mkOutputWallet {
  getTx : MoneroTxWallet;
  output_getAccountIndex : Z;
  output_getSubaddressIndex : Z;
  getIndex : Z
}.

(** _compareVouts *)
Definition _compareVouts (o1 o2 : MoneroOutputWallet) : Z :=
  let heightComparison := _compareTxsByHeight (getTx o1) (getTx o2) in
  if negb (heightComparison =? 0) then heightComparison
  else if output_getAccountIndex o1 <? output_getAccountIndex o2 then -1
  else if output_getAccountIndex o1 =? output_getAccountIndex o2 then
    let compare := output_getSubaddressIndex o1 - output_getSubaddressIndex o2 in
    if negb (compare =? 0) then compare
    else getIndex o1 - getIndex o2
  else 1.

(** The six fields of a transaction that _decodeRpcType sets; [None] is a
    field that has not been set. *)
Record TxState : Type := mkTxState {
  isConfirmed : option bool;
  inTxPool : option bool;
  isRelayed : option bool;
  doNotRelay : option bool;
  isFailed : option bool;
  isMinerTx : option bool
}.

(** The six setter calls of one branch of _decodeRpcType. *)
Definition set_tx_state (confirmed pool relayed do_not_relay failed miner : bool)
           (tx : TxState) : TxState :=
  mkTxState (Some confirmed) (Some pool) (Some relayed) (Some do_not_relay)
            (Some failed) (Some miner).

(** _decodeRpcType: the transaction after the call, and whether the type
    is an outgoing one, or the error thrown. *)
Definition _decodeRpcType (rpcType : string) (tx : TxState) : Result bool * TxState :=
  if String.eqb rpcType "in" then
    (Return false, set_tx_state true false true false false false tx)
  else if String.eqb rpcType "out" then
    (Return true, set_tx_state true false true false false false tx)
  else if String.eqb rpcType "pool" then
    (Return false, set_tx_state false true true false false false tx)
  else if String.eqb rpcType "pending" then
    (Return true, set_tx_state false true true false false false tx)
  else if String.eqb rpcType "block" then
    (Return false, set_tx_state true false true false false true tx)
  else if String.eqb rpcType "failed" then
    (Return true, set_tx_state false false true false true false tx)
  else (Throw (MoneroError (String.append "Unrecognized transfer type: " rpcType)), tx).

(** The orders the comparators stand for. *)

(** A confirmed transaction goes before an unconfirmed one, a lower block
    before a higher one, and within a block the earlier transaction
    first. *)
Definition tx_lt (tx1 tx2 : MoneroTxWallet) : Prop :=
  match getHeight tx1, getHeight tx2 with
  | Some h1, Some h2 => h1 < h2 \/ (h1 = h2 /\ indexInBlock tx1 < indexInBlock tx2)
  | Some _, None => True
  | None, _ => False
  end.

Definition tx_same (tx1 tx2 : MoneroTxWallet) : Prop :=
  match getHeight tx1, getHeight tx2 with
  | Some h1, Some h2 => h1 = h2 /\ indexInBlock tx1 = indexInBlock tx2
  | None, None => True
  | _, _ => False
  end.

(** Ascending account index, then subaddress index. *)
Definition transfer_before (t1 t2 : MoneroIncomingTransfer) : Prop :=
  getAccountIndex t1 < getAccountIndex t2
  \/ (getAccountIndex t1 = getAccountIndex t2
      /\ getSubaddressIndex t1 <= getSubaddressIndex t2).

(** The position of the transaction, then account index, subaddress
    index and output index. *)
Definition vout_before (o1 o2 : MoneroOutputWallet) : Prop :=
  tx_lt (getTx o1) (getTx o2)
  \/ (tx_same (getTx o1) (getTx o2)
      /\ (output_getAccountIndex o1 < output_getAccountIndex o2
          \/ (output_getAccountIndex o1 = output_getAccountIndex o2
              /\ (output_getSubaddressIndex o1 < output_getSubaddressIndex o2
                  \/ (output_getSubaddressIndex o1 = output_getSubaddressIndex o2
                      /\ getIndex o1 <= getIndex o2))))).

(** The transfer types _decodeRpcType knows. *)
Definition transfer_types : list string := ["in"; "out"; "pool"; "pending"; "block"; "failed"].

(** * Properties *)

(** ** The monad *)

Lemma bind_Return {A B} (m : M A) (k : A -> M B) st a st' :
  m st = (Return a, st') -> (m ≫= k) st = k a st'.
Proof. intros H. unfold mbind, M_bind. by rewrite H. Qed.

Lemma bind_Throw {A B} (m : M A) (k : A -> M B) st e st' :
  m st = (Throw e, st') -> (m ≫= k) st = (Throw e, st').
Proof. intros H. unfold mbind, M_bind. by rewrite H. Qed.

Lemma bind_gets {A B} (f : State -> A) (k : A -> M B) st :
  (gets f ≫= k) st = k (f st) st.
Proof. reflexivity. Qed.

Lemma bind_modify {B} (f : State -> State) (k : unit -> M B) st :
  (modify f ≫= k) st = k tt (f st).
Proof. reflexivity. Qed.

(** ** Registry lookups *)

Lemma getConnectionByUri_None uri st :
  getConnectionByUri uri st = None <-> ~ registered uri st.
Proof.
  unfold getConnectionByUri, registered, uris.
  induction (connections st) as [|r l IH]; simpl.
  - split; [intros _ H; inversion H | done].
  - destruct (String.eqb_spec (getUri (obj st r)) uri) as [Heq|Hne].
    + split; [done | intros H; exfalso; apply H; rewrite Heq; left].
    + rewrite IH. split.
      * intros H Hin. apply elem_of_cons in Hin as [->|Hin]; [done | auto].
      * intros H Hin. apply H. by right.
Qed.

Lemma getConnectionByUri_Some uri st r :
  getConnectionByUri uri st = Some r ->
  r ∈ connections st /\ getUri (obj st r) = uri.
Proof.
  unfold getConnectionByUri. intros H.
  apply List.find_some in H as [Hin Heq].
  split; [by apply list_elem_of_In | by apply String.eqb_eq].
Qed.

Lemma addConnection_guard st r :
  existsb (fun a => String.eqb (getUri (obj st a)) (getUri (obj st r))) (connections st) = true
  <-> registered (getUri (obj st r)) st.
Proof.
  unfold registered, uris. rewrite existsb_exists, list_elem_of_fmap.
  split.
  - intros (a & Hin & Heq). exists a. apply String.eqb_eq in Heq.
    split; [done | by apply list_elem_of_In].
  - intros (a & Heq & Hin). exists a.
    split; [by apply list_elem_of_In | by apply String.eqb_eq].
Qed.

(** removeConnection on a registered URI: the ReferenceError is thrown
    before anything is written. *)
Lemma removeConnection_registered uri st :
  registered uri st ->
  removeConnection uri st = (Throw (ReferenceError "connections is not defined"), st).
Proof.
  intros H. unfold removeConnection. rewrite bind_gets.
  destruct (getConnectionByUri uri st) eqn:E; [done |].
  by apply getConnectionByUri_None in E.
Qed.

Lemma removeConnection_unregistered uri st :
  ~ registered uri st ->
  removeConnection uri st
  = (Throw (MoneroError (String.append "No connection exists with URI: " uri)), st).
Proof.
  intros H. unfold removeConnection. rewrite bind_gets.
  apply getConnectionByUri_None in H. by rewrite H.
Qed.

(** C1, on the code: removing the one registered (and current) connection
    of a manager by its URI throws a ReferenceError instead of succeeding;
    afterwards the connection is still registered and still current. *)
Theorem removeConnection_registered_throws_ReferenceError :
  registered "http://a" single_connection /\
  fst (removeConnection "http://a" single_connection)
    = Throw (ReferenceError "connections is not defined") /\
  registered "http://a" (snd (removeConnection "http://a" single_connection)) /\
  _currentConnection (snd (removeConnection "http://a" single_connection)) = Some 0%nat.
Proof.
  assert (H : registered "http://a" single_connection) by (vm_compute; left).
  rewrite (removeConnection_registered _ _ H). done.
Qed.

(** C2, on the code: with A (priority 1, unreachable) and Z (priority 0,
    reachable) the last tier is not Z's tier but an array holding that
    tier, the probe of its element fails, and getBestAvailableConnection
    with an empty exclusion list returns undefined, leaving Z unchecked. *)
Theorem getBestAvailableConnection_skips_priority_0 :
  _getConnectionsInAscendingPriority registry_A1_Z0 = [[Conn 0%nat]; [Nested [1%nat]]] /\
  fst (getBestAvailableConnection only_A_down (Some []) registry_A1_Z0) = Return None /\
  fst (getBestAvailableConnection only_A_down None registry_A1_Z0) = Return None /\
  isOnline (obj (snd (getBestAvailableConnection only_A_down None registry_A1_Z0)) 1%nat) = None.
Proof. repeat split; vm_compute; reflexivity. Qed.

(** C4, on the code: the current connection has user name "user" and
    password "old"; setConnection with a connection value of the same URI
    and user name and the password "new" leaves the password "old" and
    notifies nobody. *)
Theorem setConnection_same_username_keeps_old_password :
  let supplied := obj password_change 1%nat in
  let st' := snd (setConnection (AConnection 1%nat) password_change) in
  getConnectionByUri (getUri supplied) password_change = Some 0%nat /\
  getUsername supplied = getUsername (obj password_change 0%nat) /\
  getPassword supplied = Some "new" /\
  getPassword (obj st' 0%nat) = Some "old" /\
  notified st' = [].
Proof. repeat split; vm_compute; reflexivity. Qed.

(** ** The notification loop terminates *)

Lemma lsize_unfold l : lsize l = S (added_size (during l)).
Proof.
  destruct l as [i ms h]. simpl. f_equal. unfold added_size.
  induction ms as [|[l'|id] ms IH]; simpl; [done | by rewrite IH | done].
Qed.

Lemma pending_lookup i ls l :
  ls !! i = Some l -> pending i ls = (lsize l + pending (S i) ls)%nat.
Proof. intros H. unfold pending. by rewrite (drop_S _ _ _ H). Qed.

Lemma pending_ge i ls : (length ls <= i)%nat -> pending i ls = 0%nat.
Proof. intros H. unfold pending. by rewrite drop_ge. Qed.

Lemma pending_S i ls : (pending (S i) ls <= pending i ls)%nat.
Proof.
  destruct (ls !! i) as [l|] eqn:E.
  - rewrite (pending_lookup _ _ _ E). lia.
  - apply lookup_ge_None in E. rewrite !pending_ge; lia.
Qed.

Lemma pending_app i ls l : (pending i (ls ++ [l]) <= pending i ls + lsize l)%nat.
Proof.
  revert i. induction ls as [|x ls IH]; intros [|i]; unfold pending in *; simpl.
  - lia.
  - rewrite drop_nil. simpl. lia.
  - rewrite sum_list_with_app. simpl. lia.
  - apply IH.
Qed.

Lemma pending_remove i id ls : (pending i (GenUtils_remove id ls) <= pending i ls)%nat.
Proof.
  unfold GenUtils_remove. revert i. induction ls as [|x ls IH]; intros i; [done |].
  rewrite filter_cons. destruct (decide (lid x <> id)).
  - destruct i as [|i]; [| apply (IH i)].
    specialize (IH 0%nat). unfold pending in *. rewrite !drop_0 in *. simpl.
    by apply Nat.add_le_mono_l.
  - destruct i as [|i].
    + specialize (IH 0%nat). unfold pending in *. rewrite !drop_0 in *. simpl.
      etrans; [apply IH |]. apply Nat.le_add_l.
    + etrans; [apply pending_S |]. apply (IH i).
Qed.

Lemma pending_mutate ms i ls :
  (pending i (mutate ms ls) <= pending i ls + added_size ms)%nat.
Proof.
  revert ls. induction ms as [|[l|id] ms IH]; intros ls; simpl.
  - unfold added_size. simpl. lia.
  - etrans; [apply IH |]. pose proof (pending_app i ls l).
    unfold added_size in *. simpl. lia.
  - etrans; [apply IH |]. pose proof (pending_remove i id ls).
    unfold added_size in *. simpl. lia.
Qed.

Lemma pending_step i ls l :
  ls !! i = Some l -> (pending (S i) (mutate (during l) ls) < pending i ls)%nat.
Proof.
  intros H. rewrite (pending_lookup _ _ _ H), lsize_unfold.
  pose proof (pending_mutate (during l) (S i) ls). lia.
Qed.

(** With more fuel than there are pending steps the loop returns, and the
    result does not depend on the fuel. *)
Lemma dispatch_fuel fuel fuel' i ls called ps :
  (pending i ls < fuel)%nat -> (pending i ls < fuel')%nat ->
  dispatch fuel i ls called ps = dispatch fuel' i ls called ps
  /\ is_Some (dispatch fuel i ls called ps).
Proof.
  revert fuel' i ls called ps.
  induction fuel as [|fuel IH]; intros fuel' i ls called ps Hf Hf'; [lia |].
  destruct fuel' as [|fuel']; [lia |]. simpl.
  destruct (ls !! i) as [l|] eqn:E; [| by eauto].
  destruct (outcome l); [| by eauto].
  pose proof (pending_step _ _ _ E). apply IH; lia.
Qed.

(** The loop, unfolded once, for any sufficient amount of fuel. *)
Lemma dispatch_unfold fuel i ls called ps :
  (pending i ls < fuel)%nat ->
  dispatch fuel i ls called ps =
  match ls !! i with
  | None => Some (ls, called, Promise_all ps)
  | Some l =>
    match outcome l with
    | Throws e => Some (mutate (during l) ls, called ++ [lid l], Rejected 0%nat e)
    | Returns p =>
      dispatch fuel (S i) (mutate (during l) ls) (called ++ [lid l]) (ps ++ [p])
    end
  end.
Proof.
  intros Hf. destruct fuel as [|fuel]; [lia |].
  destruct (ls !! i) as [l|] eqn:E; [| by simpl; rewrite E].
  pose proof (pending_step _ _ _ E).
  destruct (outcome l) as [p|e] eqn:Eo.
  - transitivity (dispatch fuel (S i) (mutate (during l) ls) (called ++ [lid l]) (ps ++ [p])).
    + simpl. by rewrite E, Eo.
    + apply dispatch_fuel; lia.
  - simpl. by rewrite E, Eo.
Qed.

(** _onConnectionChanged returns the promise the loop produces; it writes
    the listener list and the two logs and nothing else. *)
Lemma onConnectionChanged_run c st :
  exists ls called p,
    dispatch (S (pending 0 (_listeners st))) 0 (_listeners st) [] [] = Some (ls, called, p)
    /\ _onConnectionChanged c st =
       (Return p,
        set_listeners ls
          (set_handled (handled st ++ ((fun i => (i, c)) <$> called))
             (set_notified (notified st ++ [c]) st))).
Proof.
  destruct (dispatch_fuel (S (pending 0 (_listeners st))) (S (pending 0 (_listeners st)))
              0 (_listeners st) [] []) as [_ [[[ls called] p] H]]; [lia | lia |].
  exists ls, called, p. split; [done |].
  unfold _onConnectionChanged. by rewrite H.
Qed.

Lemma onConnectionChanged_frame c st :
  let st' := snd (_onConnectionChanged c st) in
  is_Return (fst (_onConnectionChanged c st)) = true /\
  objs st' = objs st /\ arrs st' = arrs st /\ _connections st' = _connections st /\
  _currentConnection st' = _currentConnection st /\ _autoSwitch st' = _autoSwitch st /\
  _timeoutInMs st' = _timeoutInMs st /\ notified st' = notified st ++ [c].
Proof.
  destruct (onConnectionChanged_run c st) as (ls & called & p & _ & ->). done.
Qed.

(** ** setConnection *)

Lemma find_ext {A} (P Q : A -> bool) (l : list A) :
  (forall x, x ∈ l -> P x = Q x) -> List.find P l = List.find Q l.
Proof.
  induction l as [|x l IH]; intros H; simpl; [done |].
  rewrite (H x) by left. destruct (Q x); [done |].
  apply IH. intros y Hy. apply H. by right.
Qed.

Lemma find_snoc {A} (P : A -> bool) (l : list A) (x : A) :
  List.find P l = None -> P x = true -> List.find P (l ++ [x]) = Some x.
Proof.
  induction l as [|y l IH]; simpl; intros Hn Hx; [by rewrite Hx |].
  destruct (P y); [done | by apply IH].
Qed.

Lemma getConnectionByUri_ext uri st st' :
  objs st' = objs st -> arrs st' = arrs st -> _connections st' = _connections st ->
  getConnectionByUri uri st' = getConnectionByUri uri st.
Proof.
  intros Ho Ha Hc. unfold getConnectionByUri, connections, arr, obj.
  by rewrite Ho, Ha, Hc.
Qed.

Lemma after_notify_frame c st :
  objs (after_notify c st) = objs st /\ arrs (after_notify c st) = arrs st /\
  _connections (after_notify c st) = _connections st /\
  _currentConnection (after_notify c st) = _currentConnection st /\
  _autoSwitch (after_notify c st) = _autoSwitch st /\
  _timeoutInMs (after_notify c st) = _timeoutInMs st /\
  notified (after_notify c st) = notified st ++ [c].
Proof.
  unfold after_notify.
  destruct (onConnectionChanged_frame c st) as (_ & ? & ? & ? & ? & ? & ? & ?). done.
Qed.

Lemma bind_onConnectionChanged {B} c (k : Settled (list unit) -> M B) st :
  exists p, (_onConnectionChanged c ≫= k) st = k p (after_notify c st).
Proof.
  unfold after_notify.
  destruct (onConnectionChanged_run c st) as (ls & called & p & _ & E).
  exists p. unfold mbind, M_bind. by rewrite E.
Qed.

Lemma differs_same a : differs a a = false.
Proof. unfold differs. by rewrite bool_decide_eq_true_2. Qed.

(** What setConnection does for a connection object, case by case. *)
Lemma setConnection_object_run r st :
  setConnection_object r st =
  (Return tt,
   if same_ref (_currentConnection st) (Some r) then st
   else
     match getConnectionByUri (getUri (obj st r)) st with
     | None =>
       after_notify (Some r)
         (set_currentConnection (Some r)
            (write_array (_connections st) (connections st ++ [r]) st))
     | Some p =>
       if negb (same_ref (Some p) (_currentConnection st))
          || differs (getUsername (obj st p)) (getUsername (obj st r))
       then
         after_notify (Some p)
           (set_currentConnection (Some p)
              (write_obj p (setCredentials (getUsername (obj st r)) (getPassword (obj st r))
                                           (obj st p)) st))
       else st
     end).
Proof.
  unfold setConnection_object. rewrite bind_gets.
  destruct (same_ref (_currentConnection st) (Some r)); [done |].
  rewrite !bind_gets.
  destruct (getConnectionByUri (getUri (obj st r)) st) as [p|] eqn:E.
  - rewrite !bind_gets, differs_same, orb_false_r.
    destruct (negb (same_ref (Some p) (_currentConnection st))
              || differs (getUsername (obj st p)) (getUsername (obj st r))); [| done].
    rewrite !bind_modify, bind_gets.
    match goal with |- (_onConnectionChanged ?c ≫= ?k) ?s = _ =>
      destruct (bind_onConnectionChanged c k s) as [q ->] end.
    done.
  - assert (G : existsb (fun a => String.eqb (getUri (obj st a)) (getUri (obj st r)))
                        (connections st) = false).
    { apply not_true_is_false. rewrite addConnection_guard.
      by apply getConnectionByUri_None. }
    unfold addConnection at 1. unfold mbind at 1, M_bind at 1. rewrite G.
    unfold modify at 1. rewrite !bind_modify, bind_gets.
    match goal with |- (_onConnectionChanged ?c ≫= ?k) ?s = _ =>
      destruct (bind_onConnectionChanged c k s) as [q ->] end.
    done.
Qed.

(** ** The stores *)

Lemma obj_write_eq r c st : (r < length (objs st))%nat -> obj (write_obj r c st) r = c.
Proof. intros H. unfold obj, write_obj. simpl. by apply list_lookup_total_insert_eq. Qed.

Lemma obj_write_ne r r' c st : r <> r' -> obj (write_obj r c st) r' = obj st r'.
Proof. intros H. unfold obj, write_obj. simpl. by apply list_lookup_total_insert_ne. Qed.

Lemma set_objs_id st : set_objs (objs st) st = st.
Proof. by destruct st. Qed.

Lemma write_obj_id r st : write_obj r (obj st r) st = st.
Proof.
  unfold write_obj, obj.
  assert (E : <[r := objs st !!! r]> (objs st) = objs st).
  { destruct (decide (r < length (objs st))%nat) as [H|H].
    - apply list_insert_id. by apply list_lookup_lookup_total_lt.
    - apply list_insert_ge. lia. }
  rewrite E. apply set_objs_id.
Qed.

Lemma setCredentials_own c : setCredentials (getUsername c) (getPassword c) c = c.
Proof. by destruct c. Qed.

Lemma connections_write_array l st :
  (_connections st < length (arrs st))%nat ->
  connections (write_array (_connections st) l st) = l.
Proof.
  intros H. unfold connections, arr, write_array. simpl.
  by apply list_lookup_total_insert_eq.
Qed.

Lemma obj_alloc_old c r st :
  (r < length (objs st))%nat -> obj (fst (alloc c st)) r = obj st r.
Proof. intros H. unfold obj, alloc. simpl. by apply lookup_total_app_l. Qed.

Lemma obj_alloc_new c st : obj (fst (alloc c st)) (length (objs st)) = c.
Proof.
  unfold obj, alloc. simpl. rewrite lookup_total_app_r by lia.
  by rewrite Nat.sub_diag.
Qed.


Lemma obj_after_notify c st r : obj (after_notify c st) r = obj st r.
Proof. unfold obj. by rewrite (proj1 (after_notify_frame c st)). Qed.

Lemma connections_after_notify c st : connections (after_notify c st) = connections st.
Proof.
  destruct (after_notify_frame c st) as (_ & Ha & Hc & _).
  unfold connections, arr. by rewrite Ha, Hc.
Qed.

Lemma current_after_notify c st :
  _currentConnection (after_notify c st) = _currentConnection st.
Proof. by destruct (after_notify_frame c st) as (_ & _ & _ & ? & _). Qed.

Lemma notified_after_notify c st : notified (after_notify c st) = notified st ++ [c].
Proof. by destruct (after_notify_frame c st) as (_ & _ & _ & _ & _ & _ & ?). Qed.

Lemma obj_set_currentConnection c st r : obj (set_currentConnection c st) r = obj st r.
Proof. reflexivity. Qed.


Lemma same_ref_false a b : same_ref a b = false -> a <> b.
Proof. unfold same_ref. by intros H%bool_decide_eq_false. Qed.

Lemma same_ref_true a b : same_ref a b = true -> a = b.
Proof. unfold same_ref. by intros H%bool_decide_eq_true. Qed.

Lemma wf_valid st r : wf st -> r ∈ connections st -> (r < length (objs st))%nat.
Proof. intros [_ H _] Hin. by eapply Forall_forall in H. Qed.









Lemma wf_current_fresh st : wf st -> _currentConnection st <> Some (length (objs st)).
Proof. intros Hwf H. apply (wf_current _ Hwf) in H. lia. Qed.

Lemma getConnectionByUri_alloc uri c st :
  wf st -> getConnectionByUri uri (fst (alloc c st)) = getConnectionByUri uri st.
Proof.
  intros Hwf. unfold getConnectionByUri.
  change (connections (fst (alloc c st))) with (connections st).
  apply find_ext. intros r Hr. by rewrite obj_alloc_old by (by apply wf_valid).
Qed.

(** setConnection with the URI of no registered connection: a connection
    is made, registered, made current, and the listeners are notified. *)
Lemma setConnection_string_unregistered uri st :
  wf st -> getConnectionByUri uri st = None ->
  setConnection (AString uri) st =
  (Return tt,
   after_notify (Some (length (objs st)))
     (set_currentConnection (Some (length (objs st)))
        (write_array (_connections st) (connections st ++ [length (objs st)])
                     (fst (alloc (new_MoneroRpcConnection uri) st))))).
Proof.
  intros Hwf Hnone. unfold setConnection. rewrite bind_gets, Hnone.
  unfold mbind at 1, M_bind at 1. simpl.
  change (set_objs (objs st ++ [new_MoneroRpcConnection uri]) st)
    with (fst (alloc (new_MoneroRpcConnection uri) st)).
  rewrite setConnection_object_run.
  change (_currentConnection (fst (alloc (new_MoneroRpcConnection uri) st)))
    with (_currentConnection st).
  unfold same_ref at 1. rewrite bool_decide_eq_false_2 by (by apply wf_current_fresh).
  rewrite obj_alloc_new.
  change (getUri (new_MoneroRpcConnection uri)) with uri.
  rewrite getConnectionByUri_alloc, Hnone by done.
  done.
Qed.

(** setConnection with the URI of a registered connection: that
    connection is made current, unless it is already. *)
Lemma setConnection_string_registered uri c st :
  getConnectionByUri uri st = Some c ->
  setConnection (AString uri) st =
  (Return tt,
   if same_ref (_currentConnection st) (Some c) then st
   else after_notify (Some c) (set_currentConnection (Some c) st)).
Proof.
  intros Hsome. unfold setConnection. rewrite bind_gets, Hsome.
  rewrite setConnection_object_run.
  destruct (same_ref (_currentConnection st) (Some c)) eqn:Ecur; [done |].
  destruct (getConnectionByUri_Some _ _ _ Hsome) as [_ ->]. rewrite Hsome.
  assert (same_ref (Some c) (_currentConnection st) = false) as ->.
  { apply bool_decide_eq_false. apply same_ref_false in Ecur. congruence. }
  simpl. by rewrite setCredentials_own, write_obj_id.
Qed.

(** setConnection with a falsy value that is neither undefined nor a
    string: the current connection is cleared and the listeners are
    notified, whatever the current connection was. *)
Lemma setConnection_falsy_run st :
  setConnection_falsy st = (Return tt, after_notify None (set_currentConnection None st)).
Proof.
  unfold setConnection_falsy. rewrite bind_modify.
  match goal with |- context [(_onConnectionChanged ?c ≫= ?k) ?s] =>
    destruct (bind_onConnectionChanged c k s) as [q ->] end.
  done.
Qed.

#[local] Arguments setConnection : simpl never.
#[local] Arguments setConnection_object : simpl never.



(** ** Sorting *)

Section Sorting.
Context {A : Type} (compareFn : A -> A -> Z).
Hypothesis compareFn_total : forall x y, compareFn x y <= 0 \/ compareFn y x <= 0.

Lemma sort_insert_Permutation x l : sort_insert compareFn x l ≡ₚ x :: l.
Proof.
  induction l as [|y l IH]; simpl; [done |].
  destruct (compareFn x y <=? 0); [done |].
  rewrite IH. apply Permutation_swap.
Qed.

Lemma Array_sort_Permutation l : Array_sort compareFn l ≡ₚ l.
Proof.
  induction l as [|x l IH]; simpl; [done |].
  by rewrite sort_insert_Permutation, IH.
Qed.

Lemma sort_insert_Sorted x l : Sorted (goes_before compareFn) l -> Sorted (goes_before compareFn) (sort_insert compareFn x l).
Proof.
  induction l as [|y l IH]; simpl; intros Hs.
  - by repeat constructor.
  - destruct (Z.leb_spec (compareFn x y) 0) as [Hle|Hgt].
    + constructor; [done | by constructor].
    + apply Sorted_inv in Hs as [Hs Hhd]. constructor; [by apply IH |].
      assert (Hyx : goes_before compareFn y x).
      { unfold goes_before. destruct (compareFn_total x y); [lia | done]. }
      destruct l as [|z l]; simpl.
      * by constructor.
      * destruct (compareFn x z <=? 0); constructor; [done |].
        by apply HdRel_inv in Hhd.
Qed.

Lemma Sorted_weaken (R : A -> A -> Prop) l :
  (forall x y, goes_before compareFn x y -> R x y) -> Sorted (goes_before compareFn) l -> Sorted R l.
Proof.
  intros HR. induction 1 as [|x l Hs IH Hhd]; constructor; [done |].
  destruct Hhd; constructor; auto.
Qed.

Lemma Array_sort_Sorted l : Sorted (goes_before compareFn) (Array_sort compareFn l).
Proof.
  induction l as [|x l IH]; simpl; [constructor | by apply sort_insert_Sorted].
Qed.
End Sorting.

(** ** The order of getConnections *)

Section RankingProperties.
Variable localeCompare : string -> string -> Z.
Hypothesis localeCompare_total :
  forall a b, localeCompare a b <= 0 \/ localeCompare b a <= 0.
Hypothesis localeCompare_trans :
  forall a b c, localeCompare a b <= 0 -> localeCompare b c <= 0 -> localeCompare a c <= 0.

Lemma status_rank_inj o1 o2 : status_rank o1 = status_rank o2 -> o1 = o2.
Proof. destruct o1 as [[]|], o2 as [[]|]; simpl; intros; (done || lia). Qed.

(** The comparator is the order [ranked_before]. *)
Lemma compareConnections_ranked st c1 c2 :
  _compareConnections localeCompare st c1 c2 <= 0 <-> ranked_before localeCompare st c1 c2.
Proof.
  unfold _compareConnections, ranked_before, current_rank.
  destruct (same_ref (Some c1) (_currentConnection st)) eqn:E1.
  { destruct (same_ref (Some c2) (_currentConnection st)) eqn:E2.
    - apply same_ref_true in E1, E2. assert (c1 = c2) as -> by congruence.
      split; [intros _ | lia]. right. split; [done |]. right. split; [done |].
      right. split; [done |]. right. split; [done |].
      by destruct (localeCompare_total (getUri (obj st c2)) (getUri (obj st c2))).
    - split; [intros _; left; lia | lia]. }
  destruct (same_ref (Some c2) (_currentConnection st)) eqn:E2.
  { split; [lia | intros [H | [H _]]; lia]. }
  cbv zeta. unfold same_status, truthy, zero_last.
  destruct (isOnline (obj st c1)) as [[]|], (isOnline (obj st c2)) as [[]|]; simpl;
    try (split; [intros _; right; split; [done |]; left; lia
                | lia]);
    try (split; [lia | intros [H | [_ [H | [H _]]]]; lia]);
    destruct (Z.eqb_spec (getPriority (obj st c1)) (getPriority (obj st c2))) as [Hp|Hp];
    destruct (Z.eqb_spec (getPriority (obj st c1)) 0) as [H1|H1];
    destruct (Z.eqb_spec (getPriority (obj st c2)) 0) as [H2|H2];
    try lia; (split; [intros H | intros H]); try lia;
    intuition lia.
Qed.

Lemma compareConnections_total st c1 c2 :
  _compareConnections localeCompare st c1 c2 <= 0
  \/ _compareConnections localeCompare st c2 c1 <= 0.
Proof.
  rewrite !compareConnections_ranked. unfold ranked_before.
  destruct (localeCompare_total (getUri (obj st c1)) (getUri (obj st c2))); lia.
Qed.

Lemma ranked_before_trans st : Transitive (ranked_before localeCompare st).
Proof.
  intros c1 c2 c3. unfold ranked_before. cbv zeta.
  intros H12 H23.
  assert (L := localeCompare_trans (getUri (obj st c1)) (getUri (obj st c2))
                                   (getUri (obj st c3))).
  lia.
Qed.

(** getConnections returns a new array holding the registered connections
    sorted by the comparator. *)
Lemma getConnections_run st :
  getConnections localeCompare st =
  (Return (length (arrs st)),
   write_array (length (arrs st))
     (Array_sort (_compareConnections localeCompare st) (connections st))
     (fst (alloc_array (connections st) st))).
Proof.
  unfold getConnections, GenUtils_copyArray.
  rewrite bind_gets. unfold mbind at 1, M_bind at 1. simpl.
  unfold mbind, M_bind, modify. simpl. f_equal. f_equal. f_equal.
  unfold arr. simpl. rewrite lookup_total_app_r by lia. by rewrite Nat.sub_diag.
Qed.

Lemma getConnections_result st :
  arr (snd (getConnections localeCompare st)) (length (arrs st))
  = Array_sort (_compareConnections localeCompare st) (connections st).
Proof.
  rewrite getConnections_run. unfold arr, write_array. simpl.
  apply list_lookup_total_insert_eq. rewrite length_app. simpl. lia.
Qed.

(** C3, as amended: for A (priority 1), B (priority 2) and C (priority 0),
    all online and none current, getConnections returns [A, B, C].  In
    general it returns the registered connections ordered with the current
    connection first, then online before unknown before offline, then
    priority 0 last and otherwise the smaller priority number first, then
    by URI as localeCompare orders them. *)
Theorem getConnections_order st :
  (exists sorted,
      fst (getConnections localeCompare st) = Return sorted
      /\ arr (snd (getConnections localeCompare st)) sorted ≡ₚ connections st
      /\ StronglySorted (ranked_before localeCompare st)
                        (arr (snd (getConnections localeCompare st)) sorted))
  /\ arr (snd (getConnections localeCompare registry_A1_B2_C0)) 1%nat = [0; 1; 2]%nat.
Proof.
  split.
  - exists (length (arrs st)). split; [by rewrite getConnections_run |].
    rewrite getConnections_result. split.
    + apply Array_sort_Permutation.
    + apply Sorted_StronglySorted; [apply ranked_before_trans |].
      eapply Sorted_weaken; [| apply Array_sort_Sorted, compareConnections_total].
      intros c1 c2 H. by apply compareConnections_ranked.
  - change 1%nat with (length (arrs registry_A1_B2_C0)) at 1.
    rewrite (getConnections_result registry_A1_B2_C0). reflexivity.
Qed.
End RankingProperties.

(** ** A concrete host comparison *)

Lemma code_unit_compare_le a b :
  code_unit_compare a b <= 0 <-> a = b \/ String_as_OT.lt a b.
Proof.
  unfold code_unit_compare.
  destruct (String_as_OT.compare_spec a b) as [H|H|H].
  - split; [by left | lia].
  - split; [by right | lia].
  - split; [lia |]. intros [->|H'].
    + by apply (StrictOrder_Irreflexive b) in H.
    + exfalso. apply (StrictOrder_Irreflexive a). by transitivity b.
Qed.

Lemma code_unit_compare_total a b :
  code_unit_compare a b <= 0 \/ code_unit_compare b a <= 0.
Proof.
  rewrite !code_unit_compare_le.
  destruct (String_as_OT.compare_spec a b) as [H|H|H]; auto.
Qed.

Lemma code_unit_compare_trans a b c :
  code_unit_compare a b <= 0 -> code_unit_compare b c <= 0 -> code_unit_compare a c <= 0.
Proof.
  rewrite !code_unit_compare_le. intros [->|H1] [->|H2]; auto.
  right. by transitivity b.
Qed.

(** C3, as stated, fails: for A (priority 1), B (priority 2) and
    C (priority 0), all online and none current, getConnections returns
    [A, B, C] and not [B, A, C]; and an offline connection comes after one
    of unknown status, not before it. *)
Lemma getConnections_order_counterexample :
  arr (snd (getConnections code_unit_compare registry_A1_B2_C0)) 1%nat = [0; 1; 2]%nat
  /\ arr (snd (getConnections code_unit_compare registry_A1_B2_C0)) 1%nat <> [1; 0; 2]%nat
  /\ fst (getConnections code_unit_compare registry_A1_B2_C0) = Return 1%nat
  /\ isOnline (obj registry_offline_unknown 0%nat) = Some false
  /\ isOnline (obj registry_offline_unknown 1%nat) = None
  /\ arr (snd (getConnections code_unit_compare registry_offline_unknown)) 1%nat
     = [1; 0]%nat.
Proof. repeat split; try (vm_compute; reflexivity). vm_compute. discriminate. Qed.

(** C3, as amended, with a host that compares code unit by code unit. *)
Lemma getConnections_order_witness :
  (exists sorted,
      fst (getConnections code_unit_compare registry_offline_unknown) = Return sorted
      /\ arr (snd (getConnections code_unit_compare registry_offline_unknown)) sorted
         ≡ₚ connections registry_offline_unknown
      /\ StronglySorted (ranked_before code_unit_compare registry_offline_unknown)
           (arr (snd (getConnections code_unit_compare registry_offline_unknown)) sorted))
  /\ arr (snd (getConnections code_unit_compare registry_A1_B2_C0)) 1%nat = [0; 1; 2]%nat.
Proof.
  apply (getConnections_order code_unit_compare
           code_unit_compare_total code_unit_compare_trans registry_offline_unknown).
Defined.

(** ** Writes and completions of composed methods *)

Lemma returns_ret {A} (a : A) : returns (mret a).
Proof. intros st. by exists a. Qed.

Lemma returns_gets {A} (f : State -> A) : returns (gets f).
Proof. intros st. by exists (f st). Qed.

Lemma returns_modify f : returns (modify f).
Proof. intros st. by exists tt. Qed.

Lemma returns_bind {A B} (m : M A) (k : A -> M B) :
  returns m -> (forall a, returns (k a)) -> returns (m ≫= k).
Proof.
  intros Hm Hk st. destruct (Hm st) as [a Ha].
  destruct (m st) as [r st'] eqn:E. simpl in Ha. subst r.
  rewrite (bind_Return _ _ _ _ _ E). apply Hk.
Qed.

Lemma writes_ret {A} R `{!Reflexive R} (a : A) : writes R (mret a).
Proof. intros st. simpl. reflexivity. Qed.

Lemma writes_gets {A} R `{!Reflexive R} (f : State -> A) : writes R (gets f).
Proof. intros st. simpl. reflexivity. Qed.

Lemma writes_throw {A} R `{!Reflexive R} e : writes R (@throw A e).
Proof. intros st. simpl. reflexivity. Qed.

Lemma writes_bind {A B} R `{!Transitive R} (m : M A) (k : A -> M B) :
  writes R m -> (forall a, writes R (k a)) -> writes R (m ≫= k).
Proof.
  intros Hm Hk st. specialize (Hm st). unfold mbind, M_bind.
  destruct (m st) as [[a|e] st']; simpl in *; [| done].
  etrans; [apply Hm | apply Hk].
Qed.

#[local] Instance status_only_refl : Reflexive status_only.
Proof. intros st. by constructor. Qed.

#[local] Instance status_only_trans : Transitive status_only.
Proof.
  intros s1 s2 s3 [] []. constructor; intros; etrans; eauto.
Qed.

Lemma set_status_own c : set_status (isOnline c) (isAuthenticated c) c = c.
Proof. by destruct c. Qed.

(** A status write leaves every object as it was, up to its status. *)
Lemma obj_write_status r o a st r' :
  exists o' a', obj (write_obj r (set_status o a (obj st r)) st) r' = set_status o' a' (obj st r').
Proof.
  destruct (decide (r = r')) as [<-|Hne].
  - destruct (decide (r < length (objs st))%nat).
    + exists o, a. by rewrite obj_write_eq.
    + exists (isOnline (obj st r)), (isAuthenticated (obj st r)).
      unfold write_obj, obj. simpl. rewrite list_insert_ge by lia.
      by rewrite set_status_own.
  - exists (isOnline (obj st r')), (isAuthenticated (obj st r')).
    by rewrite obj_write_ne, set_status_own.
Qed.

Lemma status_only_write r o a st :
  status_only st (write_obj r (set_status o a (obj st r)) st).
Proof.
  constructor; try done.
  - unfold write_obj. simpl. apply length_insert.
  - intros r'. by destruct (obj_write_status r o a st r') as (o' & a' & ->).
  - intros r'. by destruct (obj_write_status r o a st r') as (o' & a' & ->).
  - intros r'. by destruct (obj_write_status r o a st r') as (o' & a' & ->).
  - intros r'. by destruct (obj_write_status r o a st r') as (o' & a' & ->).
Qed.

Lemma connection_checkConnection_writes net t r :
  writes status_only (connection_checkConnection net t r).
Proof.
  intros st. unfold connection_checkConnection.
  destruct (net t r); simpl; [apply status_only_write | reflexivity].
Qed.

Lemma connection_checkConnection_returns net t r :
  returns (connection_checkConnection net t r).
Proof.
  intros st. unfold connection_checkConnection. destruct (net t r); simpl; eauto.
Qed.

(** ** The failover prober *)

Lemma Promise_any_rejects {A} (ps : list (Settled A)) t e :
  Promise_any ps = Rejected t e -> e = AggregateError.
Proof.
  revert t e. induction ps as [|[t1 v1|t1 e1] ps IH]; intros t e; simpl.
  - by intros [= _ <-].
  - destruct (Promise_any ps) as [t2 v2|t2 e2]; [| done].
    by destruct (t1 <=? t2)%nat.
  - destruct (Promise_any ps) as [t2 v2|t2 e2]; [done |]. by intros [= _ <-].
Qed.

Lemma Promise_any_all_rejected {A} (ps : list (Settled A)) :
  Forall is_rejected ps -> exists t, Promise_any ps = Rejected t AggregateError.
Proof.
  induction 1 as [|[t1 v1|t1 e1] ps Hp _ [t2 IH]]; simpl.
  - by eexists.
  - done.
  - rewrite IH. by eexists.
Qed.

Lemma Promise_any_fulfilled {A} (ps : list (Settled A)) t v :
  Promise_any ps = Fulfilled t v -> Fulfilled t v ∈ ps.
Proof.
  induction ps as [|[t1 v1|t1 e1] ps IH]; simpl; [done | |].
  - destruct (Promise_any ps) as [t2 v2|t2 e2].
    + destruct (t1 <=? t2)%nat; intros [= <- <-]; [left | right; by apply IH].
    + intros [= <- <-]. left.
  - destruct (Promise_any ps) as [t2 v2|t2 e2]; [| done].
    intros [= <- <-]. right. by apply IH.
Qed.

Lemma probe_returns net e : returns (probe net e).
Proof.
  destruct e as [r|tier]; simpl; [| apply returns_ret].
  apply returns_bind; [apply returns_gets | intros t].
  apply returns_bind; [apply connection_checkConnection_returns | intros [t' b|t' err]].
  - apply returns_bind; [apply returns_gets | intros c].
    destruct (usable c); apply returns_ret.
  - apply returns_ret.
Qed.

Lemma probe_writes net e : writes status_only (probe net e).
Proof.
  destruct e as [r|tier]; simpl; [| apply writes_ret, _].
  apply writes_bind; [apply _ | apply writes_gets, _ | intros t].
  apply writes_bind; [apply _ | apply connection_checkConnection_writes | intros [t' b|t' err]].
  - apply writes_bind; [apply _ | apply writes_gets, _ | intros c].
    destruct (usable c); apply writes_ret, _.
  - apply writes_ret, _.
Qed.

Lemma probe_tier_returns net ex tier : returns (probe_tier net ex tier).
Proof.
  induction tier as [|e tier IH]; simpl; [apply returns_ret |].
  destruct (match ex with Some l => GenUtils_arrayContains l e | None => false end);
    [done |].
  apply returns_bind; [apply probe_returns | intros p].
  apply returns_bind; [done | intros ps]. apply returns_ret.
Qed.

Lemma probe_tier_writes net ex tier : writes status_only (probe_tier net ex tier).
Proof.
  induction tier as [|e tier IH]; simpl; [apply writes_ret, _ |].
  destruct (match ex with Some l => GenUtils_arrayContains l e | None => false end);
    [done |].
  apply writes_bind; [apply _ | apply probe_writes | intros p].
  apply writes_bind; [apply _ | done | intros ps]. apply writes_ret, _.
Qed.

Lemma probe_tiers_returns net ex tiers : returns (probe_tiers net ex tiers).
Proof.
  induction tiers as [|tier tiers IH]; simpl; [apply returns_ret |].
  apply returns_bind; [apply probe_tier_returns | intros ps].
  destruct (Promise_any ps) as [t [v|]|t e] eqn:E; [apply returns_ret | done |].
  by rewrite (Promise_any_rejects _ _ _ E).
Qed.

Lemma probe_tiers_writes net ex tiers : writes status_only (probe_tiers net ex tiers).
Proof.
  induction tiers as [|tier tiers IH]; simpl; [apply writes_ret, _ |].
  apply writes_bind; [apply _ | apply probe_tier_writes | intros ps].
  destruct (Promise_any ps) as [t [v|]|t e] eqn:E; [apply writes_ret, _ | done |].
  by rewrite (Promise_any_rejects _ _ _ E).
Qed.

Lemma getBestAvailableConnection_returns net ex :
  returns (getBestAvailableConnection net ex).
Proof.
  apply returns_bind; [apply returns_gets | intros tiers]. apply probe_tiers_returns.
Qed.

Lemma getBestAvailableConnection_writes net ex :
  writes status_only (getBestAvailableConnection net ex).
Proof.
  apply writes_bind; [apply _ | apply writes_gets, _ | intros tiers].
  apply probe_tiers_writes.
Qed.

(** Every tier is made of registered connections. *)
Lemma map_push_elems (X : list ref) k v m :
  (forall e r, e ∈ m -> r ∈ e.2 -> r ∈ X) -> v ∈ X ->
  forall e r, e ∈ map_push k v m -> r ∈ e.2 -> r ∈ X.
Proof.
  intros Hm Hv. induction m as [|[k' vs] m IH]; simpl; intros e r He Hr.
  - apply list_elem_of_singleton in He as ->. simpl in Hr.
    by apply list_elem_of_singleton in Hr as ->.
  - destruct (k' =? k).
    + apply elem_of_cons in He as [->|He].
      * simpl in Hr. apply elem_of_app in Hr as [Hr|Hr].
        -- apply (Hm (k', vs)); [left | done].
        -- by apply list_elem_of_singleton in Hr as ->.
      * apply (Hm e); [by right | done].
    + apply elem_of_cons in He as [->|He].
      * apply (Hm (k', vs)); [left | done].
      * refine (IH _ e r He Hr). intros e' r' He' Hr'. apply (Hm e'); [by right | done].
Qed.

Lemma connectionPriorities_elems st e r :
  e ∈ connectionPriorities st -> r ∈ e.2 -> r ∈ connections st.
Proof.
  unfold connectionPriorities.
  assert (G : forall l m,
             (forall x, x ∈ l -> x ∈ connections st) ->
             (forall e r, e ∈ m -> r ∈ e.2 -> r ∈ connections st) ->
             forall e r,
               e ∈ fold_left (fun m c => map_push (getPriority (obj st c)) c m) l m ->
               r ∈ e.2 -> r ∈ connections st).
  { induction l as [|x l IH]; intros m Hl Hm; simpl; [done |].
    refine (IH _ _ _).
    - intros y Hy. apply Hl. by right.
    - refine (map_push_elems _ _ _ _ Hm _). apply Hl. left. }
  refine (G _ _ _ _ e r); [done |]. intros e' r' He'. by apply elem_of_nil in He'.
Qed.

Lemma tiers_elems st tier r :
  tier ∈ _getConnectionsInAscendingPriority st -> Conn r ∈ tier -> r ∈ connections st.
Proof.
  unfold _getConnectionsInAscendingPriority.
  set (sorted := Array_sort _ (connectionPriorities st)).
  assert (Hs : forall vs, vs ∈ snd <$> sorted -> forall x, x ∈ vs -> x ∈ connections st).
  { intros vs Hvs x Hx. apply list_elem_of_fmap in Hvs as (e & -> & He).
    apply (connectionPriorities_elems st e); [| done].
    unfold sorted in He. by rewrite Array_sort_Permutation in He. }
  assert (Hc : forall tiers : list (list ref),
             (forall vs, vs ∈ tiers -> vs ∈ snd <$> sorted) ->
             tier ∈ map Conn <$> tiers -> Conn r ∈ tier -> r ∈ connections st).
  { intros tiers Hsub Ht Hr. apply list_elem_of_fmap in Ht as (vs & -> & Hvs).
    apply list_elem_of_In, in_map_iff in Hr as (x & [= ->] & Hx).
    apply (Hs vs); [by apply Hsub | by apply list_elem_of_In]. }
  destruct (map_has 0 (connectionPriorities st)).
  - intros Ht Hr. apply elem_of_app in Ht as [Ht|Ht].
    + apply (Hc (drop 1 (snd <$> sorted))); [| done | done].
      intros vs Hvs. by eapply subseteq_drop.
    + apply list_elem_of_singleton in Ht as ->.
      apply list_elem_of_fmap in Hr as (x & [=] & _).
  - apply Hc. done.
Qed.

Lemma usable_after_status_write r o a st :
  healthy o a = false ->
  usable (obj (write_obj r (set_status o a (obj st r)) st) r) = false.
Proof.
  intros H. destruct (decide (r < length (objs st))%nat).
  - by rewrite obj_write_eq.
  - unfold write_obj, obj. simpl. rewrite list_insert_ge by lia.
    rewrite list_lookup_total_alt, lookup_ge_None_2 by lia. done.
Qed.

Lemma probe_unhealthy net e st :
  (forall r, e = Conn r -> unhealthy (net (_timeoutInMs st) r)) ->
  exists p, fst (probe net e st) = Return p /\ is_rejected p.
Proof.
  destruct e as [r|tier]; intros H; [| by eexists].
  specialize (H r eq_refl). unfold probe.
  rewrite bind_gets. unfold mbind at 1, M_bind at 1, connection_checkConnection.
  destruct (net (_timeoutInMs st) r) as [t o a ret|t err]; simpl in *.
  - rewrite bind_gets, usable_after_status_write by done. by eexists.
  - by eexists.
Qed.

Lemma no_winner_submit {A} (p : Settled A) : is_rejected p -> no_winner (ThreadPool_submit p).
Proof. destruct p as [t v|t []]; done. Qed.

Lemma Promise_any_no_winner {A} (ps : list (Settled (option A))) :
  Forall no_winner ps -> no_winner (Promise_any ps).
Proof.
  induction 1 as [|p ps Hp _ IH]; simpl; [done |].
  destruct p as [t1 [v1|]|t1 e1], (Promise_any ps) as [t2 [v2|]|t2 e2]; try done.
  by destruct (t1 <=? t2)%nat.
Qed.

Lemma probe_tier_unhealthy net ex tier st :
  (forall r, Conn r ∈ tier -> unhealthy (net (_timeoutInMs st) r)) ->
  exists ps, fst (probe_tier net ex tier st) = Return ps /\ Forall no_winner ps.
Proof.
  revert st. induction tier as [|e tier IH]; intros st H; simpl.
  - by exists [].
  - destruct (match ex with Some l => GenUtils_arrayContains l e | None => false end).
    { apply IH. intros r Hr. apply H. by right. }
    destruct (probe_unhealthy net e st) as (p & Hp & Hrej).
    { intros r ->. apply H. left. }
    pose proof (probe_writes net e st) as Hw.
    destruct (probe net e st) as [r1 st1] eqn:E1. simpl in Hp, Hw. subst r1.
    rewrite (bind_Return _ _ _ _ _ E1).
    destruct (IH st1) as (ps & Hps & Hrejs).
    { intros r Hr. rewrite (so_timeout _ _ Hw). apply H. by right. }
    destruct (probe_tier net ex tier st1) as [r2 st2] eqn:E2. simpl in Hps. subst r2.
    rewrite (bind_Return _ _ _ _ _ E2). simpl.
    exists (ThreadPool_submit p :: ps). split; [done |].
    constructor; [by apply no_winner_submit | done].
Qed.

Lemma probe_tiers_unhealthy net ex tiers st :
  (forall tier r, tier ∈ tiers -> Conn r ∈ tier -> unhealthy (net (_timeoutInMs st) r)) ->
  fst (probe_tiers net ex tiers st) = Return None.
Proof.
  revert st. induction tiers as [|tier tiers IH]; intros st H; simpl; [done |].
  destruct (probe_tier_unhealthy net ex tier st) as (ps & Hps & Hrej).
  { intros r Hr. apply (H tier); [left | done]. }
  pose proof (probe_tier_writes net ex tier st) as Hw.
  destruct (probe_tier net ex tier st) as [r1 st1] eqn:E1. simpl in Hps, Hw. subst r1.
  rewrite (bind_Return _ _ _ _ _ E1).
  assert (Hnext : fst (probe_tiers net ex tiers st1) = Return None).
  { apply IH. intros tier' r Ht Hr. rewrite (so_timeout _ _ Hw).
    apply (H tier'); [by right | done]. }
  pose proof (Promise_any_no_winner ps Hrej) as Hno.
  destruct (Promise_any ps) as [t [v|]|t e] eqn:E; [done | done |].
  by rewrite (Promise_any_rejects _ _ _ E).
Qed.

(** C6: getBestAvailableConnection never throws, whatever the network
    does and whoever is excluded: a check that fails rejects its promise,
    a check after which the connection is offline or unauthenticated
    brings no connection, and the rejection of a whole tier is absorbed by
    the catch clause.  With no registered connection, and more generally
    when no registered connection is usable after its check, it returns
    undefined. *)
Theorem getBestAvailableConnection_never_throws net excluded st :
  (exists best, fst (getBestAvailableConnection net excluded st) = Return best)
  /\ (connections st = [] ->
      fst (getBestAvailableConnection net excluded st) = Return None)
  /\ ((forall r, r ∈ connections st -> unhealthy (net (_timeoutInMs st) r)) ->
      fst (getBestAvailableConnection net excluded st) = Return None).
Proof.
  assert (G : (forall r, r ∈ connections st -> unhealthy (net (_timeoutInMs st) r)) ->
              fst (getBestAvailableConnection net excluded st) = Return None).
  { intros H. unfold getBestAvailableConnection. rewrite bind_gets.
    apply probe_tiers_unhealthy. intros tier r Ht Hr.
    apply H. by eapply tiers_elems. }
  split; [apply getBestAvailableConnection_returns |]. split; [| done].
  intros Hnil. apply G. intros r Hr. rewrite Hnil in Hr. by apply elem_of_nil in Hr.
Qed.

(** ** The registry invariants *)

Lemma Inv_constructor : Inv constructor.
Proof.
  split; [split | ]; simpl.
  - lia.
  - by constructor.
  - done.
  - apply NoDup_nil_2.
Qed.

(** The invariants only depend on the registry array, the URIs of the
    registered connections and the current reference. *)
Lemma Inv_transfer st st' :
  Inv st ->
  (_connections st' < length (arrs st'))%nat ->
  connections st' = connections st ->
  (length (objs st) <= length (objs st'))%nat ->
  (forall r, r ∈ connections st -> getUri (obj st' r) = getUri (obj st r)) ->
  (forall r, _currentConnection st' = Some r -> (r < length (objs st'))%nat) ->
  Inv st'.
Proof.
  intros [Hwf Huniq] Harr Hconn Hlen Huri Hcur. split.
  - split; [done | | done]. rewrite Hconn.
    eapply Forall_impl; [apply (wf_connections _ Hwf) |]. simpl. intros r Hr. lia.
  - unfold unique_uris, uris in *. rewrite Hconn.
    erewrite list_fmap_ext; [apply Huniq |].
    intros i r Hr. apply Huri. by eapply list_elem_of_lookup_2.
Qed.

Lemma connections_status_only st st' : status_only st st' -> connections st' = connections st.
Proof. intros H. unfold connections, arr. by rewrite (so_arrs _ _ H), (so_connections _ _ H). Qed.

Lemma Inv_status_only st st' : status_only st st' -> Inv st -> Inv st'.
Proof.
  intros H HI. pose proof HI as [Hwf _]. apply (Inv_transfer st); [done | | | | |].
  - rewrite (so_arrs _ _ H), (so_connections _ _ H). apply (wf_array _ Hwf).
  - by apply connections_status_only.
  - by rewrite (so_length _ _ H).
  - intros r _. apply (so_uri _ _ H).
  - rewrite (so_current _ _ H), (so_length _ _ H). apply (wf_current _ Hwf).
Qed.

Lemma Inv_after_notify c st : Inv st -> Inv (after_notify c st).
Proof.
  intros HI. pose proof HI as [Hwf _].
  destruct (after_notify_frame c st) as (Ho & Ha & Hc & Hcur & _).
  apply (Inv_transfer st); [done | | | | |].
  - rewrite Ha, Hc. apply (wf_array _ Hwf).
  - apply connections_after_notify.
  - by rewrite Ho.
  - intros r _. by rewrite obj_after_notify.
  - rewrite Hcur, Ho. apply (wf_current _ Hwf).
Qed.

Lemma Inv_set_currentConnection c st :
  (forall r, c = Some r -> (r < length (objs st))%nat) ->
  Inv st -> Inv (set_currentConnection c st).
Proof.
  intros Hc HI. pose proof HI as [Hwf _].
  apply (Inv_transfer st); try done. apply (wf_array _ Hwf).
Qed.

Lemma Inv_alloc c st : Inv st -> Inv (fst (alloc c st)).
Proof.
  intros HI. pose proof HI as [Hwf _].
  apply (Inv_transfer st); try done.
  - apply (wf_array _ Hwf).
  - simpl. rewrite length_app. lia.
  - intros r Hr. by rewrite obj_alloc_old by (by apply wf_valid).
  - simpl. intros r Hr. apply (wf_current _ Hwf) in Hr. rewrite length_app. lia.
Qed.

Lemma Inv_write_credentials p u pw st :
  Inv st -> Inv (write_obj p (setCredentials u pw (obj st p)) st).
Proof.
  intros HI. pose proof HI as [Hwf _].
  apply (Inv_transfer st); try done.
  - apply (wf_array _ Hwf).
  - unfold write_obj. simpl. by rewrite length_insert.
  - intros r Hr. destruct (decide (p = r)) as [<-|Hne]; [| by rewrite obj_write_ne].
    by rewrite obj_write_eq by (by apply wf_valid).
  - unfold write_obj. simpl. rewrite length_insert. apply (wf_current _ Hwf).
Qed.

Lemma Inv_register (r : ref) st :
  Inv st -> (r < length (objs st))%nat -> ~ registered (getUri (obj st r)) st ->
  Inv (write_array (_connections st) (connections st ++ [r]) st).
Proof.
  intros [Hwf Huniq] Hr Hnew.
  assert (Hc : connections (write_array (_connections st) (connections st ++ [r]) st)
               = connections st ++ [r])
    by apply connections_write_array, (wf_array _ Hwf).
  split.
  - split.
    + unfold write_array. simpl. rewrite length_insert. apply (wf_array _ Hwf).
    + rewrite Hc. apply Forall_app. split; [apply (wf_connections _ Hwf) |].
      by repeat constructor.
    + apply (wf_current _ Hwf).
  - unfold unique_uris, uris. rewrite Hc, fmap_app. simpl.
    apply NoDup_app. split; [done |]. split; [| apply NoDup_singleton].
    intros u Hu Hu'. apply list_elem_of_singleton in Hu' as ->. by apply Hnew.
Qed.

Lemma Inv_getConnections localeCompare st :
  Inv st -> Inv (snd (getConnections localeCompare st)).
Proof.
  intros HI. pose proof HI as [Hwf _]. rewrite getConnections_run. simpl.
  apply (Inv_transfer st); try done.
  - simpl. rewrite length_insert, length_app. pose proof (wf_array _ Hwf). lia.
  - unfold connections, arr. simpl.
    rewrite list_lookup_total_insert_ne by (pose proof (wf_array _ Hwf); lia).
    apply lookup_total_app_l, (wf_array _ Hwf).
  - apply (wf_current _ Hwf).
Qed.

(** setConnection with a connection object keeps the invariants and
    registers the object only when its URI is new. *)
Lemma setConnection_object_Inv (r : ref) st :
  Inv st -> (r < length (objs st))%nat ->
  Inv (snd (setConnection_object r st))
  /\ (connections (snd (setConnection_object r st)) = connections st
      \/ (connections (snd (setConnection_object r st)) = connections st ++ [r]
          /\ ~ registered (getUri (obj st r)) st)).
Proof.
  intros HI Hr. pose proof HI as [Hwf _]. rewrite setConnection_object_run. simpl.
  destruct (same_ref (_currentConnection st) (Some r)); [split; [done | by left] |].
  destruct (getConnectionByUri (getUri (obj st r)) st) as [p|] eqn:E.
  - destruct (negb (same_ref (Some p) (_currentConnection st))
              || differs (getUsername (obj st p)) (getUsername (obj st r))); [| split; [done | by left]].
    apply getConnectionByUri_Some in E as [Hin _].
    split; [| left; by rewrite connections_after_notify].
    apply Inv_after_notify, Inv_set_currentConnection, Inv_write_credentials; [| done].
    intros ? [= <-]. unfold write_obj. simpl. rewrite length_insert. by apply wf_valid.
  - apply getConnectionByUri_None in E. split.
    + apply Inv_after_notify, Inv_set_currentConnection, Inv_register; try done.
      by intros ? [= <-].
    + right. split; [| done]. rewrite connections_after_notify.
      apply (connections_write_array _ st), (wf_array _ Hwf).
Qed.

Lemma setConnection_Inv a st :
  Inv st -> arg_ok st a ->
  Inv (snd (setConnection a st))
  /\ (connections (snd (setConnection a st)) = connections st
      \/ exists r, connections (snd (setConnection a st)) = connections st ++ [r]
                   /\ ~ registered (getUri (obj (snd (setConnection a st)) r)) st).
Proof.
  intros HI Hok. pose proof HI as [Hwf _].
  assert (Hfalsy : Inv (snd (setConnection_falsy st))
                   /\ (connections (snd (setConnection_falsy st)) = connections st
                       \/ exists r, connections (snd (setConnection_falsy st))
                                    = connections st ++ [r]
                                    /\ ~ registered
                                          (getUri (obj (snd (setConnection_falsy st)) r)) st)).
  { rewrite setConnection_falsy_run. cbn [snd].
    split; [| left; by rewrite connections_after_notify].
    by apply Inv_after_notify, Inv_set_currentConnection. }
  destruct a as [uri|r| | |].
  - destruct (getConnectionByUri uri st) as [c|] eqn:E.
    + rewrite (setConnection_string_registered _ _ _ E). simpl.
      destruct (same_ref (_currentConnection st) (Some c)); [split; [done | by left] |].
      apply getConnectionByUri_Some in E as [Hin _].
      split; [| left; by rewrite connections_after_notify].
      apply Inv_after_notify, Inv_set_currentConnection; [| done].
      intros ? [= <-]. by apply wf_valid.
    + rewrite (setConnection_string_unregistered _ _ Hwf E). cbn [snd].
      set (fresh := length (objs st)).
      set (st0 := fst (alloc (new_MoneroRpcConnection uri) st)).
      assert (I0 : Inv st0) by (by apply Inv_alloc).
      assert (Hf : (fresh < length (objs st0))%nat).
      { unfold st0, fresh. simpl. rewrite length_app. simpl. lia. }
      assert (Hu : getUri (obj st0 fresh) = uri).
      { unfold st0, fresh. by rewrite obj_alloc_new. }
      assert (Hn : ~ registered uri st0).
      { apply getConnectionByUri_None. unfold st0.
        by rewrite getConnectionByUri_alloc. }
      split.
      * apply Inv_after_notify, Inv_set_currentConnection; [by intros ? [= <-] |].
        apply (Inv_register fresh st0); [done | done | by rewrite Hu].
      * right. exists fresh. rewrite connections_after_notify, obj_after_notify.
        split.
        -- apply (connections_write_array _ st0), (wf_array _ (proj1 I0)).
        -- change (obj _ fresh) with (obj st0 fresh). rewrite Hu.
           by apply getConnectionByUri_None.
  - destruct (setConnection_object_Inv r st HI Hok) as [H1 H2].
    split; [done |]. destruct H2 as [H2|[H2 H3]]; [by left |].
    right. exists r. split; [done |].
    unfold setConnection. rewrite setConnection_object_run. simpl.
    destruct (same_ref (_currentConnection st) (Some r)); [done |].
    destruct (getConnectionByUri (getUri (obj st r)) st) as [p|] eqn:E.
    + by apply getConnectionByUri_None in H3; rewrite H3 in E.
    + by rewrite obj_after_notify.
  - unfold setConnection. rewrite bind_gets.
    destruct (same_ref (_currentConnection st) None); [split; [done | by left] |].
    rewrite bind_modify.
    match goal with |- context [(_onConnectionChanged ?c ≫= ?k) ?s] =>
      destruct (bind_onConnectionChanged c k s) as [q ->] end.
    simpl. split; [| left; by rewrite connections_after_notify].
    by apply Inv_after_notify, Inv_set_currentConnection.
  - exact Hfalsy.
  - simpl. split; [done | by left].
Qed.

(** ** The winner of the prober *)

Lemma probe_fulfilled net e st t b :
  fst (probe net e st) = Return (Fulfilled t b) -> e = Conn b.
Proof.
  destruct e as [r|tier]; [| done]. unfold probe.
  rewrite bind_gets. unfold mbind at 1, M_bind at 1, connection_checkConnection.
  destruct (net (_timeoutInMs st) r) as [t' o a ret|t' err]; simpl; [| done].
  rewrite bind_gets.
  destruct (usable _); simpl; [by intros [= _ <-] | done].
Qed.

Lemma not_excluded l b : GenUtils_arrayContains l (Conn b) = false -> Some b ∉ l.
Proof.
  simpl. intros H Hin. apply not_true_iff_false in H. apply H.
  apply existsb_exists. exists (Some b).
  split; [by apply list_elem_of_In | by apply bool_decide_eq_true].
Qed.

Lemma submit_winner {A} (p : Settled A) t b :
  ThreadPool_submit p = Fulfilled t (Some b) -> p = Fulfilled t b.
Proof. destruct p as [t' v|t' []]; simpl; congruence. Qed.

Lemma probe_tier_fulfilled net ex tier st ps t b :
  fst (probe_tier net ex tier st) = Return ps -> Fulfilled t (Some b) ∈ ps ->
  Conn b ∈ tier /\ (forall l, ex = Some l -> Some b ∉ l).
Proof.
  revert st ps. induction tier as [|e tier IH]; intros st ps; simpl.
  - intros [= <-] H. by apply elem_of_nil in H.
  - destruct (match ex with Some l => GenUtils_arrayContains l e | None => false end) eqn:Eex.
    { intros Hps Hin. destruct (IH _ _ Hps Hin) as [H1 H2]. split; [by right | done]. }
    destruct (probe_returns net e st) as [p Hp].
    destruct (probe net e st) as [r1 st1] eqn:E1. simpl in Hp. subst r1.
    rewrite (bind_Return _ _ _ _ _ E1).
    destruct (probe_tier_returns net ex tier st1) as [ps' Hps'].
    destruct (probe_tier net ex tier st1) as [r2 st2] eqn:E2. simpl in Hps'. subst r2.
    rewrite (bind_Return _ _ _ _ _ E2). simpl. intros [= <-] Hin.
    apply elem_of_cons in Hin as [Heq|Hin].
    + symmetry in Heq. apply submit_winner in Heq as ->.
      assert (e = Conn b) as -> by (apply (probe_fulfilled net e st t); by rewrite E1).
      split; [left |]. intros l ->. by apply not_excluded.
    + destruct (IH st1 ps') as [H1 H2]; [by rewrite E2 | done |].
      split; [by right | done].
Qed.

Lemma probe_tiers_winner net ex tiers st b :
  fst (probe_tiers net ex tiers st) = Return (Some b) ->
  exists tier, tier ∈ tiers /\ Conn b ∈ tier /\ (forall l, ex = Some l -> Some b ∉ l).
Proof.
  revert st. induction tiers as [|tier tiers IH]; intros st; simpl; [done |].
  destruct (probe_tier_returns net ex tier st) as [ps Hps].
  destruct (probe_tier net ex tier st) as [r1 st1] eqn:E1. simpl in Hps. subst r1.
  rewrite (bind_Return _ _ _ _ _ E1).
  destruct (Promise_any ps) as [t [v|]|t e] eqn:E.
  - simpl. intros [= ->]. apply Promise_any_fulfilled in E.
    destruct (probe_tier_fulfilled net ex tier st ps t b) as [H1 H2];
      [by rewrite E1 | done |].
    exists tier. split; [left | done].
  - intros H.
    destruct (IH _ H) as (tier' & Ht & Hrest). exists tier'. split; [by right | done].
  - rewrite (Promise_any_rejects _ _ _ E). intros H.
    destruct (IH _ H) as (tier' & Ht & Hrest). exists tier'. split; [by right | done].
Qed.

(** Whatever getBestAvailableConnection returns is a registered
    connection that was not excluded. *)
Lemma getBestAvailableConnection_winner net ex st b :
  fst (getBestAvailableConnection net ex st) = Return (Some b) ->
  b ∈ connections st /\ (forall l, ex = Some l -> Some b ∉ l).
Proof.
  unfold getBestAvailableConnection. rewrite bind_gets. intros H.
  destruct (probe_tiers_winner _ _ _ _ _ H) as (tier & Ht & Hb & Hex).
  split; [by eapply tiers_elems | done].
Qed.

(** The prober does not touch an excluded connection. *)
Lemma probe_other net e st (r : ref) :
  e <> Conn r -> obj (snd (probe net e st)) r = obj st r.
Proof.
  destruct e as [r'|tier]; [| done]. intros Hne. unfold probe.
  rewrite bind_gets. unfold mbind at 1, M_bind at 1, connection_checkConnection.
  destruct (net (_timeoutInMs st) r') as [t' o a ret|t' err]; simpl; [| done].
  rewrite bind_gets.
  destruct (usable _); simpl; apply obj_write_ne; congruence.
Qed.

Lemma probe_tier_excluded net l tier st (r : ref) :
  Some r ∈ l -> obj (snd (probe_tier net (Some l) tier st)) r = obj st r.
Proof.
  intros Hin. revert st. induction tier as [|e tier IH]; intros st; simpl; [done |].
  destruct (GenUtils_arrayContains l e) eqn:Eex; [apply IH |].
  assert (Hne : e <> Conn r).
  { intros ->. by apply not_excluded in Eex. }
  pose proof (probe_other net e st r Hne) as Ho.
  destruct (probe_returns net e st) as [p Hp].
  destruct (probe net e st) as [r1 st1] eqn:E1. simpl in Hp, Ho. subst r1.
  rewrite (bind_Return _ _ _ _ _ E1).
  specialize (IH st1).
  destruct (probe_tier_returns net (Some l) tier st1) as [ps' Hps'].
  destruct (probe_tier net (Some l) tier st1) as [r2 st2] eqn:E2. simpl in Hps', IH. subst r2.
  rewrite (bind_Return _ _ _ _ _ E2). simpl. congruence.
Qed.

Lemma probe_tiers_excluded net l tiers st (r : ref) :
  Some r ∈ l -> obj (snd (probe_tiers net (Some l) tiers st)) r = obj st r.
Proof.
  intros Hin. revert st. induction tiers as [|tier tiers IH]; intros st; simpl; [done |].
  pose proof (probe_tier_excluded net l tier st r Hin) as Ho.
  destruct (probe_tier_returns net (Some l) tier st) as [ps Hps].
  destruct (probe_tier net (Some l) tier st) as [r1 st1] eqn:E1. simpl in Hps, Ho. subst r1.
  rewrite (bind_Return _ _ _ _ _ E1).
  destruct (Promise_any ps) as [t [v|]|t e] eqn:E; [done | by rewrite IH |].
  rewrite (Promise_any_rejects _ _ _ E). by rewrite IH.
Qed.

Lemma getBestAvailableConnection_excluded net l st (r : ref) :
  Some r ∈ l -> obj (snd (getBestAvailableConnection net (Some l) st)) r = obj st r.
Proof.
  intros Hin. unfold getBestAvailableConnection. rewrite bind_gets.
  by apply probe_tiers_excluded.
Qed.

(** With unique URIs, looking a registered connection up by its URI
    finds that connection. *)
Lemma getConnectionByUri_unique st b :
  unique_uris st -> b ∈ connections st ->
  getConnectionByUri (getUri (obj st b)) st = Some b.
Proof.
  unfold unique_uris, uris, getConnectionByUri.
  induction (connections st) as [|x l IH]; intros Hnd Hin; [by apply elem_of_nil in Hin |].
  rewrite fmap_cons in Hnd. apply NoDup_cons in Hnd as [Hx Hnd]. simpl.
  destruct (String.eqb_spec (getUri (obj st x)) (getUri (obj st b))) as [Heq|Hne].
  - apply elem_of_cons in Hin as [->|Hin]; [done |].
    exfalso. apply Hx. rewrite Heq. apply list_elem_of_fmap. by exists b.
  - apply elem_of_cons in Hin as [->|Hin]; [done |]. by apply IH.
Qed.

(** ** The check cycle *)

(** The first statement of checkConnection, case by case. *)
Lemma check_current_run net (r : ref) st :
  match net (_timeoutInMs st) r with
  | Reply t o a ret =>
    let st1 := write_obj r (set_status o a (obj st r)) st in
    if ret
    then exists res, check_current net (Some r) st = (res, after_notify (Some r) st1)
    else check_current net (Some r) st = (Return tt, st1)
  | Failure t e => check_current net (Some r) st = (Throw e, st)
  end.
Proof.
  destruct (check_current net (Some r) st) as [res st'] eqn:G.
  unfold check_current in G. rewrite bind_gets in G.
  unfold mbind at 1, M_bind at 1, connection_checkConnection in G.
  destruct (net (_timeoutInMs st) r) as [t o a [|]|t e] eqn:E; cbv zeta; simpl in G;
    [| done | done].
  unfold mbind at 1, M_bind at 1 in G. simpl in G.
  match type of G with context [(_onConnectionChanged ?c ≫= ?k) ?s] =>
    destruct (bind_onConnectionChanged c k s) as [q Hq] end.
  rewrite Hq in G. exists res.
  destruct q as [tq vq|tq eq]; cbv [await mbind M_bind mret M_ret throw] in G; congruence.
Qed.

#[local] Arguments check_current : simpl never.
#[local] Arguments auto_switch : simpl never.
#[local] Arguments checkConnection : simpl never.
#[local] Arguments getBestAvailableConnection : simpl never.

Lemma check_current_Inv net c st :
  Inv st -> Inv (snd (check_current net c st))
            /\ _currentConnection (snd (check_current net c st)) = _currentConnection st.
Proof.
  intros HI. destruct c as [r|]; [| done].
  pose proof (check_current_run net r st) as H.
  destruct (net (_timeoutInMs st) r) as [t o a [|]|t e]; cbv zeta in H.
  - destruct H as [res ->]. simpl. split.
    + apply Inv_after_notify, (Inv_status_only st); [apply status_only_write | done].
    + by rewrite current_after_notify.
  - rewrite H. simpl. split; [| done].
    apply (Inv_status_only st); [apply status_only_write | done].
  - by rewrite H.
Qed.

(** The second statement of checkConnection: it keeps the invariants,
    leaves the connection that was current untouched, and notifies, if at
    all, for another connection. *)
Lemma auto_switch_spec net st :
  Inv st ->
  Inv (snd (auto_switch net (_currentConnection st) st))
  /\ (forall r, _currentConnection st = Some r ->
        obj (snd (auto_switch net (_currentConnection st) st)) r = obj st r
        /\ exists switch,
            notified (snd (auto_switch net (_currentConnection st) st))
            = notified st ++ switch
            /\ Some r ∉ switch).
Proof.
  intros HI. unfold auto_switch. rewrite !bind_gets.
  assert (Hnil : forall r : ref, exists switch : list (option ref),
               notified st = notified st ++ switch /\ Some r ∉ switch).
  { intros r. exists []. split; [by rewrite app_nil_r | by intros ?%elem_of_nil]. }
  destruct (_autoSwitch st && disconnected (_currentConnection st) st); [| by split; auto].
  set (ex := [_currentConnection st]).
  destruct (getBestAvailableConnection_returns net (Some ex) st) as [best Hbest].
  pose proof (getBestAvailableConnection_writes net (Some ex) st) as Hw.
  pose proof (getBestAvailableConnection_winner net (Some ex) st) as Hwin.
  pose proof (getBestAvailableConnection_excluded net ex st) as Hex.
  destruct (getBestAvailableConnection net (Some ex) st) as [r1 st2] eqn:E1.
  simpl in Hbest, Hw, Hwin, Hex. subst r1. rewrite (bind_Return _ _ _ _ _ E1).
  assert (I2 : Inv st2) by (by apply (Inv_status_only st)).
  destruct best as [b|].
  - destruct (Hwin b eq_refl) as [Hb Hnot]. specialize (Hnot ex eq_refl).
    rewrite <- (connections_status_only _ _ Hw) in Hb.
    assert (Hvalid : (b < length (objs st2))%nat) by (by apply wf_valid; [apply I2 |]).
    split; [by apply setConnection_object_Inv |].
    intros r Hr. unfold setConnection. rewrite setConnection_object_run. simpl.
    assert (Hne : b <> r).
    { intros ->. apply Hnot. unfold ex. rewrite Hr. left. }
    rewrite (so_current _ _ Hw), Hr.
    assert (same_ref (Some r) (Some b) = false) as ->
      by (apply bool_decide_eq_false; congruence).
    rewrite (getConnectionByUri_unique st2 b) by (done || apply I2).
    assert (same_ref (Some b) (Some r) = false) as ->
      by (apply bool_decide_eq_false; congruence).
    simpl.
    rewrite obj_after_notify, obj_set_currentConnection, obj_write_ne by done.
    split; [apply Hex; unfold ex; rewrite Hr; left |].
    exists [Some b]. rewrite notified_after_notify. simpl.
    rewrite (so_notified _ _ Hw). split; [done |].
    intros Hin. apply list_elem_of_singleton in Hin. congruence.
  - simpl. split; [done |]. intros r Hr.
    split; [apply Hex; unfold ex; rewrite Hr; left |].
    rewrite (so_notified _ _ Hw). apply Hnil.
Qed.

Lemma checkConnection_Inv net st : Inv st -> Inv (snd (checkConnection net st)).
Proof.
  intros HI. unfold checkConnection, getConnection. rewrite bind_gets.
  destruct (check_current_Inv net (_currentConnection st) st HI) as [I1 C1].
  destruct (check_current net (_currentConnection st) st) as [[[]|e] st1] eqn:E1.
  - rewrite (bind_Return _ _ _ _ _ E1). simpl in I1, C1. rewrite <- C1.
    by apply auto_switch_spec.
  - by rewrite (bind_Throw _ _ _ _ _ E1).
Qed.



(** A current connection that is online and authenticated and stays so:
    the check returns false and the cycle notifies nobody. *)
Lemma checkConnection_quiet_when_status_kept :
  returns_changed (obj healthy_current 0%nat) (stays_up (_timeoutInMs healthy_current) 0%nat)
  /\ isConnected healthy_current = true
  /\ isConnected (snd (checkConnection stays_up healthy_current)) = true
  /\ notified (snd (checkConnection stays_up healthy_current)) = notified healthy_current.
Proof.
  split; [| repeat split; by vm_compute].
  simpl. split; [discriminate |]. intros H. by destruct H.
Qed.

(** ** Every operation keeps the invariants *)

Lemma snd_forget {A} (m : M A) st : snd (forget m st) = snd (m st).
Proof. unfold forget, mbind, M_bind. by destruct (m st) as [[a|e] st']. Qed.

Lemma check_each_writes net cs : writes status_only (check_each net cs).
Proof.
  induction cs as [|c cs IH]; simpl; [apply writes_ret, _ |].
  apply writes_bind; [apply _ | apply writes_gets, _ | intros t].
  apply writes_bind; [apply _ | apply connection_checkConnection_writes | intros _].
  done.
Qed.

Lemma addConnection_registered (r : ref) st :
  registered (getUri (obj st r)) st ->
  addConnection r st = (Throw (MoneroError "Connection URI already exists"), st).
Proof.
  intros H. apply addConnection_guard in H. unfold addConnection. by rewrite H.
Qed.

Lemma addConnection_unregistered (r : ref) st :
  ~ registered (getUri (obj st r)) st ->
  addConnection r st
  = (Return tt, write_array (_connections st) (connections st ++ [r]) st).
Proof.
  intros H. unfold addConnection.
  destruct (existsb _ (connections st)) eqn:E; [| done].
  by apply addConnection_guard in E.
Qed.

Lemma exec_Inv localeCompare op st :
  Inv st -> op_ok st op -> Inv (snd (exec localeCompare op st)).
Proof.
  intros HI Hok. pose proof HI as [Hwf Huniq].
  destruct op as [c|l|l|r|uri| |net ex|a|net|net|b|t|]; cbn [exec op_ok] in *.
  - by apply Inv_alloc.
  - apply (Inv_transfer st); try done; [apply (wf_array _ Hwf) | apply (wf_current _ Hwf)].
  - unfold removeListener.
    destruct (existsb _ (_listeners st)); simpl; [| done].
    apply (Inv_transfer st); try done; [apply (wf_array _ Hwf) | apply (wf_current _ Hwf)].
  - destruct (decide (getUri (obj st r) ∈ uris st)) as [Hreg|Hreg].
    + by rewrite (addConnection_registered r st Hreg).
    + rewrite (addConnection_unregistered r st Hreg). simpl. by apply Inv_register.
  - unfold removeConnection. rewrite bind_gets.
    by destruct (getConnectionByUri uri st).
  - rewrite snd_forget. by apply Inv_getConnections.
  - rewrite snd_forget. eapply Inv_status_only; [| done].
    apply getBestAvailableConnection_writes.
  - by apply setConnection_Inv.
  - by apply checkConnection_Inv.
  - unfold checkConnections.
    pose proof (Inv_getConnections localeCompare st HI) as I1.
    rewrite getConnections_run in I1. simpl in I1.
    rewrite (bind_Return _ _ _ _ _ (getConnections_run localeCompare st)), bind_gets.
    eapply Inv_status_only; [apply check_each_writes | done].
  - apply (Inv_transfer st); try done; [apply (wf_array _ Hwf) | apply (wf_current _ Hwf)].
  - apply (Inv_transfer st); try done; [apply (wf_array _ Hwf) | apply (wf_current _ Hwf)].
  - by apply (setConnection_Inv AUndefined).
Qed.

Lemma run_Inv localeCompare ops st :
  Inv st -> ops_ok localeCompare ops st -> Inv (run localeCompare ops st).
Proof.
  revert st. induction ops as [|op ops IH]; intros st HI Hok; simpl; [done |].
  destruct Hok as [H1 H2]. apply IH; [by apply exec_Inv | done].
Qed.

(** C8: no two connections of a manager share a URI: this holds after
    every sequence of operations on a new manager, and every operation
    keeps it.  addConnection with the URI of a registered connection fails
    with "Connection URI already exists" and changes nothing; setConnection
    registers a connection only when no registered connection has its
    URI. *)
Theorem uri_uniqueness_is_invariant localeCompare st :
  wf st -> unique_uris st ->
  (forall ops, ops_ok localeCompare ops constructor ->
     unique_uris (run localeCompare ops constructor))
  /\ (forall op, op_ok st op ->
        wf (snd (exec localeCompare op st))
        /\ unique_uris (snd (exec localeCompare op st)))
  /\ (forall r : ref,
        registered (getUri (obj st r)) st ->
        addConnection r st = (Throw (MoneroError "Connection URI already exists"), st))
  /\ (forall a, arg_ok st a ->
        connections (snd (setConnection a st)) = connections st
        \/ exists r,
            connections (snd (setConnection a st)) = connections st ++ [r]
            /\ ~ registered (getUri (obj (snd (setConnection a st)) r)) st).
Proof.
  intros Hwf Huniq. assert (HI : Inv st) by done.
  split; [| split; [| split]].
  - intros ops Hok. by apply (run_Inv localeCompare ops constructor Inv_constructor).
  - intros op Hok. by apply exec_Inv.
  - intros r Hr. by apply addConnection_registered.
  - intros a Hok. by apply setConnection_Inv.
Qed.

(** ** getConnections works on a copy *)

(** C10: getConnections returns an array that did not exist before the
    call, holding the registered connections in presentation order; the
    call leaves [this._connections], its elements and their order as they
    were, as it leaves every array that existed before; and whatever is
    later written into the returned array, the registry stays the same. *)
Theorem getConnections_returns_fresh_copy localeCompare st :
  wf st ->
  exists sorted,
    fst (getConnections localeCompare st) = Return sorted
    /\ (length (arrs st) <= sorted)%nat
    /\ sorted <> _connections (snd (getConnections localeCompare st))
    /\ arr (snd (getConnections localeCompare st)) sorted
       = Array_sort (_compareConnections localeCompare st) (connections st)
    /\ _connections (snd (getConnections localeCompare st)) = _connections st
    /\ connections (snd (getConnections localeCompare st)) = connections st
    /\ (forall a, (a < length (arrs st))%nat ->
          arr (snd (getConnections localeCompare st)) a = arr st a)
    /\ objs (snd (getConnections localeCompare st)) = objs st
    /\ (forall l,
          connections (write_array sorted l (snd (getConnections localeCompare st)))
          = connections st).
Proof.
  intros Hwf. pose proof (wf_array _ Hwf) as Ha.
  exists (length (arrs st)).
  assert (Hold : forall a, (a < length (arrs st))%nat ->
                   arr (snd (getConnections localeCompare st)) a = arr st a).
  { intros a Hlt. rewrite getConnections_run. unfold arr. simpl.
    rewrite list_lookup_total_insert_ne by lia. by apply lookup_total_app_l. }
  assert (Hc : _connections (snd (getConnections localeCompare st)) = _connections st)
    by (by rewrite getConnections_run).
  split; [by rewrite getConnections_run |]. split; [done |].
  split; [rewrite Hc; lia |].
  split; [apply getConnections_result |].
  split; [done |].
  split; [unfold connections; rewrite Hc; by apply Hold |].
  split; [done |]. split; [by rewrite getConnections_run |].
  intros l. rewrite getConnections_run. unfold connections, arr. simpl.
  rewrite !list_lookup_total_insert_ne by lia. by apply lookup_total_app_l.
Qed.

(** ** Change notification *)

Lemma quiet_inv l :
  quiet l = true ->
  (exists p, outcome l = Returns p)
  /\ (forall ls, mutate (during l) ls = ls ++ additions (during l))
  /\ Forall (fun x => quiet x = true) (additions (during l)).
Proof.
  destruct l as [i ms h]. simpl. intros [Hh Hms]%andb_true_iff. split.
  - destruct h; [by eexists | done].
  - clear Hh. induction ms as [|[l'|id] ms IH]; simpl in *.
    + split; [intros ls; by rewrite app_nil_r | constructor].
    + apply andb_true_iff in Hms as [Hl' Hms]. destruct (IH Hms) as [IH1 IH2].
      split; [| by constructor].
      intros ls. by rewrite IH1, <- app_assoc.
    + done.
Qed.

(** When every handler returns a promise and none takes a listener away,
    the loop visits every listener of the list as it ends up, those added
    on the way included, and returns the Promise.all of their promises. *)
Lemma dispatch_quiet fuel i ls :
  (pending i ls < fuel)%nat -> (i <= length ls)%nat ->
  Forall (fun x => quiet x = true) ls ->
  exists ls',
    dispatch fuel i ls (lid <$> take i ls) (omap promise_of (take i ls))
    = Some (ls', lid <$> ls', Promise_all (omap promise_of ls'))
    /\ ls `prefix_of` ls'.
Proof.
  revert i ls. induction fuel as [|fuel IH]; intros i ls Hf Hi Hq; [lia |].
  simpl. destruct (ls !! i) as [l|] eqn:E.
  - assert (Hl : quiet l = true).
    { eapply Forall_forall in Hq; [done |]. by eapply list_elem_of_lookup_2. }
    destruct (quiet_inv l Hl) as ([p Hp] & Hm & Hadd).
    rewrite Hp, Hm. pose proof (lookup_lt_Some _ _ _ E) as Hlt.
    pose proof (pending_step _ _ _ E) as Hstep. rewrite Hm in Hstep.
    destruct (IH (S i) (ls ++ additions (during l))) as (ls' & Hd & Hpre).
    + lia.
    + rewrite length_app. lia.
    + by apply Forall_app.
    + rewrite take_app_le in Hd by lia.
      rewrite (take_S_r _ _ _ E) in Hd. rewrite fmap_app, omap_app in Hd. simpl in Hd.
      unfold promise_of at 2 in Hd. rewrite Hp in Hd.
      exists ls'. split; [done |]. etrans; [| done]. by apply prefix_app_r.
  - apply lookup_ge_None in E. rewrite take_ge by lia. by exists ls.
Qed.

(** A handler that throws ends the loop: with plain listeners before it,
    exactly these and the thrower are called, and the promise of the
    notification rejects with what was thrown. *)
Lemma dispatch_throw fuel pre l post e called ps :
  Forall plain pre -> outcome l = Throws e ->
  forall i, (i <= length pre)%nat ->
  (pending i (pre ++ l :: post) < fuel)%nat ->
  dispatch fuel i (pre ++ l :: post) called ps
  = Some (mutate (during l) (pre ++ l :: post),
          called ++ (lid <$> drop i pre) ++ [lid l], Rejected 0%nat e).
Proof.
  intros Hpre Hl i Hi. remember (length pre - i)%nat as n eqn:Hn.
  revert i called ps Hi Hn. induction n as [|n IH]; intros i called ps Hi Hn Hf.
  - assert (i = length pre) as -> by lia.
    rewrite dispatch_unfold by done. rewrite list_lookup_middle by done.
    rewrite Hl, drop_all. done.
  - rewrite dispatch_unfold by done.
    destruct (pre !! i) as [x|] eqn:E; [| apply lookup_ge_None in E; lia].
    rewrite (lookup_app_l_Some _ _ _ _ E).
    assert (Hx : plain x).
    { eapply Forall_forall in Hpre; [done |]. by eapply list_elem_of_lookup_2. }
    destruct Hx as [Hd [p Hp]]. rewrite Hp, Hd. simpl.
    assert (Hstep : (pending (S i) (pre ++ l :: post) < pending i (pre ++ l :: post))%nat).
    { pose proof (pending_step i (pre ++ l :: post) x (lookup_app_l_Some _ _ _ _ E)) as H.
      by rewrite Hd in H. }
    rewrite IH by lia. rewrite (drop_S _ _ _ E). simpl.
    by rewrite <- app_assoc.
Qed.

Lemma Promise_all_fulfilled {A} (ps : list (Settled A)) t vs :
  Promise_all ps = Fulfilled t vs ->
  Forall (fun p => exists t' v, p = Fulfilled t' v /\ (t' <= t)%nat) ps.
Proof.
  revert t vs. induction ps as [|[t1 v1|t1 e1] ps IH]; intros t vs; simpl.
  - constructor.
  - destruct (Promise_all ps) as [t2 vs2|t2 e2] eqn:E; [| done].
    intros [= <- <-]. constructor.
    + exists t1, v1. split; [done | lia].
    + eapply Forall_impl; [by eapply IH |]. simpl.
      intros p (t' & v & -> & Hle). exists t', v. split; [done | lia].
  - destruct (Promise_all ps) as [t2 vs2|t2 e2]; [done |].
    by destruct (t1 <=? t2)%nat.
Qed.

Lemma Promise_all_rejected {A} (ps : list (Settled A)) t e :
  Promise_all ps = Rejected t e ->
  Rejected t e ∈ ps /\ (forall t' e', Rejected t' e' ∈ ps -> (t <= t')%nat).
Proof.
  revert t e. induction ps as [|[t1 v1|t1 e1] ps IH]; intros t e; simpl; [done | |].
  - destruct (Promise_all ps) as [t2 vs2|t2 e2] eqn:E; [done |].
    intros [= <- <-]. destruct (IH _ _ eq_refl) as [H1 H2]. split; [by right |].
    intros t' e' [H|Hin]%elem_of_cons; [done | by eapply H2].
  - destruct (Promise_all ps) as [t2 vs2|t2 e2] eqn:E.
    + intros [= <- <-]. split; [left |].
      intros t' e' [[= <- <-]|Hin]%elem_of_cons; [done |].
      apply Promise_all_fulfilled in E. eapply Forall_forall in E; [| done].
      by destruct E as (? & ? & [=] & _).
    + destruct (IH _ _ eq_refl) as [H1 H2].
      destruct (Nat.leb_spec t1 t2); intros [= <- <-].
      * split; [left |]. intros t' e' [[= <- <-]|Hin]%elem_of_cons; [done |].
        specialize (H2 _ _ Hin). lia.
      * split; [by right |]. intros t' e' [[= <- <-]|Hin]%elem_of_cons; [lia |].
        by eapply H2.
Qed.

(** C9, as amended: the notification walks the live listener list.  When
    every handler returns a promise and none removes a listener, every
    listener of the list as it stands at the end is called, in order, those
    added during the notification included, so that a handler whose promise
    rejects keeps nobody from being notified; the promise of the
    notification is the Promise.all of the handlers' promises: it fulfils
    only when every handler's promise has fulfilled and not before the last
    of them, and otherwise rejects with the reason of the one promise that
    rejected first.  A handler that throws ends the walk: the listeners
    after it are not called and the promise rejects with what it threw. *)
Theorem onConnectionChanged_walks_live_list c st :
  (Forall (fun l => quiet l = true) (_listeners st) ->
   _listeners st `prefix_of` _listeners (after_notify c st)
   /\ handled (after_notify c st)
      = handled st ++ ((fun l => (lid l, c)) <$> _listeners (after_notify c st))
   /\ fst (_onConnectionChanged c st)
      = Return (Promise_all (omap promise_of (_listeners (after_notify c st)))))
  /\ (forall pre l post e,
        _listeners st = pre ++ l :: post -> Forall plain pre -> outcome l = Throws e ->
        handled (after_notify c st) = handled st ++ ((fun l => (lid l, c)) <$> (pre ++ [l]))
        /\ fst (_onConnectionChanged c st) = Return (Rejected 0%nat e))
  /\ (forall ps : list (Settled unit),
        (forall t vs, Promise_all ps = Fulfilled t vs ->
           Forall (fun p => exists t' v, p = Fulfilled t' v /\ (t' <= t)%nat) ps)
        /\ (forall t e, Promise_all ps = Rejected t e ->
              Rejected t e ∈ ps
              /\ (forall t' e', Rejected t' e' ∈ ps -> (t <= t')%nat))).
Proof.
  split; [| split].
  - intros Hq.
    destruct (dispatch_quiet (S (pending 0 (_listeners st))) 0 (_listeners st))
      as (ls' & Hd & Hpre); [lia | lia | done |].
    rewrite take_0 in Hd.
    change (lid <$> []) with (@nil nat) in Hd.
    change (omap promise_of []) with (@nil (Settled unit)) in Hd.
    unfold after_notify, _onConnectionChanged. rewrite Hd. simpl.
    split; [done |]. split; [| done]. by rewrite <- list_fmap_compose.
  - intros pre l post e Hls Hpre Hl.
    pose proof (dispatch_throw (S (pending 0 (_listeners st))) pre l post e [] []
                  Hpre Hl 0%nat) as Hd.
    rewrite <- Hls in Hd. specialize (Hd ltac:(lia) ltac:(lia)).
    unfold after_notify, _onConnectionChanged. rewrite Hd. simpl.
    split; [| done]. by rewrite drop_0, !fmap_app, <- list_fmap_compose.
  - intros ps. split; [apply Promise_all_fulfilled | apply Promise_all_rejected].
Qed.

(** C9, as stated, fails.  No snapshot is taken: a listener added during
    the notification is called by it, and after a listener has removed
    itself the next one is skipped.  A handler that throws keeps the
    listeners after it from being called.  When two handlers fail, the
    promise rejects with the reason of one of them, at the time that one
    rejected, while another handler is still running; and setConnection,
    which triggered the notification, returns normally without any
    report. *)
Lemma onConnectionChanged_counterexample :
  (lid <$> _listeners adds_during_dispatch = [1; 2]%nat
   /\ handled (after_notify None adds_during_dispatch)
      = [(1%nat, None); (2%nat, None); (3%nat, None)])
  /\ (lid <$> _listeners removes_during_dispatch = [1; 2]%nat
      /\ handled (after_notify None removes_during_dispatch) = [(1%nat, None)])
  /\ (lid <$> _listeners first_throws = [1; 2]%nat
      /\ handled (after_notify None first_throws) = [(1%nat, None)]
      /\ fst (_onConnectionChanged None first_throws)
         = Return (Rejected 0%nat (TypeError "handler failed")))
  /\ (outcome <$> _listeners two_reject
      = [Returns (Rejected 4%nat (MoneroError "first"));
         Returns (Fulfilled 9%nat tt);
         Returns (Rejected 2%nat (MoneroError "third"))]
      /\ fst (_onConnectionChanged None two_reject)
         = Return (Rejected 2%nat (MoneroError "third"))
      /\ fst (setConnection (AString "http://a") two_reject) = Return tt).
Proof. repeat split; vm_compute; reflexivity. Qed.

(** ** The theorems at concrete managers *)

Lemma wf_manager_of store n current ls :
  (n <= length store)%nat ->
  (forall r, current = Some r -> (r < length store)%nat) ->
  wf (manager_of store n current ls).
Proof.
  intros Hn Hc. split; simpl; [lia | | done].
  unfold connections, arr. simpl. apply Forall_seq. intros. lia.
Qed.

Lemma wf_registry_A1_Z0 : wf registry_A1_Z0.
Proof. apply wf_manager_of; [simpl; lia | done]. Qed.

Lemma unique_uris_registry_A1_Z0 : unique_uris registry_A1_Z0.
Proof. apply (bool_decide_unpack _). by vm_compute. Qed.



Lemma wf_healthy_current : wf healthy_current.
Proof. apply wf_manager_of; [simpl; lia |]. intros r [= <-]. simpl. lia. Qed.

Lemma unique_uris_healthy_current : unique_uris healthy_current.
Proof. apply (bool_decide_unpack _). by vm_compute. Qed.


(** C6 at a manager without connections. *)
Lemma getBestAvailableConnection_never_throws_witness :
  fst (getBestAvailableConnection only_A_down None (manager_of [] 0 None [])) = Return None.
Proof.
  apply (proj1 (proj2 (getBestAvailableConnection_never_throws
                         only_A_down None (manager_of [] 0 None [])))).
  reflexivity.
Defined.


(** C8 at a registry of two connections: adding the first one again fails
    and changes nothing. *)
Lemma uri_uniqueness_is_invariant_witness :
  addConnection 0%nat registry_A1_Z0
  = (Throw (MoneroError "Connection URI already exists"), registry_A1_Z0).
Proof.
  apply (proj1 (proj2 (proj2 (uri_uniqueness_is_invariant code_unit_compare registry_A1_Z0
                                wf_registry_A1_Z0 unique_uris_registry_A1_Z0))) 0%nat).
  vm_compute. left.
Defined.

(** C9, as amended, at a manager one of whose listeners adds a listener,
    and at a manager whose first listener throws. *)
Lemma onConnectionChanged_walks_live_list_witness :
  handled (after_notify None adds_during_dispatch)
  = handled adds_during_dispatch
    ++ ((fun l => (lid l, None)) <$> _listeners (after_notify None adds_during_dispatch))
  /\ fst (_onConnectionChanged None first_throws)
     = Return (Rejected 0%nat (TypeError "handler failed")).
Proof.
  split.
  - apply (proj1 (onConnectionChanged_walks_live_list None adds_during_dispatch)).
    repeat constructor.
  - apply (proj1 (proj2 (onConnectionChanged_walks_live_list None first_throws))
             [] (mkListener 1 [] (Throws (TypeError "handler failed")))
             [mkListener 2 [] (Returns (Fulfilled 0 tt))]
             (TypeError "handler failed")); [reflexivity | constructor | reflexivity].
Defined.

(** C10 at a registry of three connections. *)
Lemma getConnections_returns_fresh_copy_witness :
  exists sorted,
    fst (getConnections code_unit_compare registry_A1_B2_C0) = Return sorted
    /\ (length (arrs registry_A1_B2_C0) <= sorted)%nat
    /\ sorted <> _connections (snd (getConnections code_unit_compare registry_A1_B2_C0))
    /\ arr (snd (getConnections code_unit_compare registry_A1_B2_C0)) sorted
       = Array_sort (_compareConnections code_unit_compare registry_A1_B2_C0)
                    (connections registry_A1_B2_C0)
    /\ _connections (snd (getConnections code_unit_compare registry_A1_B2_C0))
       = _connections registry_A1_B2_C0
    /\ connections (snd (getConnections code_unit_compare registry_A1_B2_C0))
       = connections registry_A1_B2_C0
    /\ (forall a, (a < length (arrs registry_A1_B2_C0))%nat ->
          arr (snd (getConnections code_unit_compare registry_A1_B2_C0)) a
          = arr registry_A1_B2_C0 a)
    /\ objs (snd (getConnections code_unit_compare registry_A1_B2_C0))
       = objs registry_A1_B2_C0
    /\ (forall l,
          connections (write_array sorted l
                         (snd (getConnections code_unit_compare registry_A1_B2_C0)))
          = connections registry_A1_B2_C0).
Proof.
  apply (getConnections_returns_fresh_copy code_unit_compare registry_A1_B2_C0).
  apply wf_manager_of; [simpl; lia | done].
Defined.

(** ** The two defects, in general *)

(** When the connection registered under the supplied URI is the current
    one and the user names agree, setConnection does nothing, whatever the
    supplied password is. *)
Lemma setConnection_ignores_password (q p : ref) st :
  _currentConnection st = Some p -> q <> p ->
  getConnectionByUri (getUri (obj st q)) st = Some p ->
  getUsername (obj st q) = getUsername (obj st p) ->
  setConnection (AConnection q) st = (Return tt, st).
Proof.
  intros Hcur Hne Hfind Hu. unfold setConnection.
  rewrite setConnection_object_run, Hcur, Hfind, Hu.
  unfold same_ref, differs.
  rewrite bool_decide_eq_false_2 by congruence.
  by rewrite !bool_decide_eq_true_2.
Qed.

Lemma map_push_keys k v m x :
  x ∈ (map_push k v m).*1 -> x = k \/ x ∈ m.*1.
Proof.
  induction m as [|[k' vs] m IH]; simpl.
  - intros ->%list_elem_of_singleton. by left.
  - destruct (k' =? k); simpl.
    + by right.
    + intros [->|H]%elem_of_cons; [right; left |].
      destruct (IH H) as [->|H']; [by left | right; by right].
Qed.

Lemma map_push_ok st k v m :
  0 <= k -> getPriority (obj st v) = k -> tiers_ok st m -> tiers_ok st (map_push k v m).
Proof.
  intros Hk Hv [Hnd Hm]. split.
  - clear Hm. induction m as [|[k' vs] m IH]; simpl.
    + apply NoDup_singleton.
    + simpl in Hnd. apply NoDup_cons in Hnd as [Hk' Hnd].
      destruct (Z.eqb_spec k' k) as [->|Hne]; simpl.
      * by apply NoDup_cons.
      * apply NoDup_cons. split; [| by apply IH].
        intros [->|H]%map_push_keys; done.
  - induction m as [|[k' vs] m IH]; simpl.
    + intros e ->%list_elem_of_singleton. simpl. split; [done |].
      by intros r ->%list_elem_of_singleton.
    + simpl in Hnd. apply NoDup_cons in Hnd as [Hk' Hnd].
      assert (Hm' : forall e, e ∈ m -> 0 <= e.1 /\
                      forall r, r ∈ e.2 -> getPriority (obj st r) = e.1).
      { intros e He. apply Hm. by right. }
      destruct (Hm (k', vs)) as [H0 Hvs]; [left |].
      destruct (Z.eqb_spec k' k) as [->|Hne].
      * intros e [->|He]%elem_of_cons; [| by apply Hm'].
        simpl. split; [done |].
        intros r [Hr|Hr]%elem_of_app; [by apply Hvs |].
        by apply list_elem_of_singleton in Hr as ->.
      * intros e [->|He]%elem_of_cons; [done | by apply IH].
Qed.

Lemma connectionPriorities_ok st :
  (forall r, r ∈ connections st -> 0 <= getPriority (obj st r)) ->
  tiers_ok st (connectionPriorities st).
Proof.
  intros Hpos. unfold connectionPriorities.
  assert (G : forall l m,
             (forall r, r ∈ l -> 0 <= getPriority (obj st r)) -> tiers_ok st m ->
             tiers_ok st (fold_left (fun m c => map_push (getPriority (obj st c)) c m) l m)).
  { induction l as [|x l IH]; intros m Hl Hm; simpl; [done |].
    apply IH; [intros r Hr; apply Hl; by right |].
    apply map_push_ok; [apply Hl; left | done | done]. }
  apply G; [done |]. split; [apply NoDup_nil_2 | by intros e ?%elem_of_nil].
Qed.

Lemma leading_digit_fuel_pos fuel n : 1 <= n -> 1 <= leading_digit_fuel fuel n.
Proof.
  revert n. induction fuel as [|fuel IH]; intros n Hn; simpl; [done |].
  destruct (Z.ltb_spec n 10); [done |]. apply IH.
  apply Z.div_le_lower_bound; lia.
Qed.

Lemma parseInt_full x : Z.abs x < 10 ^ 21 -> parseInt x = x.
Proof. intros H. unfold parseInt. by destruct (Z.ltb_spec (Z.abs x) (10 ^ 21)); [| lia]. Qed.

Lemma parseInt_pos x : 0 < x -> 0 < parseInt x.
Proof.
  intros H. unfold parseInt. destruct (Z.ltb_spec (Z.abs x) (10 ^ 21)); [done |].
  rewrite Z.sgn_pos, Z.abs_eq by lia.
  pose proof (leading_digit_fuel_pos (Z.to_nat (Z.log2 x)) x). unfold leading_digit. lia.
Qed.

(** With priorities that are not negative, no connection of priority 0 is
    in a tier the prober checks, once some connection has priority 0. *)
Lemma checked_tiers_skip_priority_0 st tier r :
  (forall r, r ∈ connections st -> 0 <= getPriority (obj st r)) ->
  map_has 0 (connectionPriorities st) = true ->
  tier ∈ _getConnectionsInAscendingPriority st -> Conn r ∈ tier ->
  getPriority (obj st r) <> 0.
Proof.
  intros Hpos Hhas. destruct (connectionPriorities_ok st Hpos) as [Hnd Hok].
  unfold _getConnectionsInAscendingPriority. rewrite Hhas.
  set (cmp := fun a b : Z * list ref => parseInt a.1 - parseInt b.1).
  assert (Hperm : Array_sort cmp (connectionPriorities st) ≡ₚ connectionPriorities st)
    by apply Array_sort_Permutation.
  assert (Hsorted : StronglySorted (goes_before cmp)
                                   (Array_sort cmp (connectionPriorities st))).
  { apply Sorted_StronglySorted.
    - intros a b c. unfold goes_before, cmp. lia.
    - apply Array_sort_Sorted. intros a b. unfold cmp. lia. }
  assert (Hnd' : NoDup (Array_sort cmp (connectionPriorities st)).*1) by (by rewrite Hperm).
  assert (Hok' : forall e, e ∈ Array_sort cmp (connectionPriorities st) ->
                   0 <= e.1 /\ forall r, r ∈ e.2 -> getPriority (obj st r) = e.1).
  { intros e He. apply Hok. by rewrite <- Hperm. }
  destruct (Array_sort cmp (connectionPriorities st)) as [|first rest]; simpl.
  { intros H. apply list_elem_of_singleton in H as ->. by intros ?%elem_of_nil. }
  rewrite drop_0. intros [Ht|Ht]%elem_of_app Hr.
  - apply list_elem_of_fmap in Ht as (vs & -> & Hvs).
    apply list_elem_of_fmap in Hvs as (e & -> & He).
    apply list_elem_of_In, in_map_iff in Hr as (x & [= ->] & Hx).
    apply list_elem_of_In in Hx.
    destruct (Hok' e) as [_ Hprio]; [by right |]. rewrite (Hprio r Hx).
    destruct (Hok' first) as [Hfirst _]; [left |].
    apply StronglySorted_inv in Hsorted as [_ Hle].
    eapply Forall_forall in Hle; [| done]. unfold goes_before, cmp in Hle.
    simpl in Hnd'. apply NoDup_cons in Hnd' as [Hnotin _].
    assert (first.1 <> e.1).
    { intros Heq. apply Hnotin. rewrite Heq. apply list_elem_of_fmap. by exists e. }
    intros He0. rewrite He0 in Hle. change (parseInt 0) with 0 in Hle.
    pose proof (parseInt_pos first.1). lia.
  - apply list_elem_of_singleton in Ht as ->.
    by apply list_elem_of_singleton in Hr.
Qed.

(** So getBestAvailableConnection never returns a connection of priority
    0 when the priorities are not negative. *)
Lemma getBestAvailableConnection_never_priority_0 net ex st b :
  (forall r, r ∈ connections st -> 0 <= getPriority (obj st r)) ->
  fst (getBestAvailableConnection net ex st) = Return (Some b) ->
  getPriority (obj st b) <> 0.
Proof.
  intros Hpos. unfold getBestAvailableConnection. rewrite bind_gets. intros H.
  destruct (probe_tiers_winner _ _ _ _ _ H) as (tier & Ht & Hb & _).
  destruct (map_has 0 (connectionPriorities st)) eqn:Hhas.
  - by eapply checked_tiers_skip_priority_0.
  - pose proof (tiers_elems st tier b Ht Hb) as Hin.
    unfold _getConnectionsInAscendingPriority in Ht. rewrite Hhas in Ht.
    apply list_elem_of_fmap in Ht as (vs & -> & Hvs).
    apply list_elem_of_fmap in Hvs as (e & -> & He).
    rewrite Array_sort_Permutation in He.
    apply list_elem_of_In, in_map_iff in Hb as (x & [= ->] & Hx).
    apply list_elem_of_In in Hx.
    destruct (connectionPriorities_ok st Hpos) as [_ Hok].
    destruct (Hok e He) as [_ Hprio]. rewrite (Hprio b Hx).
    intros H0. apply not_true_iff_false in Hhas. apply Hhas.
    apply existsb_exists. exists e. split; [by apply list_elem_of_In | by apply Z.eqb_eq].
Qed.

(** * Further properties of the code *)

(** ** The prober as a function *)

Lemma after_check_idem net t r c :
  after_check net t r (after_check net t r c) = after_check net t r c.
Proof. unfold after_check. by destruct (net t r). Qed.

Lemma probe_run net e st :
  (forall r, e = Conn r -> (r < length (objs st))%nat) ->
  probe net e st = (Return (elem_promise net (_timeoutInMs st) e), probe_state net e st).
Proof.
  destruct e as [r|tier]; intros Hv; [| done]. specialize (Hv r eq_refl).
  unfold probe. rewrite bind_gets.
  unfold mbind at 1, M_bind at 1, connection_checkConnection. simpl.
  destruct (net (_timeoutInMs st) r) as [tm o a ret|tm err]; simpl; [| done].
  rewrite bind_gets, obj_write_eq by done.
  unfold usable. simpl. by destruct (healthy o a).
Qed.

Lemma probe_state_writes net e st : status_only st (probe_state net e st).
Proof.
  destruct e as [r|tier]; simpl; [| reflexivity].
  destruct (net (_timeoutInMs st) r); [apply status_only_write | reflexivity].
Qed.

Lemma probe_state_obj net (r : ref) st r' :
  (r < length (objs st))%nat ->
  obj (probe_state net (Conn r) st) r'
  = if decide (r' = r) then after_check net (_timeoutInMs st) r (obj st r) else obj st r'.
Proof.
  intros Hv. unfold probe_state, after_check.
  destruct (net (_timeoutInMs st) r) as [tm o a ret|tm err].
  - destruct (decide (r' = r)) as [->|Hne]; [by rewrite obj_write_eq |].
    by rewrite obj_write_ne.
  - by destruct (decide (r' = r)) as [->|Hne].
Qed.

(** The promises of a tier and the records after its checks. *)
Lemma probe_tier_run net ex tier st :
  (forall r, r ∈ probed ex tier -> (r < length (objs st))%nat) ->
  fst (probe_tier net ex tier st) = Return (tier_promises net (_timeoutInMs st) ex tier)
  /\ status_only st (snd (probe_tier net ex tier st))
  /\ forall r',
      obj (snd (probe_tier net ex tier st)) r'
      = if decide (r' ∈ probed ex tier)
        then after_check net (_timeoutInMs st) r' (obj st r')
        else obj st r'.
Proof.
  revert st. induction tier as [|e tier IH]; intros st Hv.
  - split; [done |]. split; [reflexivity |]. intros r'.
    change (probed ex []) with (@nil ref).
    by rewrite decide_False by (by intros ?%elem_of_nil).
  - simpl. fold (skips ex e). destruct (skips ex e) eqn:Es.
    { apply IH. intros r Hr. apply Hv. simpl. fold (skips ex e). by rewrite Es. }
    assert (Hv' : forall r, r ∈ match e with
                                 | Conn r => r :: probed ex tier
                                 | Nested _ => probed ex tier
                                 end -> (r < length (objs st))%nat).
    { intros r Hr. apply Hv. simpl. fold (skips ex e). by rewrite Es. }
    clear Hv. rename Hv' into Hv.
    assert (Hve : forall r, e = Conn r -> (r < length (objs st))%nat).
    { intros r ->. apply Hv. left. }
    rewrite (bind_Return _ _ _ _ _ (probe_run net e st Hve)).
    pose proof (probe_state_writes net e st) as Hw.
    set (st1 := probe_state net e st) in *.
    destruct (IH st1) as (Hr & Hs & Ho).
    { intros r Hr. rewrite (so_length _ _ Hw). apply Hv.
      destruct e; [by right | done]. }
    destruct (probe_tier net ex tier st1) as [res st2] eqn:E2. simpl in Hr, Hs, Ho.
    subst res. rewrite (so_timeout _ _ Hw) in E2, Ho.
    rewrite (bind_Return _ _ _ _ _ E2). simpl.
    split; [done |]. split; [by etrans |].
    intros r'. rewrite Ho.
    destruct e as [r|nested].
    + unfold st1. rewrite probe_state_obj by (apply Hv; left).
      destruct (decide (r' = r)) as [->|Hne], (decide (_ ∈ probed ex tier)) as [Hin|Hnin].
      * rewrite decide_True by left. apply after_check_idem.
      * by rewrite decide_True by left.
      * by rewrite decide_True by (by right).
      * rewrite decide_False; [done |]. by intros [?|?]%elem_of_cons.
    + done.
Qed.

(** The result of the tier loop and the records after it. *)
Lemma probe_tiers_run net ex tiers st :
  (forall tier r, tier ∈ tiers -> Conn r ∈ tier -> (r < length (objs st))%nat) ->
  fst (probe_tiers net ex tiers st) = Return (best_of net (_timeoutInMs st) ex tiers)
  /\ status_only st (snd (probe_tiers net ex tiers st))
  /\ forall r',
      obj (snd (probe_tiers net ex tiers st)) r'
      = if decide (r' ∈ checked_refs net (_timeoutInMs st) ex tiers)
        then after_check net (_timeoutInMs st) r' (obj st r')
        else obj st r'.
Proof.
  revert st. induction tiers as [|tier tiers IH]; intros st Hv.
  - split; [done |]. split; [reflexivity |]. intros r'.
    change (checked_refs net (_timeoutInMs st) ex []) with (@nil ref).
    by rewrite decide_False by (by intros ?%elem_of_nil).
  - assert (Hsub : forall r, r ∈ probed ex tier -> Conn r ∈ tier).
    { clear. induction tier as [|e tier IH]; simpl; [by intros r ?%elem_of_nil |].
      intros r. destruct (skips ex e); [by right; apply IH |].
      destruct e as [r0|n].
      - intros [->|H]%elem_of_cons; [left | by right; apply IH].
      - by right; apply IH. }
    destruct (probe_tier_run net ex tier st) as (Hr & Hs & Ho).
    { intros r Hr. apply (Hv tier); [left | by apply Hsub]. }
    simpl. destruct (probe_tier net ex tier st) as [res st1] eqn:E1. simpl in Hr, Hs, Ho.
    subst res. rewrite (bind_Return _ _ _ _ _ E1).
    assert (Hnext :
              fst (probe_tiers net ex tiers st1) = Return (best_of net (_timeoutInMs st) ex tiers)
              /\ status_only st (snd (probe_tiers net ex tiers st1))
              /\ forall r',
                  obj (snd (probe_tiers net ex tiers st1)) r'
                  = if decide (r' ∈ probed ex tier
                                    ++ checked_refs net (_timeoutInMs st) ex tiers)
                    then after_check net (_timeoutInMs st) r' (obj st r')
                    else obj st r').
    { destruct (IH st1) as (Hr' & Hs' & Ho').
      { intros T r HT Hr0. rewrite (so_length _ _ Hs). apply (Hv T); [by right | done]. }
      rewrite (so_timeout _ _ Hs) in Hr', Ho'.
      split; [done |]. split; [by etrans |].
      intros r'. rewrite Ho', Ho.
      destruct (decide (r' ∈ probed ex tier)) as [Hin|Hnin],
               (decide (r' ∈ checked_refs net (_timeoutInMs st) ex tiers)) as [Hin'|Hnin'].
      * rewrite decide_True by (apply elem_of_app; by left). apply after_check_idem.
      * by rewrite decide_True by (apply elem_of_app; by left).
      * by rewrite decide_True by (apply elem_of_app; by right).
      * rewrite decide_False; [done |]. by intros [?|?]%elem_of_app. }
    destruct (Promise_any (tier_promises net (_timeoutInMs st) ex tier))
      as [tm [b|]|tm err] eqn:E.
    + simpl. split; [done |]. split; [done |]. intros r'. rewrite Ho, app_nil_r. done.
    + done.
    + by rewrite (Promise_any_rejects _ _ _ E).
Qed.

Lemma getBestAvailableConnection_run net ex st :
  wf st ->
  fst (getBestAvailableConnection net ex st)
  = Return (best_of net (_timeoutInMs st) ex (_getConnectionsInAscendingPriority st))
  /\ status_only st (snd (getBestAvailableConnection net ex st))
  /\ forall r',
      obj (snd (getBestAvailableConnection net ex st)) r'
      = if decide (r' ∈ checked_refs net (_timeoutInMs st) ex
                                     (_getConnectionsInAscendingPriority st))
        then after_check net (_timeoutInMs st) r' (obj st r')
        else obj st r'.
Proof.
  intros Hwf. unfold getBestAvailableConnection. rewrite bind_gets.
  apply probe_tiers_run. intros tier r Ht Hr.
  eapply wf_valid; [done |]. by eapply tiers_elems.
Qed.

(** ** Promise.any picks the earliest fulfilment *)

Lemma Promise_any_rejected_all {A} (ps : list (Settled A)) t e :
  Promise_any ps = Rejected t e -> Forall is_rejected ps.
Proof.
  revert t e. induction ps as [|p ps IH]; intros t e; simpl; [constructor |].
  destruct p as [t1 v1|t1 e1], (Promise_any ps) as [t2 v2|t2 e2] eqn:E; try done.
  - by destruct (Nat.leb t1 t2).
  - intros _. constructor; [done | by eapply IH].
Qed.

Lemma Promise_any_earliest {A} (ps : list (Settled A)) t v :
  Promise_any ps = Fulfilled t v ->
  forall t' v', Fulfilled t' v' ∈ ps -> (t <= t')%nat.
Proof.
  revert t v. induction ps as [|p ps IH]; intros t v; simpl; [done |].
  destruct p as [t1 v1|t1 e1], (Promise_any ps) as [t2 v2|t2 e2] eqn:E.
  - destruct (Nat.leb_spec t1 t2) as [Hle|Hlt]; intros [= <- <-] t' v' [[= -> ->]|Hin]%elem_of_cons.
    + done.
    + specialize (IH _ _ eq_refl _ _ Hin). lia.
    + lia.
    + by apply (IH _ _ eq_refl _ _ Hin).
  - intros [= <- <-] t' v' [[= -> ->]|Hin]%elem_of_cons; [done |].
    apply Promise_any_rejected_all in E.
    eapply Forall_forall in E; [| done]. done.
  - intros [= <- <-] t' v' [|Hin]%elem_of_cons; [done |].
    by apply (IH _ _ eq_refl _ _ Hin).
  - done.
Qed.

(** ** What a tier's promises say about its connections *)

Lemma skips_Nested ex n : skips ex (Nested n) = false.
Proof. by destruct ex. Qed.

Lemma elem_of_map_Conn (r : ref) (l : list ref) : Conn r ∈ map Conn l <-> r ∈ l.
Proof.
  rewrite list_elem_of_In, in_map_iff. split.
  - intros (x & [= ->] & Hx). by apply list_elem_of_In.
  - intros Hr. exists r. split; [done | by apply list_elem_of_In].
Qed.

Lemma tier_promises_fulfilled net t ex tier tm b :
  Fulfilled tm (Some b) ∈ tier_promises net t ex tier ->
  Conn b ∈ tier /\ skips ex (Conn b) = false
  /\ healthy_reply (net t b) /\ reply_time (net t b) = tm.
Proof.
  induction tier as [|e tier IH]; simpl; [by intros ?%elem_of_nil |].
  destruct (skips ex e) eqn:Es.
  - intros H. destruct (IH H) as (? & ? & ? & ?). repeat split; try done. by right.
  - intros [Hhd|Htl]%elem_of_cons.
    + symmetry in Hhd. apply submit_winner in Hhd.
      destruct e as [r|n]; simpl in Hhd; [| done].
      destruct (net t r) as [tm' o a ret|tm' err] eqn:En; [| done].
      destruct (healthy o a) eqn:Eh; [| done].
      injection Hhd as -> ->. rewrite En. repeat split; try done. left.
    + destruct (IH Htl) as (? & ? & ? & ?). repeat split; try done. by right.
Qed.

Lemma tier_promises_undefined net t ex tier tm :
  Fulfilled tm None ∈ tier_promises net t ex tier ->
  exists r : ref,
    Conn r ∈ tier /\ skips ex (Conn r) = false
    /\ unusable_answer (net t r) /\ reply_time (net t r) = tm.
Proof.
  induction tier as [|e tier IH]; simpl; [by intros ?%elem_of_nil |].
  destruct (skips ex e) eqn:Es.
  - intros H. destruct (IH H) as (r & ? & ? & ? & ?). exists r. repeat split; try done.
    by right.
  - intros [Hhd|Htl]%elem_of_cons.
    + destruct e as [r|n]; simpl in Hhd; [| done]. exists r.
      destruct (net t r) as [tm' o a ret|tm' err] eqn:En.
      * destruct (healthy o a) eqn:Eh; [done |]. injection Hhd as ->.
        repeat split; try done. left.
      * destruct err; try done. injection Hhd as ->. repeat split; try done. left.
    + destruct (IH Htl) as (r & ? & ? & ? & ?). exists r. repeat split; try done.
      by right.
Qed.

Lemma tier_promises_healthy net t ex tier (r : ref) :
  Conn r ∈ tier -> skips ex (Conn r) = false -> healthy_reply (net t r) ->
  Fulfilled (reply_time (net t r)) (Some r) ∈ tier_promises net t ex tier.
Proof.
  intros Hin Hs Hh. induction tier as [|e tier IH]; [by apply elem_of_nil in Hin |].
  simpl. apply elem_of_cons in Hin as [<-|Hin].
  - rewrite Hs.
    assert (ThreadPool_submit (elem_promise net t (Conn r))
            = Fulfilled (reply_time (net t r)) (Some r)) as ->; [| left].
    simpl. destruct (net t r) as [tm o a ret|tm err]; simpl in *; [by rewrite Hh | done].
  - destruct (skips ex e); [by apply IH | right; by apply IH].
Qed.

Lemma tier_promises_unusable net t ex tier (r : ref) :
  Conn r ∈ tier -> skips ex (Conn r) = false -> unusable_answer (net t r) ->
  Fulfilled (reply_time (net t r)) None ∈ tier_promises net t ex tier.
Proof.
  intros Hin Hs Hh. induction tier as [|e tier IH]; [by apply elem_of_nil in Hin |].
  simpl. apply elem_of_cons in Hin as [<-|Hin].
  - rewrite Hs.
    assert (ThreadPool_submit (elem_promise net t (Conn r))
            = Fulfilled (reply_time (net t r)) None) as ->; [| left].
    simpl. destruct (net t r) as [tm o a ret|tm err]; simpl in *; [by rewrite Hh | by subst].
  - destruct (skips ex e); [by apply IH | right; by apply IH].
Qed.

Lemma probed_spec ex tier (r : ref) :
  r ∈ probed ex tier <-> Conn r ∈ tier /\ skips ex (Conn r) = false.
Proof.
  induction tier as [|e tier IH]; simpl.
  - split; [by intros ?%elem_of_nil | by intros [?%elem_of_nil _]].
  - destruct (skips ex e) eqn:Es.
    + rewrite IH. split; [intros [? ?]; split; [by right | done] |].
      intros [[<-|Hin]%elem_of_cons Hs]; [congruence | done].
    + destruct e as [r0|n].
      * rewrite elem_of_cons, IH. split.
        -- intros [->|[? ?]]; [split; [left | done] | split; [by right | done]].
        -- intros [[[= ->]|Hin]%elem_of_cons Hs]; [by left | by right].
      * rewrite IH. split; [intros [? ?]; split; [by right | done] |].
        intros [[?|Hin]%elem_of_cons Hs]; done.
Qed.

Lemma nested_tier net t ex tier :
  (forall e, e ∈ tier -> exists n, e = Nested n) ->
  probed ex tier = [] /\ exists tm, Promise_any (tier_promises net t ex tier) = Rejected tm AggregateError.
Proof.
  intros Hn. split.
  - induction tier as [|e tier IH]; [done |]. simpl.
    destruct (Hn e) as [n ->]; [left |]. rewrite skips_Nested.
    apply IH. intros e He. apply Hn. by right.
  - apply Promise_any_all_rejected.
    induction tier as [|e tier IH]; [constructor |]. simpl.
    destruct (Hn e) as [n ->]; [left |]. rewrite skips_Nested.
    constructor; [done |]. apply IH. intros e He. apply Hn. by right.
Qed.

Lemma nested_tiers net t ex tail :
  (forall tier e, tier ∈ tail -> e ∈ tier -> exists n, e = Nested n) ->
  best_of net t ex tail = None /\ checked_refs net t ex tail = [].
Proof.
  induction tail as [|tier tail IH]; intros Hn; [done |]. simpl.
  destruct (nested_tier net t ex tier) as (-> & tm & ->).
  { intros e He. apply (Hn tier); [left | done]. }
  apply IH. intros T e HT He. apply (Hn T); [by right | done].
Qed.

(** ** The priority map, entry by entry *)

Lemma filter_none {A} (P : A -> Prop) `{!forall x, Decision (P x)} (l : list A) :
  (forall x, x ∈ l -> ~ P x) -> filter P l = [].
Proof.
  induction l as [|x l IH]; intros Hn; [done |].
  rewrite filter_cons_False by (apply Hn; left).
  apply IH. intros y Hy. apply Hn. by right.
Qed.

Lemma map_push_keys_iff k v m x :
  x ∈ (map_push k v m).*1 <-> x = k \/ x ∈ m.*1.
Proof.
  split; [apply map_push_keys |].
  induction m as [|[k' vs] m IH]; simpl.
  - intros [->|?%elem_of_nil]; [left | done].
  - destruct (Z.eqb_spec k' k) as [->|Hne]; simpl.
    + intros [->|H]; [left | done].
    + intros [->|[->|H]%elem_of_cons]; [right; apply IH; by left | left |].
      right. apply IH. by right.
Qed.

Lemma map_push_NoDup k v m : NoDup m.*1 -> NoDup (map_push k v m).*1.
Proof.
  induction m as [|[k' vs] m IH]; simpl; intros Hnd.
  - apply NoDup_singleton.
  - apply NoDup_cons in Hnd as [Hk' Hnd].
    destruct (Z.eqb_spec k' k) as [->|Hne]; simpl.
    + by apply NoDup_cons.
    + apply NoDup_cons. split; [| by apply IH].
      intros [->|H]%map_push_keys; done.
Qed.

Lemma map_push_entry k v m e :
  NoDup m.*1 ->
  e ∈ map_push k v m ->
  (e = (k, [v]) /\ k ∉ m.*1)
  \/ (exists vs, (k, vs) ∈ m /\ e = (k, vs ++ [v]))
  \/ (e.1 <> k /\ e ∈ m).
Proof.
  induction m as [|[k' vs] m IH]; simpl; intros Hnd.
  - intros ->%list_elem_of_singleton. left. split; [done | by intros ?%elem_of_nil].
  - apply NoDup_cons in Hnd as [Hk' Hnd].
    destruct (Z.eqb_spec k' k) as [->|Hne].
    + intros [->|He]%elem_of_cons.
      * right. left. exists vs. split; [left | done].
      * right. right. split; [| by right].
        intros Heq. apply Hk'. rewrite <- Heq. apply list_elem_of_fmap. by exists e.
    + intros [->|He]%elem_of_cons.
      * right. right. split; [done | left].
      * destruct (IH Hnd He) as [[-> Hk]|[(vs' & Hin & ->)|[Hne' Hin]]].
        -- left. split; [done |]. by intros [?|?]%elem_of_cons.
        -- right. left. exists vs'. split; [by right | done].
        -- right. right. split; [done | by right].
Qed.

(** The map holds one entry per priority in use, with the connections of
    that priority in registry order. *)
Lemma connectionPriorities_entries st :
  NoDup (connectionPriorities st).*1
  /\ (forall p, p ∈ (connectionPriorities st).*1 <-> p ∈ priorities st)
  /\ (forall e, e ∈ connectionPriorities st -> e.2 = tier_of st e.1).
Proof.
  unfold connectionPriorities, priorities, tier_of.
  set (prio := fun r => getPriority (obj st r)).
  set (f := fun m c => map_push (getPriority (obj st c)) c m).
  assert (G : forall l done m,
             NoDup m.*1 ->
             (forall p, p ∈ m.*1 <-> p ∈ prio <$> done) ->
             (forall e, e ∈ m -> e.2 = filter (fun r => prio r = e.1) done) ->
             NoDup (fold_left f l m).*1
             /\ (forall p, p ∈ (fold_left f l m).*1 <-> p ∈ prio <$> (done ++ l))
             /\ (forall e, e ∈ fold_left f l m ->
                   e.2 = filter (fun r => prio r = e.1) (done ++ l))).
  { induction l as [|x l IH]; intros done m Hnd Hk He; simpl.
    { rewrite app_nil_r. done. }
    replace (done ++ x :: l) with ((done ++ [x]) ++ l) by (by rewrite <- app_assoc).
    apply IH.
    - by apply map_push_NoDup.
    - intros p. unfold f. rewrite map_push_keys_iff, Hk, fmap_app, elem_of_app.
      simpl. rewrite list_elem_of_singleton. fold (prio x). tauto.
    - intros e Hin. rewrite filter_app.
      destruct (map_push_entry _ _ _ _ Hnd Hin) as [[-> Hnk]|[(vs & Hvs & ->)|[Hne Hm]]]; simpl.
      + rewrite (filter_none _ done); [by rewrite filter_cons_True |].
        intros r Hr Hp. apply Hnk, Hk.
        apply list_elem_of_fmap. by exists r.
      + pose proof (He _ Hvs) as Hv. simpl in Hv. rewrite <- Hv.
        by rewrite filter_cons_True.
      + rewrite <- (He _ Hm), filter_cons_False, app_nil_r; [done |].
        unfold prio. congruence. }
  destruct (G (connections st) [] []) as (H1 & H2 & H3); try done.
  - apply NoDup_nil_2.
  - by intros e ?%elem_of_nil.
Qed.

Lemma strictly_sorted_keys (l : list (Z * list ref)) :
  StronglySorted (goes_before (fun a b : Z * list ref => a.1 - b.1)) l ->
  NoDup l.*1 -> StronglySorted Z.lt l.*1.
Proof.
  induction 1 as [|e l Hs IH Hall]; simpl; intros Hnd; [constructor |].
  apply NoDup_cons in Hnd as [Hnotin Hnd].
  constructor; [by apply IH |].
  apply Forall_forall. intros k (e' & -> & He')%list_elem_of_fmap.
  eapply Forall_forall in Hall; [| done]. unfold goes_before in Hall.
  assert (e.1 <> e'.1).
  { intros Heq. apply Hnotin. rewrite Heq. apply list_elem_of_fmap. by exists e'. }
  lia.
Qed.

Lemma map_has_keys k m : map_has k m = true <-> k ∈ m.*1.
Proof.
  unfold map_has. rewrite existsb_exists. split.
  - intros (e & He & <-%Z.eqb_eq). apply list_elem_of_fmap. exists e.
    split; [done | by apply list_elem_of_In].
  - intros (e & -> & He)%list_elem_of_fmap. exists e.
    split; [by apply list_elem_of_In | by apply Z.eqb_eq].
Qed.

(** The sorted map: its keys are the priorities in use, strictly
    ascending, and each entry holds the connections of its priority. *)
Lemma sorted_priorities st :
  let sorted := Array_sort (fun a b : Z * list ref => a.1 - b.1) (connectionPriorities st) in
  StronglySorted Z.lt sorted.*1
  /\ (forall p, p ∈ sorted.*1 <-> p ∈ priorities st)
  /\ sorted.*2 = tier_of st <$> sorted.*1
  /\ (map_has 0 (connectionPriorities st) = true <-> 0 ∈ sorted.*1).
Proof.
  intros sorted. destruct (connectionPriorities_entries st) as (Hnd & Hkeys & Hent).
  assert (Hperm : sorted ≡ₚ connectionPriorities st) by apply Array_sort_Permutation.
  split; [| split; [| split]].
  - apply strictly_sorted_keys; [| by rewrite Hperm].
    apply Sorted_StronglySorted.
    + intros a b c. unfold goes_before. lia.
    + apply Array_sort_Sorted. intros a b. lia.
  - intros p. by rewrite Hperm.
  - assert (Hall : forall e, e ∈ sorted -> e.2 = tier_of st e.1).
    { intros e He. apply Hent. by rewrite <- Hperm. }
    clearbody sorted. clear Hperm. induction sorted as [|e l IH]; [done |].
    simpl. f_equal; [apply Hall; left |]. apply IH. intros e' He'. apply Hall. by right.
  - rewrite map_has_keys. by rewrite Hperm.
Qed.

Lemma sort_insert_ext {A} (f g : A -> A -> Z) (x : A) (l : list A) :
  (forall y, y ∈ l -> f x y = g x y) -> sort_insert f x l = sort_insert g x l.
Proof.
  induction l as [|y l IH]; simpl; intros H; [done |].
  rewrite (H y) by left. destruct (g x y <=? 0); [done |].
  f_equal. apply IH. intros z Hz. apply H. by right.
Qed.

Lemma Array_sort_ext {A} (f g : A -> A -> Z) (l : list A) :
  (forall x y, x ∈ l -> y ∈ l -> f x y = g x y) -> Array_sort f l = Array_sort g l.
Proof.
  induction l as [|x l IH]; intros H; [done |].
  change (Array_sort f (x :: l)) with (sort_insert f x (Array_sort f l)).
  change (Array_sort g (x :: l)) with (sort_insert g x (Array_sort g l)).
  rewrite <- IH by (intros y z Hy Hz; apply H; by right).
  apply sort_insert_ext. intros y Hy. rewrite Array_sort_Permutation in Hy.
  apply H; [left | by right].
Qed.

(** With priorities written out in full, the tiers are sorted by the
    priorities themselves. *)
Lemma sort_by_parseInt st :
  written_in_full st ->
  Array_sort (fun a b : Z * list ref => parseInt a.1 - parseInt b.1) (connectionPriorities st)
  = Array_sort (fun a b : Z * list ref => a.1 - b.1) (connectionPriorities st).
Proof.
  intros Hfull. apply Array_sort_ext.
  destruct (connectionPriorities_entries st) as (_ & Hkeys & _).
  assert (Hin : forall e, e ∈ connectionPriorities st -> parseInt e.1 = e.1).
  { intros e He. apply parseInt_full.
    assert (Hp : e.1 ∈ priorities st).
    { apply Hkeys. apply list_elem_of_fmap. by exists e. }
    apply list_elem_of_fmap in Hp as (r & -> & Hr). by apply Hfull. }
  intros x y Hx Hy. by rewrite (Hin x Hx), (Hin y Hy).
Qed.

Lemma tiers_shape st :
  written_in_full st ->
  let ps := (Array_sort (fun a b : Z * list ref => a.1 - b.1) (connectionPriorities st)).*1 in
  _getConnectionsInAscendingPriority st
  = if decide (0 ∈ ps)
    then ((fun p => map Conn (tier_of st p)) <$> drop 1 ps)
           ++ [(fun p => Nested (tier_of st p)) <$> take 1 ps]
    else (fun p => map Conn (tier_of st p)) <$> ps.
Proof.
  intros Hfull ps. destruct (sorted_priorities st) as (_ & _ & Hsnd & Hhas).
  unfold _getConnectionsInAscendingPriority. rewrite (sort_by_parseInt st Hfull).
  fold ps in Hsnd, Hhas. rewrite Hsnd.
  destruct (decide (0 ∈ ps)) as [H0|H0].
  - rewrite (proj2 Hhas H0).
    by rewrite <- fmap_drop, <- fmap_take, <- !list_fmap_compose.
  - destruct (map_has 0 (connectionPriorities st)) eqn:E; [exfalso; by apply H0, Hhas |].
    by rewrite <- list_fmap_compose.
Qed.

(** With priorities that are not negative, the tiers the prober can check
    are those of the priorities above 0, in ascending order; what follows
    them holds no connection. *)
Lemma tiers_nonneg st :
  written_in_full st ->
  (forall r, r ∈ connections st -> 0 <= getPriority (obj st r)) ->
  exists qs tail,
    StronglySorted Z.lt qs
    /\ (forall p, p ∈ qs <-> 0 < p /\ p ∈ priorities st)
    /\ _getConnectionsInAscendingPriority st
       = ((fun p => map Conn (tier_of st p)) <$> qs) ++ tail
    /\ (forall tier e, tier ∈ tail -> e ∈ tier -> exists n, e = Nested n).
Proof.
  intros Hfull Hpos. rewrite (tiers_shape st Hfull).
  destruct (sorted_priorities st) as (Hsorted & Hkeys & _ & _).
  set (ps := (Array_sort _ (connectionPriorities st)).*1) in *.
  assert (Hge : forall p, p ∈ ps -> 0 <= p).
  { intros p (r & -> & Hr)%Hkeys%list_elem_of_fmap. by apply Hpos. }
  destruct (decide (0 ∈ ps)) as [H0|H0].
  - destruct ps as [|p0 qs]; [by apply elem_of_nil in H0 |].
    apply StronglySorted_inv in Hsorted as [Hqs Hlt].
    assert (p0 = 0) as ->.
    { apply elem_of_cons in H0 as [->|H0]; [done |].
      eapply Forall_forall in Hlt; [| done].
      specialize (Hge p0 ltac:(left)). lia. }
    exists qs, [[Nested (tier_of st 0)]]. simpl. rewrite drop_0.
    split; [done |]. split; [| split; [done |]].
    + intros p. rewrite <- Hkeys. split.
      * intros Hp. split; [by eapply Forall_forall in Hlt | by right].
      * intros [Hp [->|Hin]%elem_of_cons]; [lia | done].
    + intros tier e ->%list_elem_of_singleton ->%list_elem_of_singleton. by eexists.
  - exists ps, []. rewrite app_nil_r.
    split; [done |]. split; [| split; [done |]].
    + intros p. rewrite <- Hkeys. split; [| by intros [_ ?]].
      intros Hp. split; [| done]. specialize (Hge p Hp).
      destruct (decide (p = 0)) as [->|]; [done | lia].
    + by intros tier e ?%elem_of_nil.
Qed.

(** ** The prober on tiers sorted by priority *)

Lemma elem_of_tier_of st p (r : ref) :
  r ∈ tier_of st p <-> r ∈ connections st /\ getPriority (obj st r) = p.
Proof. unfold tier_of. rewrite list_elem_of_filter. tauto. Qed.

Lemma tier_outcome net t ex st p :
  let candidate (r : ref) := r ∈ tier_of st p /\ skips ex (Conn r) = false in
  match Promise_any (tier_promises net t ex (map Conn (tier_of st p))) with
  | Fulfilled tm (Some b) =>
    candidate b /\ healthy_reply (net t b) /\ reply_time (net t b) = tm
    /\ (forall r, candidate r -> answered (net t r) -> (tm <= reply_time (net t r))%nat)
  | Fulfilled tm None =>
    (exists r', candidate r' /\ unusable_answer (net t r') /\ reply_time (net t r') = tm)
    /\ (forall r, candidate r -> answered (net t r) -> (tm <= reply_time (net t r))%nat)
  | Rejected _ _ => forall r, candidate r -> ~ answered (net t r)
  end.
Proof.
  intros candidate.
  assert (Hans : forall r, candidate r -> answered (net t r) ->
            exists v, Fulfilled (reply_time (net t r)) v
                      ∈ tier_promises net t ex (map Conn (tier_of st p))).
  { intros r [Hr Hs] [Hh|Hu].
    - exists (Some r). apply tier_promises_healthy; [by apply elem_of_map_Conn | done | done].
    - exists None. apply tier_promises_unusable; [by apply elem_of_map_Conn | done | done]. }
  destruct (Promise_any (tier_promises net t ex (map Conn (tier_of st p))))
    as [tm [b|]|tm err] eqn:E.
  - pose proof (Promise_any_fulfilled _ _ _ E) as Hin.
    apply tier_promises_fulfilled in Hin as (Hb%elem_of_map_Conn & Hs & Hh & Htm).
    repeat split; try done.
    intros r Hr Ha. destruct (Hans r Hr Ha) as [v Hv].
    by eapply (Promise_any_earliest _ _ _ E).
  - pose proof (Promise_any_fulfilled _ _ _ E) as Hin.
    apply tier_promises_undefined in Hin as (r' & Hr'%elem_of_map_Conn & Hs & Hu & Htm).
    split; [by exists r' |].
    intros r Hr Ha. destruct (Hans r Hr Ha) as [v Hv].
    by eapply (Promise_any_earliest _ _ _ E).
  - intros r Hr Ha. destruct (Hans r Hr Ha) as [v Hv].
    apply Promise_any_rejected_all in E. eapply Forall_forall in E; [| exact Hv]. done.
Qed.

Lemma best_of_sorted net t ex st qs tail :
  StronglySorted Z.lt qs ->
  (forall tier e, tier ∈ tail -> e ∈ tier -> exists n, e = Nested n) ->
  let T := ((fun p => map Conn (tier_of st p)) <$> qs) ++ tail in
  let lost q (r : ref) :=
    exists r' : ref,
      (r' ∈ tier_of st q /\ skips ex (Conn r') = false)
      /\ unusable_answer (net t r')
      /\ (reply_time (net t r') <= reply_time (net t r))%nat in
  match best_of net t ex T with
  | Some b =>
    exists p,
      (p ∈ qs /\ b ∈ tier_of st p /\ skips ex (Conn b) = false)
      /\ healthy_reply (net t b)
      /\ (forall r : ref,
            r ∈ tier_of st p -> skips ex (Conn r) = false -> answered (net t r) ->
            (reply_time (net t b) <= reply_time (net t r))%nat)
      /\ (forall q (r : ref),
            q ∈ qs -> q < p -> r ∈ tier_of st q -> skips ex (Conn r) = false ->
            healthy_reply (net t r) -> lost q r)
      /\ (forall r : ref,
            r ∈ checked_refs net t ex T
            <-> exists q, q ∈ qs /\ r ∈ tier_of st q /\ skips ex (Conn r) = false /\ q <= p)
  | None =>
    (forall q (r : ref),
       q ∈ qs -> r ∈ tier_of st q -> skips ex (Conn r) = false ->
       healthy_reply (net t r) -> lost q r)
    /\ (forall r : ref,
          r ∈ checked_refs net t ex T
          <-> exists q, q ∈ qs /\ r ∈ tier_of st q /\ skips ex (Conn r) = false)
  end.
Proof.
  intros Hsorted Htail. induction qs as [|p qs IH]; intros T lost.
  - subst T. simpl. destruct (nested_tiers net t ex tail Htail) as [-> ->].
    split.
    + by intros q r ?%elem_of_nil.
    + intros r. split; [by intros ?%elem_of_nil | by intros (q & ?%elem_of_nil & _)].
  - apply StronglySorted_inv in Hsorted as [Hqs Hlt].
    rewrite Forall_forall in Hlt. specialize (IH Hqs). cbv zeta in IH. fold lost in IH.
    subst T.
    set (rest := ((fun p => map Conn (tier_of st p)) <$> qs) ++ tail) in *.
    change (((fun p => map Conn (tier_of st p)) <$> p :: qs) ++ tail)
      with (map Conn (tier_of st p) :: rest).
    assert (Hprobed : forall r : ref,
               r ∈ probed ex (map Conn (tier_of st p))
               <-> r ∈ tier_of st p /\ skips ex (Conn r) = false).
    { intros r. by rewrite probed_spec, elem_of_map_Conn. }
    pose proof (tier_outcome net t ex st p) as Hout. cbv zeta in Hout.
    assert (Hcases :
              (exists tm b, Promise_any (tier_promises net t ex (map Conn (tier_of st p)))
                            = Fulfilled tm (Some b))
              \/ ((forall r : ref, r ∈ tier_of st p -> skips ex (Conn r) = false ->
                     healthy_reply (net t r) -> lost p r)
                  /\ best_of net t ex (map Conn (tier_of st p) :: rest)
                     = best_of net t ex rest
                  /\ checked_refs net t ex (map Conn (tier_of st p) :: rest)
                     = probed ex (map Conn (tier_of st p)) ++ checked_refs net t ex rest)).
    { cbn [best_of checked_refs].
      destruct (Promise_any (tier_promises net t ex (map Conn (tier_of st p))))
        as [tm [b|]|tm err]; [left; by exists tm, b | right | right];
        (split; [| done]).
      - destruct Hout as [(r' & Hr' & Hu & Htm) Hfirst].
        intros r Hr Hsr Hhr. exists r'. split; [done |]. split; [done |].
        rewrite Htm. apply Hfirst; [done | by left].
      - intros r Hr Hsr Hhr. destruct (Hout r); [done | by left]. }
    destruct Hcases as [(tm & b & E)|(Hlost & -> & ->)].
    + cbn [best_of checked_refs]. rewrite E in *.
      destruct Hout as ([Hb Hs] & Hh & Htm & Hfirst).
      exists p. split; [split; [left | done] |]. split; [done |]. split; [| split].
      * intros r Hr Hsr Ha. rewrite Htm. by apply Hfirst.
      * intros q r [->|Hq]%elem_of_cons Hqp; [lia |]. specialize (Hlt q Hq). lia.
      * intros r. rewrite app_nil_r, Hprobed. split.
        -- intros [Hr Hsr]. exists p. repeat split; [left | done | done | lia].
        -- intros (q & [->|Hq]%elem_of_cons & Hr & Hsr & Hle); [done |].
           specialize (Hlt q Hq). lia.
    + clear Hout. destruct (best_of net t ex rest) as [b|].
      * destruct IH as (p' & (Hp' & Hb & Hs) & Hh & Hfirst & Hmin & Hchk).
        exists p'. split; [split; [by right | done] |]. split; [done |].
        split; [done |]. split.
        -- intros q r [->|Hq]%elem_of_cons Hqp Hr Hsr Hhr; [by apply Hlost |].
           by apply Hmin.
        -- intros r. rewrite elem_of_app, Hprobed, Hchk. split.
           ++ intros [[Hr Hsr]|(q & Hq & Hr & Hsr & Hle)].
              ** exists p. repeat split; [left | done | done |].
                 specialize (Hlt p' Hp'). lia.
              ** exists q. repeat split; [by right | done | done | done].
           ++ intros (q & [->|Hq]%elem_of_cons & Hr & Hsr & Hle); [by left |].
              right. by exists q.
      * destruct IH as [Hno Hchk]. split.
        -- intros q r [->|Hq]%elem_of_cons Hr Hsr Hhr; [by apply Hlost | by eapply Hno].
        -- intros r. rewrite elem_of_app, Hprobed, Hchk. split.
           ++ intros [[Hr Hsr]|(q & Hq & Hr & Hsr)].
              ** exists p. repeat split; [left | done | done].
              ** exists q. repeat split; [by right | done | done].
           ++ intros (q & [->|Hq]%elem_of_cons & Hr & Hsr); [by left |].
              right. by exists q.
Qed.

Lemma prober_spec net ex st :
  written_in_full st -> nonnegative st ->
  let t := _timeoutInMs st in
  let T := _getConnectionsInAscendingPriority st in
  match best_of net t ex T with
  | Some b =>
    eligible ex st b /\ healthy_reply (net t b)
    /\ (forall r, eligible ex st r -> getPriority (obj st r) = getPriority (obj st b) ->
          answered (net t r) -> (reply_time (net t b) <= reply_time (net t r))%nat)
    /\ (forall r, eligible ex st r -> getPriority (obj st r) < getPriority (obj st b) ->
          healthy_reply (net t r) -> beaten net t ex st r)
    /\ (forall r : ref,
          r ∈ checked_refs net t ex T
          <-> eligible ex st r /\ getPriority (obj st r) <= getPriority (obj st b))
  | None =>
    (forall r, eligible ex st r -> healthy_reply (net t r) -> beaten net t ex st r)
    /\ (forall r : ref, r ∈ checked_refs net t ex T <-> eligible ex st r)
  end.
Proof.
  intros Hfull Hpos t T. subst T.
  destruct (tiers_nonneg st Hfull Hpos) as (qs & tail & Hsorted & Hqs & -> & Htail).
  pose proof (best_of_sorted net t ex st qs tail Hsorted Htail) as H. cbv zeta in H.
  assert (Hin : forall r : ref, eligible ex st r ->
            getPriority (obj st r) ∈ qs /\ r ∈ tier_of st (getPriority (obj st r))).
  { intros r (Hr & _ & Hp). split; [| by apply elem_of_tier_of].
    apply Hqs. split; [done |]. apply list_elem_of_fmap. by exists r. }
  assert (Hel : forall q (r : ref), q ∈ qs -> r ∈ tier_of st q -> skips ex (Conn r) = false ->
            eligible ex st r /\ getPriority (obj st r) = q).
  { intros q r Hq [Hr <-]%elem_of_tier_of Hs. split; [| done].
    split; [done |]. split; [done |]. by apply Hqs in Hq as [? _]. }
  assert (Hbeaten : forall r : ref, eligible ex st r ->
            (exists r' : ref,
               (r' ∈ tier_of st (getPriority (obj st r)) /\ skips ex (Conn r') = false)
               /\ unusable_answer (net t r')
               /\ (reply_time (net t r') <= reply_time (net t r))%nat) ->
            beaten net t ex st r).
  { intros r Hr (r' & [Hr' Hs'] & Hu & Hle). destruct (Hin r Hr) as [Hq _].
    destruct (Hel _ r' Hq Hr' Hs') as [He' Hp']. by exists r'. }
  destruct (best_of net t ex _) as [b|].
  - destruct H as (p & (Hp & Hb & Hs) & Hh & Hfirst & Hmin & Hchk).
    destruct (Hel p b Hp Hb Hs) as [Hbe <-].
    split; [done |]. split; [done |]. split; [| split].
    + intros r Hr Hpr Ha. destruct (Hin r Hr) as [Hq Ht]. rewrite Hpr in Ht.
      apply Hfirst; [done | apply Hr | done].
    + intros r Hr Hlt Hhr. destruct (Hin r Hr) as [Hq Ht].
      apply Hbeaten; [done |]. apply Hmin; [done | done | done | apply Hr | done].
    + intros r. rewrite Hchk. split.
      * intros (q & Hq & Hr & Hsr & Hle). destruct (Hel q r Hq Hr Hsr) as [? ->]. done.
      * intros [Hr Hle]. destruct (Hin r Hr) as [Hq Ht].
        exists (getPriority (obj st r)). repeat split; try done. apply Hr.
  - destruct H as [Hno Hchk]. split.
    + intros r Hr Hhr. destruct (Hin r Hr) as [Hq Ht].
      apply Hbeaten; [done |]. apply Hno; [done | done | apply Hr | done].
    + intros r. rewrite Hchk. split.
      * intros (q & Hq & Hr & Hsr). by destruct (Hel q r Hq Hr Hsr) as [? _].
      * intros Hr. destruct (Hin r Hr) as [Hq Ht].
        exists (getPriority (obj st r)). repeat split; try done. apply Hr.
Qed.

Lemma best_of_Some net t ex tiers b :
  best_of net t ex tiers = Some b ->
  (exists tier, tier ∈ tiers /\ Conn b ∈ tier) /\ skips ex (Conn b) = false
  /\ healthy_reply (net t b) /\ b ∈ checked_refs net t ex tiers.
Proof.
  induction tiers as [|tier tiers IH]; simpl; [done |].
  assert (Hrest : best_of net t ex tiers = Some b ->
            (exists tier0, tier0 ∈ tier :: tiers /\ Conn b ∈ tier0)
            /\ skips ex (Conn b) = false /\ healthy_reply (net t b)
            /\ b ∈ probed ex tier ++ checked_refs net t ex tiers).
  { intros H. destruct (IH H) as ((T & HT & Hb) & Hs & Hh & Hc).
    split; [exists T; split; [by right | done] |]. split; [done |]. split; [done |].
    apply elem_of_app. by right. }
  destruct (Promise_any (tier_promises net t ex tier)) as [tm [b'|]|tm err] eqn:E;
    [| done | done].
  intros [= ->]. pose proof (Promise_any_fulfilled _ _ _ E) as Hin.
  apply tier_promises_fulfilled in Hin as (Hb & Hs & Hh & _).
  split; [exists tier; split; [left | done] |]. split; [done |]. split; [done |].
  rewrite app_nil_r. by apply probed_spec.
Qed.

Lemma checked_refs_candidates net t ex tiers (r : ref) :
  r ∈ checked_refs net t ex tiers ->
  (exists tier, tier ∈ tiers /\ Conn r ∈ tier) /\ skips ex (Conn r) = false.
Proof.
  induction tiers as [|tier tiers IH]; simpl; [by intros ?%elem_of_nil |].
  intros [[Hr Hs]%probed_spec|Hin]%elem_of_app.
  - split; [exists tier; split; [left | done] | done].
  - assert (Hrest : r ∈ checked_refs net t ex tiers ->
              (exists tier0, tier0 ∈ tier :: tiers /\ Conn r ∈ tier0)
              /\ skips ex (Conn r) = false).
    { intros H. destruct (IH H) as ((T & HT & Hr) & Hs).
      split; [exists T; split; [by right | done] | done]. }
    destruct (Promise_any (tier_promises net t ex tier)) as [tm [b|]|tm err];
      [by apply elem_of_nil in Hin | by apply Hrest | by apply Hrest].
Qed.

Lemma usable_after_check net t (r : ref) c :
  healthy_reply (net t r) -> usable (after_check net t r c) = true.
Proof. unfold after_check, healthy_reply, usable. by destruct (net t r). Qed.

Lemma wf_registry_five : wf registry_five.
Proof. apply wf_manager_of; [simpl; lia | done]. Qed.

Lemma nonnegative_registry_five : nonnegative registry_five.
Proof. unfold nonnegative. apply Forall_forall. repeat constructor; by vm_compute. Qed.

Lemma written_in_full_registry_five : written_in_full registry_five.
Proof. unfold written_in_full. apply Forall_forall. repeat constructor; by vm_compute. Qed.

Lemma written_in_full_same_registry st st' :
  same_registry st st' -> written_in_full st -> written_in_full st'.
Proof.
  intros Hsr H r Hr. rewrite (sr_priority _ _ Hsr). apply H.
  by rewrite <- (sr_connections _ _ Hsr).
Qed.

(** ** _getConnectionsInAscendingPriority and getBestAvailableConnection *)

(** X1: with priorities below 1e21 in absolute value,
    _getConnectionsInAscendingPriority makes one tier per priority in
    use, in strictly ascending order of priority, each holding the
    registered connections of that priority in registry order.  When some
    connection has priority 0, the first tier (the one of the lowest
    priority in use) is taken out and what is appended in its place is a
    one-element list holding that tier as an array.  (From 1e21 on a
    priority is ordered by its leading digit: see
    [tiers_beyond_1e21].) *)
Theorem tiers_by_priority st :
  written_in_full st ->
  exists ps,
    StronglySorted Z.lt ps
    /\ (forall p, p ∈ ps <-> p ∈ priorities st)
    /\ _getConnectionsInAscendingPriority st
       = if decide (0 ∈ ps)
         then ((fun p => map Conn (tier_of st p)) <$> drop 1 ps)
                ++ [(fun p => Nested (tier_of st p)) <$> take 1 ps]
         else (fun p => map Conn (tier_of st p)) <$> ps.
Proof.
  intros Hfull.
  exists (Array_sort (fun a b : Z * list ref => a.1 - b.1) (connectionPriorities st)).*1.
  destruct (sorted_priorities st) as (Hsorted & Hkeys & _ & _).
  split; [done |]. split; [done |]. by apply tiers_shape.
Qed.

Lemma tiers_by_priority_witness :
  exists ps,
    StronglySorted Z.lt ps
    /\ (forall p, p ∈ ps <-> p ∈ priorities registry_five)
    /\ _getConnectionsInAscendingPriority registry_five
       = if decide (0 ∈ ps)
         then ((fun p => map Conn (tier_of registry_five p)) <$> drop 1 ps)
                ++ [(fun p => Nested (tier_of registry_five p)) <$> take 1 ps]
         else (fun p => map Conn (tier_of registry_five p)) <$> ps.
Proof. apply (tiers_by_priority registry_five written_in_full_registry_five). Defined.

(** From 1e21 on the order is another one: the tier of priority 1e21,
    which parseInt reads as 1, comes before the tier of priority 2. *)
Lemma tiers_beyond_1e21 :
  parseInt (10 ^ 21) = 1
  /\ priorities registry_A2_B1e21 = [2; 10 ^ 21]
  /\ _getConnectionsInAscendingPriority registry_A2_B1e21 = [[Conn 1%nat]; [Conn 0%nat]].
Proof. repeat split; by vm_compute. Qed.

(** X2: getBestAvailableConnection changes nothing in the manager but
    status fields (registry, current connection, credentials, listeners
    and notifications stay as they are), and the only records it touches
    are those of registered connections that are not excluded; such a
    record then carries the status the network replied. *)
Theorem getBestAvailableConnection_checks_only_candidates net ex st :
  wf st ->
  let t := _timeoutInMs st in
  let st' := snd (getBestAvailableConnection net ex st) in
  status_only st st'
  /\ forall r : ref,
      obj st' r = obj st r
      \/ (r ∈ connections st /\ skips ex (Conn r) = false
          /\ obj st' r = after_check net t r (obj st r)).
Proof.
  intros Hwf t st'. destruct (getBestAvailableConnection_run net ex st Hwf) as (_ & Hs & Ho).
  split; [done |]. intros r. subst st'. rewrite Ho.
  destruct (decide (r ∈ checked_refs net (_timeoutInMs st) ex
                         (_getConnectionsInAscendingPriority st))) as [Hin|Hnin]; [| by left].
  right. destruct (checked_refs_candidates _ _ _ _ _ Hin) as ((tier & Ht & Hr) & Hsk).
  split; [by eapply tiers_elems |]. done.
Qed.

Lemma getBestAvailableConnection_checks_only_candidates_witness :
  let st' := snd (getBestAvailableConnection mixed_network (Some [Some 1%nat]) registry_five) in
  status_only registry_five st'
  /\ forall r : ref,
      obj st' r = obj registry_five r
      \/ (r ∈ connections registry_five /\ skips (Some [Some 1%nat]) (Conn r) = false
          /\ obj st' r = after_check mixed_network (_timeoutInMs registry_five) r
                                     (obj registry_five r)).
Proof.
  apply (getBestAvailableConnection_checks_only_candidates
           mixed_network (Some [Some 1%nat]) registry_five wf_registry_five).
Defined.

(** X3: a connection returned by getBestAvailableConnection is registered
    and not excluded, the network answered its check as online and not
    unauthenticated, and its record says so afterwards. *)
Theorem getBestAvailableConnection_winner_is_usable net ex st b :
  wf st ->
  fst (getBestAvailableConnection net ex st) = Return (Some b) ->
  let st' := snd (getBestAvailableConnection net ex st) in
  b ∈ connections st
  /\ skips ex (Conn b) = false
  /\ healthy_reply (net (_timeoutInMs st) b)
  /\ obj st' b = after_check net (_timeoutInMs st) b (obj st b)
  /\ usable (obj st' b) = true.
Proof.
  intros Hwf Hres st'.
  destruct (getBestAvailableConnection_run net ex st Hwf) as (Hr & _ & Ho).
  rewrite Hr in Hres. injection Hres as Hres.
  destruct (best_of_Some _ _ _ _ _ Hres) as ((tier & Ht & Hb) & Hs & Hh & Hc).
  assert (Hob : obj st' b = after_check net (_timeoutInMs st) b (obj st b)).
  { subst st'. rewrite Ho. by rewrite decide_True. }
  split; [by eapply tiers_elems |]. split; [done |]. split; [done |]. split; [done |].
  rewrite Hob. by apply usable_after_check.
Qed.

Lemma getBestAvailableConnection_winner_is_usable_witness :
  let st' := snd (getBestAvailableConnection mixed_network None registry_five) in
  2%nat ∈ connections registry_five
  /\ skips None (Conn 2%nat) = false
  /\ healthy_reply (mixed_network (_timeoutInMs registry_five) 2%nat)
  /\ obj st' 2%nat = after_check mixed_network (_timeoutInMs registry_five) 2%nat
                                 (obj registry_five 2%nat)
  /\ usable (obj st' 2%nat) = true.
Proof.
  apply (getBestAvailableConnection_winner_is_usable
           mixed_network None registry_five 2%nat wf_registry_five).
  reflexivity.
Defined.

(** X4: with priorities that are not negative and below 1e21,
    getBestAvailableConnection settles each tier by its first answer.
    The connection it returns is registered, not excluded, of a priority
    above 0 and answered as usable; no candidate of its priority answered
    before it, as usable or not; and every usable candidate of a smaller
    priority number lost its tier, a candidate of that priority having
    been answered as unusable no later.  It returns undefined only when
    every usable candidate lost its tier in that way.  So when no
    candidate is answered as unusable, the connection returned is the
    best usable one (smallest priority number, then earliest answer), and
    undefined means that there is none.  It never throws. *)
Theorem getBestAvailableConnection_first_answer_decides net ex st :
  wf st -> written_in_full st -> nonnegative st ->
  let t := _timeoutInMs st in
  match fst (getBestAvailableConnection net ex st) with
  | Return (Some b) =>
    eligible ex st b /\ healthy_reply (net t b)
    /\ (forall r, eligible ex st r -> getPriority (obj st r) = getPriority (obj st b) ->
          answered (net t r) -> (reply_time (net t b) <= reply_time (net t r))%nat)
    /\ (forall r, eligible ex st r -> healthy_reply (net t r) ->
          getPriority (obj st b) <= getPriority (obj st r) \/ beaten net t ex st r)
  | Return None =>
    forall r, eligible ex st r -> healthy_reply (net t r) -> beaten net t ex st r
  | Throw _ => False
  end.
Proof.
  intros Hwf Hfull Hpos t. subst t.
  destruct (getBestAvailableConnection_run net ex st Hwf) as (-> & _ & _).
  pose proof (prober_spec net ex st Hfull Hpos) as H. cbv zeta in H.
  destruct (best_of net _ ex _) as [b|].
  - destruct H as (Hb & Hh & Hfirst & Hmin & _).
    split; [done |]. split; [done |]. split; [done |].
    intros r Hr Hhr.
    destruct (Z.le_gt_cases (getPriority (obj st b)) (getPriority (obj st r)));
      [by left | right]. apply Hmin; [done | lia | done].
  - by destruct H as [? _].
Qed.

Lemma getBestAvailableConnection_first_answer_decides_witness :
  match fst (getBestAvailableConnection mixed_network None registry_five) with
  | Return (Some b) =>
    eligible None registry_five b
    /\ healthy_reply (mixed_network (_timeoutInMs registry_five) b)
    /\ (forall r, eligible None registry_five r ->
          getPriority (obj registry_five r) = getPriority (obj registry_five b) ->
          answered (mixed_network (_timeoutInMs registry_five) r) ->
          (reply_time (mixed_network (_timeoutInMs registry_five) b)
           <= reply_time (mixed_network (_timeoutInMs registry_five) r))%nat)
    /\ (forall r, eligible None registry_five r ->
          healthy_reply (mixed_network (_timeoutInMs registry_five) r) ->
          getPriority (obj registry_five b) <= getPriority (obj registry_five r)
          \/ beaten mixed_network (_timeoutInMs registry_five) None registry_five r)
  | Return None =>
    forall r, eligible None registry_five r ->
              healthy_reply (mixed_network (_timeoutInMs registry_five) r) ->
              beaten mixed_network (_timeoutInMs registry_five) None registry_five r
  | Throw _ => False
  end.
Proof.
  apply (getBestAvailableConnection_first_answer_decides
           mixed_network None registry_five
           wf_registry_five written_in_full_registry_five nonnegative_registry_five).
Defined.

(** The first answer of a tier decides it.  On [B_offline_first], A
    cannot be reached; B answers first in its tier, as offline, and the
    tier is given up although C, of the same priority, answers as usable;
    the connection returned is D, of the next priority. *)
Lemma first_answer_unusable_example :
  let t := _timeoutInMs registry_five in
  fst (getBestAvailableConnection B_offline_first None registry_five) = Return (Some 3%nat)
  /\ eligible None registry_five 2%nat
  /\ healthy_reply (B_offline_first t 2%nat)
  /\ getPriority (obj registry_five 2%nat) < getPriority (obj registry_five 3%nat)
  /\ beaten B_offline_first t None registry_five 2%nat.
Proof.
  assert (He : forall r, (r < 4)%nat -> 0 < getPriority (obj registry_five r) ->
                         eligible None registry_five r).
  { intros r Hr Hp. split; [| done]. apply list_elem_of_In.
    change (connections registry_five) with (seq 0 5). apply in_seq. lia. }
  cbv zeta. split; [by vm_compute |].
  split; [apply He; [lia | by vm_compute] |].
  split; [by vm_compute |]. split; [by vm_compute |].
  exists 1%nat. split; [apply He; [lia | by vm_compute] |].
  split; [by vm_compute |]. split; [by vm_compute |]. vm_compute. lia.
Qed.

(** X5: with priorities that are not negative and below 1e21,
    getBestAvailableConnection goes tier by tier and stops at the tier of
    the connection it returns.  The record of a connection that is not a
    candidate (not registered, excluded, or of priority 0) or whose
    priority number is above the winner's is left as it was: the tiers
    after the winner's are not checked.  Any record is either as it was
    or carries the reply to its check. *)
Theorem getBestAvailableConnection_stops_at_winning_tier net ex st (r : ref) :
  wf st -> written_in_full st -> nonnegative st ->
  let t := _timeoutInMs st in
  let st' := snd (getBestAvailableConnection net ex st) in
  let reached :=
    match fst (getBestAvailableConnection net ex st) with
    | Return (Some b) => getPriority (obj st r) <= getPriority (obj st b)
    | _ => True
    end in
  (~ (eligible ex st r /\ reached) -> obj st' r = obj st r)
  /\ (obj st' r = obj st r \/ obj st' r = after_check net t r (obj st r)).
Proof.
  intros Hwf Hfull Hpos t st' reached. subst t st' reached.
  destruct (getBestAvailableConnection_run net ex st Hwf) as (-> & _ & Ho).
  rewrite Ho.
  pose proof (prober_spec net ex st Hfull Hpos) as H. cbv zeta in H.
  split; [| destruct (decide _); [by right | by left]].
  destruct (best_of net _ ex _) as [b|].
  - destruct H as (_ & _ & _ & _ & Hchk).
    intros Hr. rewrite decide_False; [done |]. by rewrite Hchk.
  - destruct H as [_ Hchk].
    intros Hr. rewrite decide_False; [done |]. rewrite Hchk. tauto.
Qed.

Lemma getBestAvailableConnection_stops_at_winning_tier_witness :
  fst (getBestAvailableConnection mixed_network None registry_five) = Return (Some 2%nat)
  /\ getPriority (obj registry_five 2%nat) = 2
  /\ getPriority (obj registry_five 3%nat) = 3
  /\ obj (snd (getBestAvailableConnection mixed_network None registry_five)) 3%nat
     = obj registry_five 3%nat.
Proof.
  split; [reflexivity |]. split; [reflexivity |]. split; [reflexivity |].
  apply (getBestAvailableConnection_stops_at_winning_tier
           mixed_network None registry_five 3%nat
           wf_registry_five written_in_full_registry_five nonnegative_registry_five).
  intros [_ Hle]. vm_compute in Hle. by apply Hle.
Defined.

(** ** The registry *)

Lemma find_snoc_other {A} (P : A -> bool) (l : list A) (x : A) :
  P x = false -> List.find P (l ++ [x]) = List.find P l.
Proof.
  intros Hx. induction l as [|y l IH]; simpl; [by rewrite Hx |].
  by destruct (P y).
Qed.

Lemma find_first {A} (P : A -> bool) (l : list A) :
  match List.find P l with
  | Some x => exists pre post, l = pre ++ x :: post /\ P x = true
                               /\ forall y, y ∈ pre -> P y = false
  | None => forall y, y ∈ l -> P y = false
  end.
Proof.
  induction l as [|y l IH]; simpl; [by intros y ?%elem_of_nil |].
  destruct (P y) eqn:Ey.
  - exists [], l. split; [done |]. split; [done |]. by intros z ?%elem_of_nil.
  - destruct (List.find P l) as [x|].
    + destruct IH as (pre & post & -> & Hx & Hpre).
      exists (y :: pre), post. split; [done |]. split; [done |].
      intros z [->|Hz]%elem_of_cons; [done | by apply Hpre].
    + intros z [->|Hz]%elem_of_cons; [done | by apply IH].
Qed.

(** X6: getConnectionByUri returns the first connection of the registry,
    in registration order, that has the URI, and undefined exactly when
    no registered connection has it. *)
Theorem getConnectionByUri_first_match uri st :
  match getConnectionByUri uri st with
  | Some r =>
    exists pre post,
      connections st = pre ++ r :: post
      /\ getUri (obj st r) = uri
      /\ forall r', r' ∈ pre -> getUri (obj st r') <> uri
  | None => forall r, r ∈ connections st -> getUri (obj st r) <> uri
  end.
Proof.
  unfold getConnectionByUri.
  pose proof (find_first (fun r => String.eqb (getUri (obj st r)) uri) (connections st)) as H.
  destruct (List.find _ (connections st)) as [r|].
  - destruct H as (pre & post & Hl & Hr%String.eqb_eq & Hpre).
    exists pre, post. split; [done |]. split; [done |].
    intros r' Hr'%Hpre. by apply String.eqb_neq.
  - intros r Hr%H. by apply String.eqb_neq.
Qed.

(** X7: addConnection of a connection whose URI is not registered returns
    normally and appends the connection to the registry: a lookup of its
    URI then gives this very connection, lookups of other URIs are as
    before, no record, current connection or notification changes, and
    adding the connection a second time fails and changes nothing. *)
Theorem addConnection_then_lookup (r : ref) st :
  wf st -> ~ registered (getUri (obj st r)) st ->
  let st' := snd (addConnection r st) in
  fst (addConnection r st) = Return tt
  /\ connections st' = connections st ++ [r]
  /\ getConnectionByUri (getUri (obj st r)) st' = Some r
  /\ (forall uri, uri <> getUri (obj st r) ->
        getConnectionByUri uri st' = getConnectionByUri uri st)
  /\ objs st' = objs st
  /\ _currentConnection st' = _currentConnection st
  /\ notified st' = notified st
  /\ addConnection r st' = (Throw (MoneroError "Connection URI already exists"), st').
Proof.
  intros Hwf Hnew st'. subst st'. rewrite (addConnection_unregistered r st Hnew). simpl.
  set (st' := write_array (_connections st) (connections st ++ [r]) st).
  assert (Hc : connections st' = connections st ++ [r])
    by (apply connections_write_array, Hwf).
  assert (Hfind : getConnectionByUri (getUri (obj st r)) st' = Some r).
  { unfold getConnectionByUri. rewrite Hc. apply find_snoc.
    - exact (proj2 (getConnectionByUri_None (getUri (obj st r)) st) Hnew).
    - by apply String.eqb_eq. }
  split; [done |]. split; [done |]. split; [done |]. split; [| split; [done |]].
  - intros uri Hne. unfold getConnectionByUri. rewrite Hc.
    apply find_snoc_other. apply String.eqb_neq. congruence.
  - split; [done |]. split; [done |].
    apply addConnection_registered. apply getConnectionByUri_Some in Hfind as [Hin Huri].
    unfold registered, uris. apply list_elem_of_fmap. by exists r.
Qed.

Lemma addConnection_then_lookup_witness :
  let st' := snd (addConnection 1%nat registry_A_without_B) in
  fst (addConnection 1%nat registry_A_without_B) = Return tt
  /\ connections st' = connections registry_A_without_B ++ [1%nat]
  /\ getConnectionByUri (getUri (obj registry_A_without_B 1%nat)) st' = Some 1%nat
  /\ (forall uri, uri <> getUri (obj registry_A_without_B 1%nat) ->
        getConnectionByUri uri st' = getConnectionByUri uri registry_A_without_B)
  /\ objs st' = objs registry_A_without_B
  /\ _currentConnection st' = _currentConnection registry_A_without_B
  /\ notified st' = notified registry_A_without_B
  /\ addConnection 1%nat st' = (Throw (MoneroError "Connection URI already exists"), st').
Proof.
  apply (addConnection_then_lookup 1%nat registry_A_without_B).
  - apply wf_manager_of; [simpl; lia | done].
  - unfold registered. apply (bool_decide_unpack _). by vm_compute.
Defined.

(** ** Listeners *)

Lemma State_eta st :
  mkState (objs st) (arrs st) (_connections st) (_currentConnection st) (_listeners st)
          (_autoSwitch st) (_timeoutInMs st) (notified st) (handled st) = st.
Proof. by destruct st. Qed.

Lemma GenUtils_remove_absent id ls :
  (forall l, l ∈ ls -> lid l <> id) -> GenUtils_remove id ls = ls.
Proof.
  intros H. unfold GenUtils_remove. induction ls as [|l ls IH]; [done |].
  rewrite filter_cons_True by (apply H; left).
  f_equal. apply IH. intros l' Hl'. apply H. by right.
Qed.

Lemma existsb_absent id ls :
  (forall l, l ∈ ls -> lid l <> id) -> existsb (fun l => Nat.eqb (lid l) id) ls = false.
Proof.
  intros H. apply not_true_iff_false. intros (l & Hl & Heq%Nat.eqb_eq)%existsb_exists.
  by apply (H l); [apply list_elem_of_In |].
Qed.

(** X8: a listener that is added and then removed leaves the manager as
    it was, when no listener with its identity was registered before;
    removing a listener that is not registered throws and changes
    nothing. *)
Theorem removeListener_after_addListener listener st :
  (forall l, l ∈ _listeners st -> lid l <> lid listener) ->
  fst (addListener listener st) = Return tt
  /\ _listeners (snd (addListener listener st)) = _listeners st ++ [listener]
  /\ removeListener listener (snd (addListener listener st)) = (Return tt, st)
  /\ removeListener listener st
     = (Throw (MoneroError "Monero connection manager does not contain listener to remove"),
        st).
Proof.
  intros Hnew. split; [done |]. split; [done |]. split.
  - unfold removeListener, addListener, modify. cbn [snd _listeners set_listeners].
    rewrite existsb_app. simpl. rewrite Nat.eqb_refl, orb_true_r.
    unfold set_listeners. cbn. unfold GenUtils_remove.
    rewrite filter_app, filter_cons_False, filter_nil, app_nil_r by (intros H; by apply H).
    fold (GenUtils_remove (lid listener) (_listeners st)).
    rewrite GenUtils_remove_absent by done. by rewrite State_eta.
  - unfold removeListener. by rewrite existsb_absent.
Qed.

Lemma removeListener_after_addListener_witness :
  fst (addListener (mkListener 3 [] (Returns (Fulfilled 0 tt))) first_throws) = Return tt
  /\ _listeners (snd (addListener (mkListener 3 [] (Returns (Fulfilled 0 tt))) first_throws))
     = _listeners first_throws ++ [mkListener 3 [] (Returns (Fulfilled 0 tt))]
  /\ removeListener (mkListener 3 [] (Returns (Fulfilled 0 tt)))
       (snd (addListener (mkListener 3 [] (Returns (Fulfilled 0 tt))) first_throws))
     = (Return tt, first_throws)
  /\ removeListener (mkListener 3 [] (Returns (Fulfilled 0 tt))) first_throws
     = (Throw (MoneroError "Monero connection manager does not contain listener to remove"),
        first_throws).
Proof.
  apply (removeListener_after_addListener (mkListener 3 [] (Returns (Fulfilled 0 tt)))
                                          first_throws).
  intros l Hl. apply list_elem_of_In in Hl. simpl in Hl.
  destruct Hl as [<-|[<-|[]]]; simpl; lia.
Defined.

(** ** disconnect *)


(** ** setConnection *)

Lemma connections_alloc c st : connections (fst (alloc c st)) = connections st.
Proof. done. Qed.

Lemma connections_write_obj r c st : connections (write_obj r c st) = connections st.
Proof. done. Qed.

Lemma connections_set_currentConnection c st :
  connections (set_currentConnection c st) = connections st.
Proof. done. Qed.

(** X10: setConnection with a URI returns normally and makes the
    connection registered under that URI the current one, registering a
    new connection (no credentials, priority 0, status unknown, hence not
    connected) when the URI is not registered yet.  No existing record
    changes: credentials, priority and status of the selected connection
    are kept. *)
Theorem setConnection_uri_makes_current uri st :
  wf st ->
  let st' := snd (setConnection (AString uri) st) in
  fst (setConnection (AString uri) st) = Return tt
  /\ already_current uri st'
  /\ (forall r, (r < length (objs st))%nat -> obj st' r = obj st r)
  /\ match getConnectionByUri uri st with
     | Some c =>
       _currentConnection st' = Some c
       /\ connections st' = connections st
       /\ objs st' = objs st
     | None =>
       _currentConnection st' = Some (length (objs st))
       /\ connections st' = connections st ++ [length (objs st)]
       /\ obj st' (length (objs st)) = new_MoneroRpcConnection uri
       /\ isConnected st' = false
     end.
Proof.
  intros Hwf st'. subst st'.
  destruct (getConnectionByUri uri st) as [c|] eqn:E.
  - rewrite (setConnection_string_registered uri c st E). cbn [fst snd].
    split; [done |].
    destruct (same_ref (_currentConnection st) (Some c)) eqn:Es.
    + apply same_ref_true in Es.
      split; [by exists c |]. split; [done |]. done.
    + set (st1 := set_currentConnection (Some c) st).
      destruct (after_notify_frame (Some c) st1) as (Ho & Ha & Hc & Hcur & _).
      split.
      { exists c. split; [| done].
        rewrite (getConnectionByUri_ext uri st1 (after_notify (Some c) st1)) by done.
        done. }
      split; [intros r _; by rewrite obj_after_notify |].
      split; [done |]. split; [by rewrite connections_after_notify | done].
  - rewrite (setConnection_string_unregistered uri st Hwf E). cbn [fst snd].
    set (n := length (objs st)).
    set (st0 := fst (alloc (new_MoneroRpcConnection uri) st)).
    set (st1 := write_array (_connections st) (connections st ++ [n]) st0).
    set (st2 := set_currentConnection (Some n) st1).
    assert (Hconn : connections (after_notify (Some n) st2) = connections st ++ [n]).
    { rewrite connections_after_notify. unfold st2.
      rewrite connections_set_currentConnection. unfold st1.
      change (_connections st) with (_connections st0).
      change (connections st) with (connections st0).
      apply connections_write_array. apply (wf_array _ Hwf). }
    assert (Hold : forall r, (r < n)%nat -> obj (after_notify (Some n) st2) r = obj st r).
    { intros r Hr. rewrite obj_after_notify.
      change (obj st2 r) with (obj st0 r). by apply obj_alloc_old. }
    assert (Hnew : obj (after_notify (Some n) st2) n = new_MoneroRpcConnection uri).
    { rewrite obj_after_notify. change (obj st2 n) with (obj st0 n). apply obj_alloc_new. }
    assert (Hcur : _currentConnection (after_notify (Some n) st2) = Some n)
      by (by rewrite current_after_notify).
    split; [done |]. split.
    { exists n. split; [| done]. unfold getConnectionByUri. rewrite Hconn.
      apply find_snoc; [| rewrite Hnew; by apply String.eqb_eq].
      rewrite <- E. unfold getConnectionByUri. apply find_ext.
      intros r Hr. rewrite Hold; [done |]. by apply wf_valid. }
    split; [done |]. split; [done |]. split; [done |]. split; [done |].
    unfold isConnected. by rewrite Hcur, Hnew.
Qed.

Lemma setConnection_uri_makes_current_witness :
  let st' := snd (setConnection (AString "B") registry_A1_Z0) in
  fst (setConnection (AString "B") registry_A1_Z0) = Return tt
  /\ already_current "B" st'
  /\ (forall r, (r < length (objs registry_A1_Z0))%nat -> obj st' r = obj registry_A1_Z0 r)
  /\ _currentConnection st' = Some 2%nat
  /\ connections st' = connections registry_A1_Z0 ++ [2%nat]
  /\ obj st' 2%nat = new_MoneroRpcConnection "B"
  /\ isConnected st' = false.
Proof.
  apply (setConnection_uri_makes_current "B" registry_A1_Z0 wf_registry_A1_Z0).
Defined.



(** ** The check cycle, step by step *)

#[local] Instance same_registry_refl : Reflexive same_registry.
Proof. by intros st; split. Qed.

#[local] Instance same_registry_trans : Transitive same_registry.
Proof.
  intros a b c [] []. split; intros; etrans; eauto.
Qed.

Lemma same_registry_status_only st st' : status_only st st' -> same_registry st st'.
Proof.
  intros H. split; try apply H. by apply connections_status_only.
Qed.

Lemma same_registry_after_notify c st : same_registry st (after_notify c st).
Proof.
  destruct (after_notify_frame c st) as (Ho & Ha & Hc & Hcur & Hau & Ht & Hn).
  split; try done; try (intros r; by rewrite obj_after_notify).
  - apply connections_after_notify.
  - by rewrite Ho.
Qed.

Lemma same_registry_set_currentConnection c st :
  same_registry st (set_currentConnection c st).
Proof. by split. Qed.

Lemma setConnection_undefined_run st :
  setConnection AUndefined st
  = (Return tt,
     match _currentConnection st with
     | Some _ => after_notify None (set_currentConnection None st)
     | None => st
     end).
Proof.
  unfold setConnection. rewrite bind_gets.
  destruct (_currentConnection st) as [c|] eqn:Ec; [| done].
  assert (same_ref (Some c) None = false) as -> by (by apply bool_decide_eq_false).
  rewrite bind_modify.
  by destruct (bind_onConnectionChanged None (fun _ => mret tt)
                 (set_currentConnection None st)) as [p ->].
Qed.

(** What the first statement of checkConnection leaves behind. *)
Lemma check_current_frame net c st :
  let st1 := snd (check_current net c st) in
  same_registry st st1
  /\ _currentConnection st1 = _currentConnection st
  /\ (forall r, Some r <> c -> obj st1 r = obj st r)
  /\ (forall r, c = Some r -> (r < length (objs st))%nat ->
        is_Return (fst (check_current net c st)) = true ->
        exists t o a ret, net (_timeoutInMs st) r = Reply t o a ret
                          /\ obj st1 r = set_status o a (obj st r)).
Proof.
  intros st1. subst st1. destruct c as [r|].
  2:{ split; [reflexivity |]. split; [done |]. split; [done |]. by intros r [=]. }
  pose proof (check_current_run net r st) as H.
  destruct (net (_timeoutInMs st) r) as [t o a [|]|t e] eqn:En; cbv zeta in H.
  - destruct H as [res ->]. cbn [fst snd].
    set (st1 := write_obj r (set_status o a (obj st r)) st).
    split; [| split; [| split]].
    + etrans; [apply same_registry_status_only, status_only_write |].
      apply same_registry_after_notify.
    + by rewrite current_after_notify.
    + intros r' Hr'. rewrite obj_after_notify. apply obj_write_ne. congruence.
    + intros r' [= <-] Hv _. exists t, o, a, true. split; [done |].
      rewrite obj_after_notify. by apply obj_write_eq.
  - rewrite H. cbn [fst snd]. split; [| split; [| split]].
    + apply same_registry_status_only, status_only_write.
    + done.
    + intros r' Hr'. apply obj_write_ne. congruence.
    + intros r' [= <-] Hv _. exists t, o, a, false. split; [done |]. by apply obj_write_eq.
  - rewrite H. cbn [fst snd]. split; [reflexivity |]. split; [done |]. split; [done |].
    by intros r' [= <-] Hv.
Qed.

Lemma skips_singleton (c : option ref) (b : ref) :
  skips (Some [c]) (Conn b) = false <-> c <> Some b.
Proof.
  simpl. unfold same_ref. rewrite orb_false_r, bool_decide_eq_false. split; congruence.
Qed.

(** The second statement of checkConnection, as a function of the state
    the first one leaves. *)
Lemma auto_switch_run net st :
  Inv st ->
  let c := _currentConnection st in
  let st2 := snd (getBestAvailableConnection net (Some [c]) st) in
  auto_switch net c st
  = (Return tt,
     if _autoSwitch st && disconnected c st
     then match best_of net (_timeoutInMs st) (Some [c])
                        (_getConnectionsInAscendingPriority st) with
          | Some b => after_notify (Some b) (set_currentConnection (Some b) st2)
          | None => st2
          end
     else st).
Proof.
  intros HI c st2. subst st2. unfold auto_switch. rewrite !bind_gets.
  destruct (_autoSwitch st && disconnected c st); [| done].
  destruct (getBestAvailableConnection_run net (Some [c]) st (proj1 HI)) as (Hr & Hw & _).
  destruct (getBestAvailableConnection net (Some [c]) st) as [res st2] eqn:E.
  cbn [fst snd] in *. subst res. rewrite (bind_Return _ _ _ _ _ E).
  destruct (best_of net (_timeoutInMs st) (Some [c]) _) as [b|] eqn:Eb; [| done].
  destruct (best_of_Some _ _ _ _ _ Eb) as ((tier & Ht & Hb) & Hs%skips_singleton & _ & _).
  assert (I2 : Inv st2) by (by apply (Inv_status_only st)).
  assert (Hin : b ∈ connections st2).
  { rewrite (connections_status_only _ _ Hw). by eapply tiers_elems. }
  unfold setConnection. rewrite setConnection_object_run.
  rewrite (so_current _ _ Hw). fold c.
  assert (same_ref c (Some b) = false) as -> by (by apply bool_decide_eq_false).
  rewrite (getConnectionByUri_unique st2 b) by (done || apply I2).
  assert (same_ref (Some b) c = false) as -> by (apply bool_decide_eq_false; congruence).
  cbn [negb orb]. by rewrite setCredentials_own, write_obj_id.
Qed.

Lemma disconnected_usable (r : ref) st :
  disconnected (Some r) st = negb (usable (obj st r)).
Proof.
  unfold disconnected, usable, healthy, truthy, same_status.
  by destruct (isOnline (obj st r)) as [[|]|], (isAuthenticated (obj st r)) as [[|]|].
Qed.

Lemma isConnected_disconnected st :
  isConnected st = negb (disconnected (_currentConnection st) st).
Proof.
  unfold isConnected. destruct (_currentConnection st) as [r|]; [| done].
  by rewrite disconnected_usable, negb_involutive.
Qed.

Lemma eligible_same_registry ex st st' r :
  same_registry st st' -> eligible ex st' r <-> eligible ex st r.
Proof.
  intros H. unfold eligible. by rewrite (sr_connections _ _ H), (sr_priority _ _ H).
Qed.

Lemma nonnegative_same_registry st st' :
  same_registry st st' -> nonnegative st -> nonnegative st'.
Proof.
  intros H Hpos r Hr. rewrite (sr_priority _ _ H). apply Hpos.
  by rewrite <- (sr_connections _ _ H).
Qed.

(** checkConnection: when its first statement throws, so does the
    method; otherwise the second statement runs in the state the first
    one leaves. *)
Lemma checkConnection_cases net st :
  let c := _currentConnection st in
  let st1 := snd (check_current net c st) in
  match fst (check_current net c st) with
  | Throw e => checkConnection net st = (Throw e, st1)
  | Return _ => checkConnection net st = auto_switch net c st1
  end.
Proof.
  intros c st1. subst c st1. unfold checkConnection, getConnection. rewrite bind_gets.
  destruct (check_current net (_currentConnection st) st) as [[[]|e] st1] eqn:E1.
  - by rewrite (bind_Return _ _ _ _ _ E1).
  - by rewrite (bind_Throw _ _ _ _ _ E1).
Qed.

(** The state after a check cycle, when it switches. *)
Lemma checkConnection_run net st :
  Inv st ->
  let c := _currentConnection st in
  let t := _timeoutInMs st in
  let st1 := snd (check_current net c st) in
  let st2 := snd (getBestAvailableConnection net (Some [c]) st1) in
  let best := best_of net t (Some [c]) (_getConnectionsInAscendingPriority st1) in
  Inv st1 /\ same_registry st st1 /\ _currentConnection st1 = c
  /\ match fst (check_current net c st) with
     | Throw e => checkConnection net st = (Throw e, st1)
     | Return _ =>
       checkConnection net st
       = (Return tt,
          if _autoSwitch st && disconnected c st1
          then match best with
               | Some b => after_notify (Some b) (set_currentConnection (Some b) st2)
               | None => st2
               end
          else st1)
     end.
Proof.
  intros HI c t st1 st2 best. subst st2 best t st1 c.
  set (c := _currentConnection st). set (st1 := snd (check_current net c st)).
  destruct (check_current_Inv net c st HI) as [I1 C1]. fold st1 in I1, C1.
  destruct (check_current_frame net c st) as (Hsr & _ & _ & _). fold st1 in Hsr.
  split; [done |]. split; [done |]. split; [done |].
  pose proof (checkConnection_cases net st) as H. cbv zeta in H. fold c st1 in H.
  destruct (fst (check_current net c st)); [| done].
  rewrite H. pose proof (auto_switch_run net st1 I1) as H1. cbv zeta in H1.
  rewrite C1 in H1. fold c in H1. rewrite H1.
  by rewrite (sr_autoSwitch _ _ Hsr), (sr_timeout _ _ Hsr).
Qed.

Lemma Inv_failover_ready : Inv failover_ready.
Proof.
  split.
  - split; [cbv; lia | |].
    + repeat constructor; cbv; lia.
    + intros r [= <-]. cbv. lia.
  - unfold unique_uris. apply (bool_decide_unpack _). by vm_compute.
Qed.

Lemma nonnegative_failover_ready : nonnegative failover_ready.
Proof. unfold nonnegative. apply Forall_forall. repeat constructor; by vm_compute. Qed.

Lemma written_in_full_failover_ready : written_in_full failover_ready.
Proof. unfold written_in_full. apply Forall_forall. repeat constructor; by vm_compute. Qed.

(** X12: checkConnection never changes the registry, the settings, or the
    URI, credentials and priority of any connection.  With auto-switch
    off it also keeps the current connection, and the only record it
    touches is the current connection's.  Without a current connection
    it returns normally. *)
Theorem checkConnection_keeps_registry net st :
  Inv st ->
  let st' := snd (checkConnection net st) in
  same_registry st st'
  /\ (_autoSwitch st = false ->
      _currentConnection st' = _currentConnection st
      /\ forall r, Some r <> _currentConnection st -> obj st' r = obj st r)
  /\ (_currentConnection st = None -> fst (checkConnection net st) = Return tt).
Proof.
  intros HI st'. subst st'.
  destruct (checkConnection_run net st HI) as (I1 & Hsr & C1 & H).
  destruct (check_current_frame net (_currentConnection st) st) as (_ & _ & Hother & _).
  set (c := _currentConnection st) in *.
  set (st1 := snd (check_current net c st)) in *.
  assert (Hnone : c = None -> fst (check_current net c st) = Return tt) by (by intros ->).
  destruct (fst (check_current net c st)) as [[]|e].
  - rewrite H. cbn [fst snd]. split; [| split; [| done]].
    + destruct (_autoSwitch st && disconnected c st1); [| done].
      pose proof (getBestAvailableConnection_writes net (Some [c]) st1) as Hw.
      apply same_registry_status_only in Hw.
      destruct (best_of _ _ _ _) as [b|]; [| by etrans].
      etrans; [done |]. etrans; [done |].
      etrans; [apply (same_registry_set_currentConnection (Some b)) |].
      apply same_registry_after_notify.
    + intros ->. done.
  - rewrite H. cbn [fst snd]. split; [done |]. split; [done |].
    intros Hc. by specialize (Hnone Hc).
Qed.

Lemma checkConnection_keeps_registry_witness :
  let st' := snd (checkConnection A_offline failover_ready) in
  same_registry failover_ready st'
  /\ (_autoSwitch failover_ready = false ->
      _currentConnection st' = _currentConnection failover_ready
      /\ forall r, Some r <> _currentConnection failover_ready ->
                   obj st' r = obj failover_ready r)
  /\ (_currentConnection failover_ready = None ->
      fst (checkConnection A_offline failover_ready) = Return tt).
Proof.
  apply (checkConnection_keeps_registry A_offline failover_ready Inv_failover_ready).
Defined.

Lemma beaten_same_registry net t ex st st' r :
  same_registry st st' -> beaten net t ex st' r -> beaten net t ex st r.
Proof.
  intros Hsr (r' & Hr' & Hp & Hu & Hle). exists r'.
  split; [by apply (eligible_same_registry _ _ _ _ Hsr) |].
  split; [by rewrite <- !(sr_priority _ _ Hsr) | done].
Qed.



(** X14: with auto-switch on and priorities that are not negative and
    below 1e21, a checkConnection that returns normally leaves the
    manager connected, or it keeps the current connection and every
    registered connection of a priority above 0 that answers its check as
    usable lost its tier: another candidate of the same priority was
    answered as unusable no later.  So when no connection is answered as
    unusable, the manager is connected whenever some registered
    connection of a priority above 0 is usable. *)
Theorem checkConnection_connects_unless_beaten net st :
  Inv st -> written_in_full st -> nonnegative st -> _autoSwitch st = true ->
  fst (checkConnection net st) = Return tt ->
  let c := _currentConnection st in
  let t := _timeoutInMs st in
  let st' := snd (checkConnection net st) in
  isConnected st' = true
  \/ (_currentConnection st' = c
      /\ forall r, r ∈ connections st -> 0 < getPriority (obj st r) ->
                   healthy_reply (net t r) -> beaten net t (Some [c]) st r).
Proof.
  intros HI Hfull Hpos Hauto Hret c0 t st'. subst st' t c0.
  destruct (checkConnection_run net st HI) as (I1 & Hsr & C1 & H).
  destruct (check_current_frame net (_currentConnection st) st) as (_ & _ & _ & Hcur).
  set (c := _currentConnection st) in *.
  set (st1 := snd (check_current net c st)) in *.
  destruct (fst (check_current net c st)) as [[]|e]; rewrite H in Hret |- *; [| done].
  cbn [snd]. clear Hret H. rewrite Hauto. cbn [andb].
  destruct (disconnected c st1) eqn:Ed.
  2:{ left. by rewrite isConnected_disconnected, C1, Ed. }
  pose proof (prober_spec net (Some [c]) st1
                (written_in_full_same_registry _ _ Hsr Hfull)
                (nonnegative_same_registry _ _ Hsr Hpos)) as Hp.
  cbv zeta in Hp. rewrite (sr_timeout _ _ Hsr) in Hp.
  destruct (getBestAvailableConnection_run net (Some [c]) st1 (proj1 I1)) as (_ & Hw & Ho).
  rewrite (sr_timeout _ _ Hsr) in Ho.
  set (st2 := snd (getBestAvailableConnection net (Some [c]) st1)) in *.
  destruct (best_of net (_timeoutInMs st) (Some [c]) _) as [b|].
  - left. destruct Hp as (Hb & Hh & Hfirst & Hmin & Hchk).
    unfold isConnected. rewrite current_after_notify.
    cbn [set_currentConnection _currentConnection].
    rewrite obj_after_notify, obj_set_currentConnection, Ho.
    rewrite decide_True by (apply Hchk; split; [done | lia]).
    by apply usable_after_check.
  - right. destruct Hp as [Hno _]. split; [by rewrite (so_current _ _ Hw) |].
    intros r Hr Hprio Hh. destruct (decide (c = Some r)) as [Hc|Hc].
    + exfalso. destruct (Hcur r Hc) as (tm & o & a & ret & Hnet & Hobj); [| done |].
      { apply wf_valid; [apply HI | done]. }
      rewrite Hc, disconnected_usable, Hobj in Ed. rewrite Hnet in Hh.
      unfold usable in Ed. simpl in Ed, Hh. by rewrite Hh in Ed.
    + apply (beaten_same_registry _ _ _ _ _ _ Hsr). apply (Hno r); [| done].
      apply (eligible_same_registry _ _ _ _ Hsr).
      split; [done |]. split; [by apply skips_singleton | done].
Qed.

Lemma checkConnection_connects_unless_beaten_witness :
  let c := _currentConnection failover_ready in
  let t := _timeoutInMs failover_ready in
  let st' := snd (checkConnection A_offline failover_ready) in
  isConnected st' = true
  \/ (_currentConnection st' = c
      /\ forall r, r ∈ connections failover_ready ->
                   0 < getPriority (obj failover_ready r) ->
                   healthy_reply (A_offline t r) ->
                   beaten A_offline t (Some [c]) failover_ready r).
Proof.
  apply (checkConnection_connects_unless_beaten A_offline failover_ready
           Inv_failover_ready written_in_full_failover_ready nonnegative_failover_ready
           eq_refl eq_refl).
Defined.

(** ** checkConnections *)

Lemma check_each_run net cs st :
  (forall r, r ∈ cs -> (r < length (objs st))%nat) ->
  fst (check_each net cs st) = Return tt
  /\ status_only st (snd (check_each net cs st))
  /\ forall r',
      obj (snd (check_each net cs st)) r'
      = if decide (r' ∈ cs) then after_check net (_timeoutInMs st) r' (obj st r')
        else obj st r'.
Proof.
  revert st. induction cs as [|r cs IH]; intros st Hv.
  - split; [done |]. split; [reflexivity |]. intros r'.
    by rewrite decide_False by (by intros ?%elem_of_nil).
  - cbn [check_each]. rewrite bind_gets.
    pose proof (probe_state_writes net (Conn r) st) as Hw.
    pose proof (probe_state_obj net r st) as Hobj.
    assert (E : connection_checkConnection net (_timeoutInMs st) r st
                = (Return match net (_timeoutInMs st) r with
                          | Reply tm _ _ ret => Fulfilled tm ret
                          | Failure tm e => Rejected tm e
                          end, probe_state net (Conn r) st)).
    { unfold connection_checkConnection, probe_state.
      by destruct (net (_timeoutInMs st) r). }
    rewrite (bind_Return _ _ _ _ _ E).
    set (st1 := probe_state net (Conn r) st) in *.
    destruct (IH st1) as (Hr & Hs & Ho).
    { intros r' Hr'. rewrite (so_length _ _ Hw). apply Hv. by right. }
    rewrite (so_timeout _ _ Hw) in Ho.
    split; [done |]. split; [by etrans |].
    intros r'. rewrite Ho, Hobj by (apply Hv; left).
    destruct (decide (r' = r)) as [->|Hne], (decide (_ ∈ cs)) as [Hin|Hnin].
    + rewrite decide_True by left. apply after_check_idem.
    + by rewrite decide_True by left.
    + by rewrite decide_True by (by right).
    + rewrite decide_False; [done |]. by intros [?|?]%elem_of_cons.
Qed.

(** X15: checkConnections checks every registered connection once, with
    the manager's time-out: afterwards the record of each registered
    connection carries the status the network replied (and is unchanged
    when the check failed), no other record is touched, and the registry,
    the current connection and the notifications are as before: no
    listener is notified. *)
Theorem checkConnections_checks_every_connection localeCompare net st :
  wf st ->
  let t := _timeoutInMs st in
  let st' := snd (checkConnections localeCompare net st) in
  (forall r, r ∈ connections st -> obj st' r = after_check net t r (obj st r))
  /\ (forall r, r ∉ connections st -> obj st' r = obj st r)
  /\ connections st' = connections st
  /\ _currentConnection st' = _currentConnection st
  /\ notified st' = notified st
  /\ handled st' = handled st.
Proof.
  intros Hwf t st'. subst t st'. unfold checkConnections.
  rewrite (bind_Return _ _ _ _ _ (getConnections_run localeCompare st)), bind_gets.
  set (st0 := write_array _ _ _).
  assert (Hcs : arr st0 (length (arrs st)) ≡ₚ connections st).
  { pose proof (getConnections_result localeCompare st) as G.
    rewrite getConnections_run in G. cbn [snd] in G. fold st0 in G. rewrite G.
    apply Array_sort_Permutation. }
  assert (Hconn : connections st0 = connections st).
  { unfold connections, arr, st0. simpl.
    rewrite list_lookup_total_insert_ne by (pose proof (wf_array _ Hwf); lia).
    apply lookup_total_app_l, (wf_array _ Hwf). }
  destruct (check_each_run net (arr st0 (length (arrs st))) st0) as (_ & Hs & Ho).
  { intros r Hr. rewrite Hcs in Hr. by apply (wf_valid st). }
  change (_timeoutInMs st0) with (_timeoutInMs st) in Ho.
  change (obj st0) with (obj st) in Ho.
  split; [| split; [| split; [| split; [| split]]]].
  - intros r Hr. rewrite Ho, decide_True; [done |]. by rewrite Hcs.
  - intros r Hr. rewrite Ho, decide_False; [done |]. by rewrite Hcs.
  - by rewrite (connections_status_only _ _ Hs).
  - by rewrite (so_current _ _ Hs).
  - by rewrite (so_notified _ _ Hs).
  - by rewrite (so_handled _ _ Hs).
Qed.

Lemma checkConnections_checks_every_connection_witness :
  let st' := snd (checkConnections code_unit_compare mixed_network registry_five) in
  (forall r, r ∈ connections registry_five ->
     obj st' r = after_check mixed_network (_timeoutInMs registry_five) r (obj registry_five r))
  /\ (forall r, r ∉ connections registry_five -> obj st' r = obj registry_five r)
  /\ connections st' = connections registry_five
  /\ _currentConnection st' = _currentConnection registry_five
  /\ notified st' = notified registry_five
  /\ handled st' = handled registry_five.
Proof.
  apply (checkConnections_checks_every_connection code_unit_compare mixed_network
           registry_five wf_registry_five).
Defined.

(** ** What no operation undoes *)

#[local] Instance extends_refl : Reflexive extends.
Proof. by intros st; split. Qed.

#[local] Instance extends_trans : Transitive extends.
Proof.
  intros a b c [P1 L1 U1 Q1] [P2 L2 U2 Q2]. split.
  - by etrans.
  - lia.
  - intros r Hr. rewrite U2 by lia. by apply U1.
  - intros r Hr. rewrite Q2 by lia. by apply Q1.
Qed.

Lemma extends_same_registry st st' : same_registry st st' -> extends st st'.
Proof.
  intros H. split.
  - by rewrite (sr_connections _ _ H).
  - by rewrite (sr_length _ _ H).
  - intros r _. apply (sr_uri _ _ H).
  - intros r _. apply (sr_priority _ _ H).
Qed.

Lemma extends_status_only st st' : status_only st st' -> extends st st'.
Proof. intros H. by apply extends_same_registry, same_registry_status_only. Qed.

Lemma extends_selected c st : extends st (after_notify c (set_currentConnection c st)).
Proof.
  apply extends_same_registry. etrans; [apply (same_registry_set_currentConnection c) |].
  apply same_registry_after_notify.
Qed.

Lemma extends_register (r : ref) st :
  (_connections st < length (arrs st))%nat ->
  extends st (write_array (_connections st) (connections st ++ [r]) st).
Proof.
  intros Hwf. split; try done.
  rewrite connections_write_array by done. by apply prefix_app_r.
Qed.

Lemma extends_alloc c st : extends st (fst (alloc c st)).
Proof.
  split.
  - done.
  - simpl. rewrite length_app. lia.
  - intros r Hr. by rewrite obj_alloc_old.
  - intros r Hr. by rewrite obj_alloc_old.
Qed.

Lemma extends_write_credentials p u pw st :
  extends st (write_obj p (setCredentials u pw (obj st p)) st).
Proof.
  assert (H : forall r, getUri (obj (write_obj p (setCredentials u pw (obj st p)) st) r)
                        = getUri (obj st r)
                        /\ getPriority (obj (write_obj p (setCredentials u pw (obj st p)) st) r)
                           = getPriority (obj st r)).
  { intros r. destruct (decide (p = r)) as [->|Hne]; [| by rewrite obj_write_ne].
    destruct (decide (r < length (objs st))%nat) as [Hv|Hv]; [by rewrite obj_write_eq |].
    unfold write_obj, obj. simpl. by rewrite list_insert_ge by lia. }
  split.
  - done.
  - unfold write_obj. simpl. by rewrite length_insert.
  - intros r _. apply H.
  - intros r _. apply H.
Qed.

Lemma connections_getConnections localeCompare st :
  wf st -> connections (snd (getConnections localeCompare st)) = connections st.
Proof.
  intros Hwf. rewrite getConnections_run. unfold connections, arr. simpl.
  rewrite list_lookup_total_insert_ne by (pose proof (wf_array _ Hwf); lia).
  apply lookup_total_app_l, (wf_array _ Hwf).
Qed.

Lemma setConnection_object_extends (r : ref) st :
  wf st ->
  extends st (snd (setConnection_object r st))
  /\ (current_registered st -> current_registered (snd (setConnection_object r st))).
Proof.
  intros Hwf. rewrite setConnection_object_run. cbn [snd].
  destruct (same_ref (_currentConnection st) (Some r)); [done |].
  destruct (getConnectionByUri (getUri (obj st r)) st) as [p|] eqn:E.
  - destruct (negb _ || _); [| done]. split.
    + etrans; [apply extends_write_credentials |]. apply extends_selected.
    + intros _ r' Hr'. rewrite current_after_notify in Hr'. injection Hr' as <-.
      rewrite connections_after_notify.
      by apply getConnectionByUri_Some in E as [? _].
  - split.
    + etrans; [apply extends_register, Hwf |]. apply extends_selected.
    + intros _ r' Hr'. rewrite current_after_notify in Hr'. injection Hr' as <-.
      rewrite connections_after_notify, connections_set_currentConnection.
      rewrite connections_write_array by apply Hwf.
      apply elem_of_app. right. left.
Qed.

Lemma setConnection_extends a st :
  wf st ->
  extends st (snd (setConnection a st))
  /\ (current_registered st -> current_registered (snd (setConnection a st))).
Proof.
  intros Hwf.
  assert (Hfalsy : extends st (snd (setConnection_falsy st))
                   /\ (current_registered st ->
                       current_registered (snd (setConnection_falsy st)))).
  { rewrite setConnection_falsy_run. cbn [snd]. split; [apply extends_selected |].
    intros _ r' Hr'. by rewrite current_after_notify in Hr'. }
  destruct a as [uri|r| | |].
  - destruct (getConnectionByUri uri st) as [c|] eqn:E.
    + rewrite (setConnection_string_registered uri c st E). cbn [snd].
      destruct (same_ref _ _); [done |]. split; [apply extends_selected |].
      intros _ r' Hr'. rewrite current_after_notify in Hr'. injection Hr' as <-.
      rewrite connections_after_notify.
      by apply getConnectionByUri_Some in E as [? _].
    + rewrite (setConnection_string_unregistered uri st Hwf E). cbn [snd]. split.
      * etrans; [apply (extends_alloc (new_MoneroRpcConnection uri)) |].
        etrans; [| apply extends_selected].
        apply (extends_register _ (fst (alloc (new_MoneroRpcConnection uri) st))), Hwf.
      * intros _ r' Hr'. rewrite current_after_notify in Hr'. injection Hr' as <-.
        rewrite connections_after_notify, connections_set_currentConnection.
        rewrite (connections_write_array _ (fst (alloc (new_MoneroRpcConnection uri) st)))
          by apply Hwf.
        apply elem_of_app. right. left.
  - by apply setConnection_object_extends.
  - rewrite setConnection_undefined_run. cbn [snd].
    destruct (_currentConnection st); [| done]. split; [apply extends_selected |].
    intros _ r' Hr'. by rewrite current_after_notify in Hr'.
  - exact Hfalsy.
  - done.
Qed.

Lemma checkConnection_extends net st :
  Inv st ->
  extends st (snd (checkConnection net st))
  /\ (current_registered st -> current_registered (snd (checkConnection net st))).
Proof.
  intros HI. destruct (checkConnection_run net st HI) as (I1 & Hsr & C1 & H).
  set (c := _currentConnection st) in *.
  set (st1 := snd (check_current net c st)) in *.
  assert (Hreg1 : current_registered st -> current_registered st1).
  { intros Hreg r Hr. rewrite (sr_connections _ _ Hsr). apply Hreg.
    rewrite C1 in Hr. exact Hr. }
  destruct (fst (check_current net c st)) as [[]|e]; rewrite H; cbn [snd];
    [| split; [by apply extends_same_registry | done]].
  destruct (_autoSwitch st && disconnected c st1);
    [| split; [by apply extends_same_registry | done]].
  pose proof (getBestAvailableConnection_writes net (Some [c]) st1) as Hw.
  destruct (best_of net (_timeoutInMs st) (Some [c]) _) as [b|] eqn:Eb.
  - split.
    + etrans; [by apply extends_same_registry |].
      etrans; [by apply extends_status_only |]. apply extends_selected.
    + intros _ r Hr. rewrite current_after_notify in Hr. injection Hr as <-.
      rewrite connections_after_notify, connections_set_currentConnection.
      rewrite (connections_status_only _ _ Hw).
      destruct (best_of_Some _ _ _ _ _ Eb) as ((tier & Ht & Hb) & _).
      by eapply tiers_elems.
  - split.
    + etrans; [by apply extends_same_registry |]. by apply extends_status_only.
    + intros Hreg r Hr. rewrite (connections_status_only _ _ Hw).
      apply (Hreg1 Hreg). by rewrite <- (so_current _ _ Hw).
Qed.

(** Every operation extends the registry at most, and keeps the current
    connection registered. *)
Lemma exec_extends localeCompare op st :
  Inv st -> op_ok st op ->
  extends st (snd (exec localeCompare op st))
  /\ (current_registered st -> current_registered (snd (exec localeCompare op st))).
Proof.
  intros HI Hok. pose proof HI as [Hwf Huniq].
  destruct op as [c|l|l|r|uri| |net ex|a|net|net|b|t|]; cbn [exec op_ok] in *.
  - split; [apply extends_alloc | done].
  - done.
  - unfold removeListener. by destruct (existsb _ (_listeners st)).
  - destruct (decide (getUri (obj st r) ∈ uris st)) as [Hreg|Hreg].
    + by rewrite (addConnection_registered r st Hreg).
    + rewrite (addConnection_unregistered r st Hreg). cbn [snd].
      split; [apply extends_register, Hwf |].
      intros Hc r' Hr'. rewrite connections_write_array by apply Hwf.
      apply elem_of_app. left. by apply Hc.
  - unfold removeConnection. rewrite bind_gets.
    by destruct (getConnectionByUri uri st).
  - rewrite snd_forget. pose proof (connections_getConnections localeCompare st Hwf) as Hc.
    rewrite getConnections_run in *. cbn [snd] in *. split.
    + split; [by rewrite Hc | done | done | done].
    + intros Hreg r Hr. rewrite Hc. by apply Hreg.
  - rewrite snd_forget.
    pose proof (getBestAvailableConnection_writes net ex st) as Hw. split.
    + by apply extends_status_only.
    + intros Hreg r Hr. rewrite (connections_status_only _ _ Hw). apply Hreg.
      by rewrite <- (so_current _ _ Hw).
  - by apply setConnection_extends.
  - by apply checkConnection_extends.
  - unfold checkConnections.
    pose proof (connections_getConnections localeCompare st Hwf) as Hc.
    rewrite getConnections_run in Hc. cbn [snd] in Hc.
    rewrite (bind_Return _ _ _ _ _ (getConnections_run localeCompare st)), bind_gets.
    set (st0 := write_array _ _ _) in *.
    pose proof (check_each_writes net (arr st0 (length (arrs st))) st0) as Hw.
    split.
    + etrans; [| by apply extends_status_only].
      split; [by rewrite Hc | done | done | done].
    + intros Hreg r Hr. rewrite (connections_status_only _ _ Hw), Hc. apply Hreg.
      rewrite (so_current _ _ Hw) in Hr. exact Hr.
  - done.
  - done.
  - by apply (setConnection_extends AUndefined).
Qed.

Lemma run_extends localeCompare ops st :
  Inv st -> ops_ok localeCompare ops st ->
  extends st (run localeCompare ops st)
  /\ (current_registered st -> current_registered (run localeCompare ops st)).
Proof.
  revert st. induction ops as [|op ops IH]; intros st HI Hok; simpl; [done |].
  destruct Hok as [H1 H2].
  destruct (exec_extends localeCompare op st HI H1) as [He Hc].
  destruct (IH _ (exec_Inv localeCompare op st HI H1) H2) as [He' Hc'].
  split; [by etrans | auto].
Qed.

(** X16: no sequence of operations takes a connection out of the
    registry or changes the URI or the priority of a registered
    connection: the registry after the operations starts with the registry
    before them.  In particular removeConnection never returns normally
    and never changes the manager. *)
Theorem registry_never_shrinks localeCompare ops st :
  Inv st -> ops_ok localeCompare ops st ->
  let st' := run localeCompare ops st in
  connections st `prefix_of` connections st'
  /\ (forall r, r ∈ connections st ->
        getUri (obj st' r) = getUri (obj st r)
        /\ getPriority (obj st' r) = getPriority (obj st r))
  /\ forall uri, exists e, removeConnection uri st = (Throw e, st).
Proof.
  intros HI Hok st'. destruct (run_extends localeCompare ops st HI Hok) as [He _].
  split; [apply He |]. split.
  - intros r Hr. pose proof (wf_valid st r (proj1 HI) Hr) as Hv.
    split; [by apply (ext_uri _ _ He) | by apply (ext_priority _ _ He)].
  - intros uri. destruct (decide (uri ∈ uris st)) as [Hreg|Hreg].
    + eexists. by apply removeConnection_registered.
    + eexists. by apply removeConnection_unregistered.
Qed.

Lemma Inv_registry_A1_Z0 : Inv registry_A1_Z0.
Proof. split; [apply wf_registry_A1_Z0 | apply unique_uris_registry_A1_Z0]. Qed.

Lemma registry_never_shrinks_witness :
  let ops := [RemoveConnection "A"; SetConnection (AString "B"); CheckConnection all_up;
              Disconnect] in
  let st' := run code_unit_compare ops registry_A1_Z0 in
  connections registry_A1_Z0 `prefix_of` connections st'
  /\ (forall r, r ∈ connections registry_A1_Z0 ->
        getUri (obj st' r) = getUri (obj registry_A1_Z0 r)
        /\ getPriority (obj st' r) = getPriority (obj registry_A1_Z0 r))
  /\ forall uri, exists e, removeConnection uri registry_A1_Z0 = (Throw e, registry_A1_Z0).
Proof.
  apply (registry_never_shrinks code_unit_compare
           [RemoveConnection "A"; SetConnection (AString "B"); CheckConnection all_up;
            Disconnect]
           registry_A1_Z0 Inv_registry_A1_Z0).
  vm_compute. tauto.
Defined.

(** X17: the current connection is always one of the registered
    connections: every operation keeps this, so it holds after every
    sequence of operations on a manager where it holds, a new manager in
    particular. *)
Theorem current_connection_is_registered localeCompare ops st :
  Inv st -> current_registered st -> ops_ok localeCompare ops st ->
  current_registered (run localeCompare ops st).
Proof.
  intros HI Hreg Hok. by apply (run_extends localeCompare ops st HI Hok).
Qed.

Lemma current_connection_is_registered_witness :
  current_registered
    (run code_unit_compare
         [SetConnection (AString "B"); SetAutoSwitch true; CheckConnection only_A_down;
          RemoveConnection "B"]
         constructor).
Proof.
  apply (current_connection_is_registered code_unit_compare
           [SetConnection (AString "B"); SetAutoSwitch true; CheckConnection only_A_down;
            RemoveConnection "B"]
           constructor Inv_constructor).
  - intros r [=].
  - vm_compute. tauto.
Defined.

(** ** The time-out of the checks *)

Lemma connection_checkConnection_ext net1 net2 t (r : ref) st :
  net1 t r = net2 t r ->
  connection_checkConnection net1 t r st = connection_checkConnection net2 t r st.
Proof. intros H. unfold connection_checkConnection. by rewrite H. Qed.

Lemma probe_ext net1 net2 e st :
  (forall r, net1 (_timeoutInMs st) r = net2 (_timeoutInMs st) r) ->
  probe net1 e st = probe net2 e st.
Proof.
  intros H. destruct e as [r|n]; [| done].
  unfold probe. rewrite !bind_gets. unfold mbind at 1 3, M_bind at 1 3.
  by rewrite (connection_checkConnection_ext net1 net2 _ r st (H r)).
Qed.

Lemma probe_tier_ext net1 net2 ex tier st :
  (forall r, net1 (_timeoutInMs st) r = net2 (_timeoutInMs st) r) ->
  probe_tier net1 ex tier st = probe_tier net2 ex tier st.
Proof.
  revert st. induction tier as [|e tier IH]; intros st H; [done |].
  cbn [probe_tier]. destruct (match ex with Some l => _ | None => _ end); [by apply IH |].
  unfold mbind at 1 3, M_bind at 1 3. rewrite (probe_ext net1 net2 e st H).
  pose proof (probe_writes net2 e st) as Hw.
  destruct (probe net2 e st) as [[p|err] st1]; [| done]. cbn [snd] in Hw.
  unfold mbind, M_bind. rewrite (IH st1); [done |].
  intros r. rewrite (so_timeout _ _ Hw). apply H.
Qed.

Lemma probe_tiers_ext net1 net2 ex tiers st :
  (forall r, net1 (_timeoutInMs st) r = net2 (_timeoutInMs st) r) ->
  probe_tiers net1 ex tiers st = probe_tiers net2 ex tiers st.
Proof.
  revert st. induction tiers as [|tier tiers IH]; intros st H; [done |].
  cbn [probe_tiers]. unfold mbind, M_bind. rewrite (probe_tier_ext net1 net2 ex tier st H).
  pose proof (probe_tier_writes net2 ex tier st) as Hw.
  destruct (probe_tier net2 ex tier st) as [[ps|err] st1]; [| done]. cbn [snd] in Hw.
  assert (Hrest : probe_tiers net1 ex tiers st1 = probe_tiers net2 ex tiers st1).
  { apply IH. intros r. rewrite (so_timeout _ _ Hw). apply H. }
  destruct (Promise_any ps) as [tm [b|]|tm []]; done.
Qed.

Lemma getBestAvailableConnection_ext net1 net2 ex st :
  (forall r, net1 (_timeoutInMs st) r = net2 (_timeoutInMs st) r) ->
  getBestAvailableConnection net1 ex st = getBestAvailableConnection net2 ex st.
Proof.
  intros H. unfold getBestAvailableConnection. rewrite !bind_gets.
  by apply probe_tiers_ext.
Qed.

Lemma check_current_ext net1 net2 c st :
  (forall r, net1 (_timeoutInMs st) r = net2 (_timeoutInMs st) r) ->
  check_current net1 c st = check_current net2 c st.
Proof.
  intros H. destruct c as [r|]; [| done].
  unfold check_current. rewrite !bind_gets. unfold mbind at 1 4, M_bind at 1 4.
  by rewrite (connection_checkConnection_ext net1 net2 _ r st (H r)).
Qed.

Lemma auto_switch_ext net1 net2 c st :
  (forall r, net1 (_timeoutInMs st) r = net2 (_timeoutInMs st) r) ->
  auto_switch net1 c st = auto_switch net2 c st.
Proof.
  intros H. unfold auto_switch. rewrite !bind_gets.
  destruct (_autoSwitch st && disconnected c st); [| done].
  unfold mbind, M_bind. by rewrite (getBestAvailableConnection_ext net1 net2 _ st H).
Qed.

Lemma checkConnection_ext net1 net2 st :
  (forall r, net1 (_timeoutInMs st) r = net2 (_timeoutInMs st) r) ->
  checkConnection net1 st = checkConnection net2 st.
Proof.
  intros H. unfold checkConnection. rewrite !bind_gets. unfold mbind, M_bind.
  rewrite (check_current_ext net1 net2 _ st H).
  destruct (check_current_frame net2 (getConnection st) st) as (Hsr & _).
  destruct (check_current net2 (getConnection st) st) as [[[]|e] st1]; [| done].
  cbn [snd] in Hsr. apply auto_switch_ext. intros r. rewrite (sr_timeout _ _ Hsr). apply H.
Qed.

Lemma check_each_ext net1 net2 cs st :
  (forall r, net1 (_timeoutInMs st) r = net2 (_timeoutInMs st) r) ->
  check_each net1 cs st = check_each net2 cs st.
Proof.
  revert st. induction cs as [|r cs IH]; intros st H; [done |].
  cbn [check_each]. rewrite !bind_gets. unfold mbind, M_bind.
  rewrite (connection_checkConnection_ext net1 net2 _ r st (H r)).
  pose proof (connection_checkConnection_writes net2 (_timeoutInMs st) r st) as Hw.
  destruct (connection_checkConnection net2 (_timeoutInMs st) r st) as [[p|e] st1]; [| done].
  cbn [snd] in Hw. apply IH. intros r'. rewrite (so_timeout _ _ Hw). apply H.
Qed.

(** X18: the time-out set by setTimeout is the one every health check is
    made with: after setTimeout(t), what getBestAvailableConnection,
    checkConnection and checkConnections return and do depends on the
    network only through its answers to checks with time-out [t].  A new
    manager has the time-out 5000. *)
Theorem setTimeout_governs_checks net1 net2 t st :
  (forall r, net1 t r = net2 t r) ->
  let st' := snd (setTimeout t st) in
  getTimeout st' = t
  /\ getTimeout constructor = 5000
  /\ (forall ex, getBestAvailableConnection net1 ex st' = getBestAvailableConnection net2 ex st')
  /\ checkConnection net1 st' = checkConnection net2 st'
  /\ (forall localeCompare,
        checkConnections localeCompare net1 st' = checkConnections localeCompare net2 st').
Proof.
  intros H st'. split; [done |]. split; [done |]. split; [| split].
  - intros ex. by apply getBestAvailableConnection_ext.
  - by apply checkConnection_ext.
  - intros localeCompare. unfold checkConnections.
    rewrite !(bind_Return _ _ _ _ _ (getConnections_run localeCompare st')), !bind_gets.
    by apply check_each_ext.
Qed.

(** A network that answers a check with time-out 100 as [A_offline] does
    and fails every other check. *)
Lemma setTimeout_governs_checks_witness :
  let slow := fun (t : Z) (r : ref) =>
                if t =? 100 then A_offline t r else Failure 0 (TransportError "timeout") in
  let st' := snd (setTimeout 100 failover_ready) in
  getTimeout st' = 100
  /\ getTimeout constructor = 5000
  /\ (forall ex, getBestAvailableConnection slow ex st' = getBestAvailableConnection A_offline ex st')
  /\ checkConnection slow st' = checkConnection A_offline st'
  /\ (forall localeCompare,
        checkConnections localeCompare slow st' = checkConnections localeCompare A_offline st').
Proof.
  apply (setTimeout_governs_checks
           (fun (t : Z) (r : ref) =>
              if t =? 100 then A_offline t r else Failure 0 (TransportError "timeout"))
           A_offline 100 failover_ready).
  reflexivity.
Defined.

(** ** The periodic checker *)

Lemma startCheckingConnection_fresh net period m :
  _checkLooper m = None ->
  fst (startCheckingConnection net period m) = Return tt ->
  snd (startCheckingConnection net period m)
  = mkChecker (snd (checkConnection net (manager m)))
              (Some (mkTaskLooper true (period_or_default period))).
Proof.
  unfold startCheckingConnection. intros ->.
  by destruct (checkConnection net (manager m)) as [[[]|e] st].
Qed.

Lemma fires_after_first nets l st :
  firstCheck l = false ->
  fires nets (mkChecker st (Some l)) = mkChecker (check_cycles nets st) (Some l).
Proof.
  intros Hl. revert st. induction nets as [|net nets IH]; intros st; [done |].
  cbn [fires]. unfold fire, check_task. cbn [_checkLooper manager]. rewrite Hl.
  cbn [snd]. apply IH.
Qed.

(** X19: after startCheckingConnection on a manager that is not being
    checked yet, the first firing of the looper changes nothing in the
    manager and every later firing does what one checkConnection does,
    in the order of the firings; the task itself never throws, also when
    the check cycle does; the looper stays installed, with the period
    that was given, or 10000 when none (or 0) was given. *)
Theorem periodic_check_skips_first_firing net period m net0 nets :
  _checkLooper m = None ->
  fst (startCheckingConnection net period m) = Return tt ->
  let m1 := snd (startCheckingConnection net period m) in
  manager m1 = snd (checkConnection net (manager m))
  /\ manager (fire net0 m1) = manager m1
  /\ manager (fires (net0 :: nets) m1) = check_cycles nets (manager m1)
  /\ _checkLooper (fires (net0 :: nets) m1)
     = Some (mkTaskLooper false (period_or_default period))
  /\ forall n l st, fst (check_task n l st) = Return tt.
Proof.
  intros Hnone Hret m1. subst m1.
  rewrite (startCheckingConnection_fresh net period m Hnone Hret).
  split; [done |]. split; [done |].
  cbn [fires]. unfold fire, check_task. cbn [_checkLooper manager firstCheck snd].
  rewrite fires_after_first by done.
  split; [done |]. split; [done |].
  intros n l st. unfold check_task. by destruct (firstCheck l).
Qed.

Lemma periodic_check_skips_first_firing_witness :
  let m := mkChecker failover_ready None in
  let m1 := snd (startCheckingConnection A_offline None m) in
  manager m1 = snd (checkConnection A_offline (manager m))
  /\ manager (fire mixed_network m1) = manager m1
  /\ manager (fires [mixed_network; all_up; only_A_down] m1)
     = check_cycles [all_up; only_A_down] (manager m1)
  /\ _checkLooper (fires [mixed_network; all_up; only_A_down] m1)
     = Some (mkTaskLooper false (period_or_default None))
  /\ forall n l st, fst (check_task n l st) = Return tt.
Proof.
  apply (periodic_check_skips_first_firing A_offline None (mkChecker failover_ready None)
           mixed_network [all_up; only_A_down] eq_refl eq_refl).
Defined.

(** X20: a manager has at most one looper.  After a
    startCheckingConnection that returned, a second one runs its check
    cycle but keeps the looper of the first call, with the first period.
    A startCheckingConnection whose check cycle throws installs no looper.  stopCheckingConnection
    takes the looper away and leaves the manager as it is; after it no
    firing changes anything, and stopping again changes nothing. *)
Theorem periodic_check_start_stop net1 net2 p1 p2 m :
  _checkLooper m = None ->
  let m1 := snd (startCheckingConnection net1 p1 m) in
  let m2 := snd (startCheckingConnection net2 p2 m1) in
  (fst (startCheckingConnection net1 p1 m) = Return tt ->
   _checkLooper m1 = Some (mkTaskLooper true (period_or_default p1))
   /\ _checkLooper m2 = Some (mkTaskLooper true (period_or_default p1)))
  /\ (fst (startCheckingConnection net1 p1 m) <> Return tt -> _checkLooper m1 = None)
  /\ manager m2 = snd (checkConnection net2 (manager m1))
  /\ _checkLooper (stopCheckingConnection m2) = None
  /\ manager (stopCheckingConnection m2) = manager m2
  /\ stopCheckingConnection (stopCheckingConnection m2) = stopCheckingConnection m2
  /\ forall nets, fires nets (stopCheckingConnection m2) = stopCheckingConnection m2.
Proof.
  intros Hnone m1 m2.
  assert (H2 : (forall l, _checkLooper m1 = Some l -> _checkLooper m2 = Some l)
               /\ manager m2 = snd (checkConnection net2 (manager m1))).
  { subst m2. generalize m1. intros m'. unfold startCheckingConnection.
    destruct (checkConnection net2 (manager m')) as [[[]|e] st]; [| done].
    split; [by intros l -> | by destruct (_checkLooper m')]. }
  split; [| split].
  - intros Hret.
    assert (H1 : _checkLooper m1 = Some (mkTaskLooper true (period_or_default p1))).
    { subst m1. by rewrite (startCheckingConnection_fresh net1 p1 m Hnone Hret). }
    split; [done | by apply H2].
  - subst m1. unfold startCheckingConnection. rewrite Hnone.
    by destruct (checkConnection net1 (manager m)) as [[[]|e] st].
  - split; [apply H2 |]. split; [done |]. split; [done |].
    split; [done |]. intros nets. by induction nets.
Qed.

Lemma periodic_check_start_stop_witness :
  let m := mkChecker failover_ready None in
  let m1 := snd (startCheckingConnection A_offline (Some 50) m) in
  let m2 := snd (startCheckingConnection all_up (Some 70) m1) in
  (fst (startCheckingConnection A_offline (Some 50) m) = Return tt ->
   _checkLooper m1 = Some (mkTaskLooper true (period_or_default (Some 50)))
   /\ _checkLooper m2 = Some (mkTaskLooper true (period_or_default (Some 50))))
  /\ (fst (startCheckingConnection A_offline (Some 50) m) <> Return tt ->
      _checkLooper m1 = None)
  /\ manager m2 = snd (checkConnection all_up (manager m1))
  /\ _checkLooper (stopCheckingConnection m2) = None
  /\ manager (stopCheckingConnection m2) = manager m2
  /\ stopCheckingConnection (stopCheckingConnection m2) = stopCheckingConnection m2
  /\ forall nets, fires nets (stopCheckingConnection m2) = stopCheckingConnection m2.
Proof.
  apply (periodic_check_start_stop A_offline all_up (Some 50) (Some 70)
           (mkChecker failover_ready None) eq_refl).
Defined.

(** ** What the methods throw *)

(** X25: setConnection throws only for a truthy argument that is neither
    a string nor a connection, and then changes nothing.  For every other
    argument (a string, a connection, undefined or another falsy value)
    it returns normally: the registration of a new connection cannot
    fail, and what the listeners do (throw, or return a promise that
    rejects) does not reach the caller. *)
Theorem setConnection_throws_only_on_bad_argument a st :
  wf st ->
  setConnection AOther st
  = (Throw (MoneroError "Must provide string or MoneroRpcConnection to set connection"), st)
  /\ (a <> AOther -> fst (setConnection a st) = Return tt).
Proof.
  intros Hwf. split; [done |]. intros Ha. destruct a as [uri|r| | |]; [| | | | done].
  - destruct (getConnectionByUri uri st) as [c|] eqn:E.
    + by rewrite (setConnection_string_registered uri c st E).
    + by rewrite (setConnection_string_unregistered uri st Hwf E).
  - unfold setConnection. by rewrite setConnection_object_run.
  - by rewrite setConnection_undefined_run.
  - unfold setConnection. by rewrite setConnection_falsy_run.
Qed.

Lemma setConnection_throws_only_on_bad_argument_witness :
  setConnection AOther first_throws
  = (Throw (MoneroError "Must provide string or MoneroRpcConnection to set connection"),
     first_throws)
  /\ (AString "http://a" <> AOther ->
      fst (setConnection (AString "http://a") first_throws) = Return tt).
Proof.
  apply (setConnection_throws_only_on_bad_argument (AString "http://a") first_throws).
  apply wf_manager_of; [simpl; lia | done].
Defined.

(** X26: checkConnection waits for the notification it makes for the
    current connection: when the check of the current connection returns
    true and the promise of the notification rejects (a listener threw,
    or returned a promise that rejects), checkConnection fails with that
    reason after the status has been written and the listeners called,
    and no auto-switch takes place; otherwise it returns normally. *)
Theorem checkConnection_fails_when_notification_rejects net st (r : ref) tm o a :
  Inv st -> _currentConnection st = Some r ->
  net (_timeoutInMs st) r = Reply tm o a true ->
  let st1 := write_obj r (set_status o a (obj st r)) st in
  match fst (_onConnectionChanged (Some r) st1) with
  | Return (Rejected _ e) => checkConnection net st = (Throw e, after_notify (Some r) st1)
  | _ => fst (checkConnection net st) = Return tt
  end.
Proof.
  intros HI Hcur Hnet st1.
  assert (Hcheck : check_current net (Some r) st
                   = match fst (_onConnectionChanged (Some r) st1) with
                     | Return (Rejected _ e) => (Throw e, after_notify (Some r) st1)
                     | _ => (Return tt, after_notify (Some r) st1)
                     end).
  { unfold check_current. rewrite bind_gets.
    unfold mbind at 1, M_bind at 1, connection_checkConnection. rewrite Hnet.
    fold st1. cbn [await]. unfold mbind at 1, M_bind at 1. cbn [mret M_ret].
    destruct (onConnectionChanged_run (Some r) st1) as (ls & called & p & _ & Hrun).
    unfold after_notify. rewrite (bind_Return _ _ _ _ _ Hrun), Hrun. cbn [fst snd].
    by destruct p. }
  pose proof (checkConnection_run net st HI) as (_ & _ & _ & H).
  rewrite Hcur in H. rewrite Hcheck in H.
  destruct (fst (_onConnectionChanged (Some r) st1)) as [[tf v|tr e]|e]; cbn [fst snd] in H.
  - by rewrite H.
  - done.
  - by rewrite H.
Qed.

Lemma Inv_healthy_current_failing_listener : Inv healthy_current_failing_listener.
Proof.
  split.
  - apply wf_manager_of; [simpl; lia |]. intros r [= <-]. simpl. lia.
  - unfold unique_uris. apply (bool_decide_unpack _). by vm_compute.
Qed.

Lemma checkConnection_fails_when_notification_rejects_witness :
  checkConnection all_up healthy_current_failing_listener
  = (Throw (TypeError "handler failed"),
     after_notify (Some 0%nat)
       (write_obj 0%nat (set_status (Some true) (Some true)
                           (obj healthy_current_failing_listener 0%nat))
                  healthy_current_failing_listener)).
Proof.
  apply (checkConnection_fails_when_notification_rejects all_up
           healthy_current_failing_listener 0%nat 3%nat (Some true) (Some true)
           Inv_healthy_current_failing_listener eq_refl eq_refl).
Defined.

(** * MoneroWalletRpc: properties of the comparators and of the decoder *)

Lemma sorts_by {A} (compareFn : A -> A -> Z) (R : A -> A -> Prop) (l : list A) :
  (forall x y, compareFn x y <= 0 <-> R x y) ->
  (forall x y, R x y \/ R y x) -> Transitive R ->
  Array_sort compareFn l ≡ₚ l /\ StronglySorted R (Array_sort compareFn l).
Proof.
  intros Hle Htotal Htrans. split; [apply Array_sort_Permutation |].
  apply Sorted_StronglySorted; [done |].
  apply (Sorted_weaken compareFn).
  - intros x y H. by apply Hle.
  - apply Array_sort_Sorted. intros x y. rewrite !Hle. apply Htotal.
Qed.

Lemma compareIncomingTransfers_le t1 t2 :
  _compareIncomingTransfers t1 t2 <= 0 <-> transfer_before t1 t2.
Proof.
  unfold _compareIncomingTransfers, transfer_before.
  destruct (Z.ltb_spec (getAccountIndex t1) (getAccountIndex t2));
    destruct (Z.eqb_spec (getAccountIndex t1) (getAccountIndex t2)); lia.
Qed.

(** X21: _compareIncomingTransfers is a consistent comparator for the
    order by ascending account index, then subaddress index: sorting
    transfers with it rearranges them into that order; it returns 0
    exactly for transfers with the same two indices, and swapping the
    arguments swaps the sign. *)
Theorem compareIncomingTransfers_sorts (transfers : list MoneroIncomingTransfer) :
  let sorted := Array_sort _compareIncomingTransfers transfers in
  sorted ≡ₚ transfers
  /\ StronglySorted transfer_before sorted
  /\ forall t1 t2,
      (_compareIncomingTransfers t1 t2 = 0
       <-> getAccountIndex t1 = getAccountIndex t2
           /\ getSubaddressIndex t1 = getSubaddressIndex t2)
      /\ (_compareIncomingTransfers t1 t2 < 0 <-> 0 < _compareIncomingTransfers t2 t1).
Proof.
  intros sorted.
  destruct (sorts_by _compareIncomingTransfers transfer_before transfers) as [Hp Hs].
  - apply compareIncomingTransfers_le.
  - intros x y. unfold transfer_before. lia.
  - intros x y z. unfold transfer_before. lia.
  - split; [done |]. split; [done |]. intros t1 t2. unfold _compareIncomingTransfers.
    destruct (Z.ltb_spec (getAccountIndex t1) (getAccountIndex t2));
      destruct (Z.eqb_spec (getAccountIndex t1) (getAccountIndex t2));
      destruct (Z.ltb_spec (getAccountIndex t2) (getAccountIndex t1));
      destruct (Z.eqb_spec (getAccountIndex t2) (getAccountIndex t1)); lia.
Qed.

Lemma compareTxsByHeight_spec tx1 tx2 :
  (_compareTxsByHeight tx1 tx2 < 0 <-> tx_lt tx1 tx2)
  /\ (_compareTxsByHeight tx1 tx2 = 0 <-> tx_same tx1 tx2)
  /\ (0 < _compareTxsByHeight tx1 tx2 <-> tx_lt tx2 tx1).
Proof.
  unfold _compareTxsByHeight, tx_lt, tx_same.
  destruct (getHeight tx1) as [h1|], (getHeight tx2) as [h2|]; cbv zeta;
    try (destruct (Z.eqb_spec (h1 - h2) 0); simpl); lia || tauto.
Qed.

Lemma compareTxsByHeight_swap tx1 tx2 :
  _compareTxsByHeight tx2 tx1 = - _compareTxsByHeight tx1 tx2.
Proof.
  unfold _compareTxsByHeight.
  destruct (getHeight tx1) as [h1|], (getHeight tx2) as [h2|]; cbv zeta; try done.
  destruct (Z.eqb_spec (h1 - h2) 0), (Z.eqb_spec (h2 - h1) 0); simpl; lia.
Qed.

#[local] Instance tx_order_trans : Transitive (fun a b => tx_lt a b \/ tx_same a b).
Proof.
  intros x y z. unfold tx_lt, tx_same.
  destruct (getHeight x), (getHeight y), (getHeight z); lia || tauto.
Qed.

(** X22: _compareTxsByHeight is a consistent comparator for the order in
    which confirmed transactions go before unconfirmed ones, lower blocks
    before higher ones, and the transactions of one block in their order
    in the block: sorting with it rearranges the transactions into that
    order; it is negative, zero or positive exactly as that order says,
    so that swapping the arguments swaps the sign. *)
Theorem compareTxsByHeight_sorts (txs : list MoneroTxWallet) :
  let sorted := Array_sort _compareTxsByHeight txs in
  sorted ≡ₚ txs
  /\ StronglySorted (fun a b => tx_lt a b \/ tx_same a b) sorted
  /\ forall tx1 tx2,
      (_compareTxsByHeight tx1 tx2 < 0 <-> tx_lt tx1 tx2)
      /\ (_compareTxsByHeight tx1 tx2 = 0 <-> tx_same tx1 tx2)
      /\ (0 < _compareTxsByHeight tx1 tx2 <-> tx_lt tx2 tx1).
Proof.
  intros sorted.
  destruct (sorts_by _compareTxsByHeight (fun a b => tx_lt a b \/ tx_same a b) txs)
    as [Hp Hs].
  - intros x y. destruct (compareTxsByHeight_spec x y) as (H1 & H2 & _).
    rewrite <- H1, <- H2. lia.
  - intros x y.
    destruct (compareTxsByHeight_spec x y) as (H1 & H2 & H3).
    rewrite <- H1, <- H2, <- H3. lia.
  - apply _.
  - split; [done |]. split; [done |]. apply compareTxsByHeight_spec.
Qed.

Lemma compareVouts_le o1 o2 : _compareVouts o1 o2 <= 0 <-> vout_before o1 o2.
Proof.
  unfold _compareVouts, vout_before. cbv zeta.
  destruct (compareTxsByHeight_spec (getTx o1) (getTx o2)) as (H1 & H2 & H3).
  rewrite <- H1, <- H2.
  destruct (Z.eqb_spec (_compareTxsByHeight (getTx o1) (getTx o2)) 0) as [E|E]; simpl.
  - destruct (Z.ltb_spec (output_getAccountIndex o1) (output_getAccountIndex o2));
      destruct (Z.eqb_spec (output_getAccountIndex o1) (output_getAccountIndex o2));
      try lia.
    destruct (Z.eqb_spec (output_getSubaddressIndex o1 - output_getSubaddressIndex o2) 0);
      simpl; lia.
  - lia.
Qed.

(** X23: _compareVouts is a consistent comparator for the order of
    outputs by the position of their transaction (as _compareTxsByHeight
    orders transactions), then account index, subaddress index and output
    index: sorting outputs with it rearranges them into that order. *)
Theorem compareVouts_sorts (vouts : list MoneroOutputWallet) :
  let sorted := Array_sort _compareVouts vouts in
  sorted ≡ₚ vouts /\ StronglySorted vout_before sorted.
Proof.
  intros sorted. apply sorts_by.
  - apply compareVouts_le.
  - intros x y. rewrite <- !compareVouts_le. unfold _compareVouts. cbv zeta.
    rewrite (compareTxsByHeight_swap (getTx x) (getTx y)).
    destruct (Z.eqb_spec (_compareTxsByHeight (getTx x) (getTx y)) 0) as [E|E];
      destruct (Z.eqb_spec (- _compareTxsByHeight (getTx x) (getTx y)) 0) as [E'|E'];
      simpl; try lia.
    destruct (Z.ltb_spec (output_getAccountIndex x) (output_getAccountIndex y));
      destruct (Z.eqb_spec (output_getAccountIndex x) (output_getAccountIndex y));
      destruct (Z.ltb_spec (output_getAccountIndex y) (output_getAccountIndex x));
      destruct (Z.eqb_spec (output_getAccountIndex y) (output_getAccountIndex x));
      try lia.
    destruct (Z.eqb_spec (output_getSubaddressIndex x - output_getSubaddressIndex y) 0);
      destruct (Z.eqb_spec (output_getSubaddressIndex y - output_getSubaddressIndex x) 0);
      simpl; lia.
  - intros x y z. unfold vout_before.
    assert (Hlt : forall a b c, tx_lt a b -> tx_lt b c \/ tx_same b c -> tx_lt a c).
    { intros a b c. unfold tx_lt, tx_same.
      destruct (getHeight a), (getHeight b), (getHeight c); lia || tauto. }
    assert (Hlt' : forall a b c, tx_same a b -> tx_lt b c -> tx_lt a c).
    { intros a b c. unfold tx_lt, tx_same.
      destruct (getHeight a), (getHeight b), (getHeight c); lia || tauto. }
    assert (Heq : forall a b c, tx_same a b -> tx_same b c -> tx_same a c).
    { intros a b c. unfold tx_same.
      destruct (getHeight a), (getHeight b), (getHeight c); lia || tauto. }
    intros [Hxy|[Hxy Kxy]] [Hyz|[Hyz Kyz]].
    + left. eapply Hlt; eauto.
    + left. eapply Hlt; eauto.
    + left. eapply Hlt'; eauto.
    + right. split; [eapply Heq; eauto | lia].
Qed.

(** X24: _decodeRpcType accepts exactly the six transfer types; for any
    other it throws "Unrecognized transfer type: " followed by the type
    and leaves the transaction as it was.  For an accepted type it sets
    all six fields, whatever they were: the transaction is relayed and
    not marked do-not-relay, exactly one of confirmed, in the pool and
    failed holds, a miner transaction is confirmed and incoming, a failed
    one is outgoing; and it returns true exactly for the outgoing types
    "out", "pending" and "failed". *)
Theorem decodeRpcType_flags rpcType tx :
  let tx' := snd (_decodeRpcType rpcType tx) in
  match fst (_decodeRpcType rpcType tx) with
  | Return isOutgoing =>
    (rpcType ∈ transfer_types)
    /\ (isOutgoing = true <-> rpcType ∈ ["out"; "pending"; "failed"])
    /\ isRelayed tx' = Some true
    /\ doNotRelay tx' = Some false
    /\ exists confirmed pool failed miner,
        isConfirmed tx' = Some confirmed /\ inTxPool tx' = Some pool
        /\ isFailed tx' = Some failed /\ isMinerTx tx' = Some miner
        /\ (if confirmed then pool = false /\ failed = false
            else xorb pool failed = true)
        /\ (miner = true -> confirmed = true /\ isOutgoing = false)
        /\ (failed = true -> isOutgoing = true)
  | Throw e =>
    (rpcType ∉ transfer_types)
    /\ e = MoneroError (String.append "Unrecognized transfer type: " rpcType)
    /\ tx' = tx
  end.
Proof.
  intros tx'. subst tx'. unfold _decodeRpcType, transfer_types.
  assert (Hyes : forall (x : string) (l : list string),
             bool_decide (x ∈ l) = true -> x ∈ l)
    by (intros x l; apply bool_decide_eq_true_1).
  assert (Hno : forall (x : string) (l : list string),
             bool_decide (x ∈ l) = false -> x ∈ l -> False).
  { intros x l H Hin. by rewrite bool_decide_eq_true_2 in H. }
  destruct (String.eqb_spec rpcType "in") as [->|N1].
  { split; [by apply Hyes |]. split; [split; [done | by intros ?%Hno] |].
    split; [done |]. split; [done |]. by exists true, false, false, false. }
  destruct (String.eqb_spec rpcType "out") as [->|N2].
  { split; [by apply Hyes |]. split; [split; [intros _; by apply Hyes | done] |].
    split; [done |]. split; [done |]. by exists true, false, false, false. }
  destruct (String.eqb_spec rpcType "pool") as [->|N3].
  { split; [by apply Hyes |]. split; [split; [done | by intros ?%Hno] |].
    split; [done |]. split; [done |]. by exists false, true, false, false. }
  destruct (String.eqb_spec rpcType "pending") as [->|N4].
  { split; [by apply Hyes |]. split; [split; [intros _; by apply Hyes | done] |].
    split; [done |]. split; [done |]. by exists false, true, false, false. }
  destruct (String.eqb_spec rpcType "block") as [->|N5].
  { split; [by apply Hyes |]. split; [split; [done | by intros ?%Hno] |].
    split; [done |]. split; [done |]. by exists true, false, false, true. }
  destruct (String.eqb_spec rpcType "failed") as [->|N6].
  { split; [by apply Hyes |]. split; [split; [intros _; by apply Hyes | done] |].
    split; [done |]. split; [done |]. by exists false, false, true, false. }
  split; [| done].
  intros H. repeat (apply elem_of_cons in H as [H|H]; [done |]). by apply elem_of_nil in H.
Qed.
